(** * penaltymodel: the BinaryQuadraticModel class

    A shallow embedding of
    [penaltymodel/classes/binary_quadratic_model.py] and the properties
    its specification states about it.

    Modelling choices, all taken from the source:
    - a Python [dict] is an association list with pairwise distinct keys,
      kept in insertion order: assigning to a present key replaces the
      value in place, assigning to an absent key appends, [del] removes;
    - a variable label is a Python integer or a Python string;
    - a key of [quadratic] is any Python value the constructor can be
      handed: a tuple of labels of any length, or a bare label;
    - a number is modelled by its rational value, compared with [Qeq]:
      the arithmetic among the numbers of a model is exact (the
      arithmetic the specification asks for), and an operation that
      involves a float literal or a float accumulator, as those of the
      conversions between the vartypes, is carried out in binary64,
      rounded to nearest, ties to even ([to_float]);
    - a raised exception is a value [Err e] and every operation that can
      raise returns a [result]. *)

From Stdlib Require Import List ZArith QArith String Ascii Bool Lia.
From Stdlib Require Import Setoid Morphisms SpecFloat.
Import ListNotations.

(* ================================================================= *)
(** * Exceptions *)

Inductive PyError : Type :=
| TypeError
| ValueError
| KeyError
| RuntimeError.

Inductive result (A : Type) : Type :=
| Ok (a : A)
| Err (e : PyError).

Arguments Ok {A} a.
Arguments Err {A} e.

Definition bind {A B : Type} (r : result A) (k : A -> result B) : result B :=
  match r with
  | Ok a => k a
  | Err e => Err e
  end.

Declare Scope py_scope.
Delimit Scope py_scope with py.
Notation "x <- c ;; k" := (bind c (fun x => k))
  (at level 61, c at next level, right associativity) : py_scope.
Notation "' p <- c ;; k" := (bind c (fun x => match x with p => k end))
  (at level 61, p pattern, c at next level, right associativity) : py_scope.
Open Scope py_scope.

(** A [for] loop whose body may raise: the state is threaded through the
    items from left to right and the first exception stops the loop. *)
Fixpoint for_each {A S : Type} (body : S -> A -> result S) (items : list A)
  (s : S) : result S :=
  match items with
  | [] => Ok s
  | x :: rest => s' <- body s x ;; for_each body rest s'
  end.

(* ================================================================= *)
(** * Hashable keys and Python dicts *)

Class Hashable (K : Type) : Type := {
  key_eqb : K -> K -> bool;
  key_eqb_spec : forall a b : K, reflect (a = b) (key_eqb a b)
}.

Abbreviation dict K V := (list (K * V)) (only parsing).

Section Dict.
Context {K V : Type} `{Hashable K}.

Definition keys (d : dict K V) : list K := map fst d.
Definition values (d : dict K V) : list V := map snd d.

(** [k in xs] for a list or a set of keys. *)
Definition contains (k : K) (xs : list K) : bool := existsb (key_eqb k) xs.

(** [d.get(k)] *)
Fixpoint dget (k : K) (d : dict K V) : option V :=
  match d with
  | [] => None
  | (k', v) :: rest => if key_eqb k k' then Some v else dget k rest
  end.

(** [k in d] *)
Definition dmem (k : K) (d : dict K V) : bool :=
  match dget k d with Some _ => true | None => false end.

(** [d[k]], raising [KeyError] on an absent key. *)
Definition getitem (k : K) (d : dict K V) : result V :=
  match dget k d with Some v => Ok v | None => Err KeyError end.

(** [d[k] = v] *)
Fixpoint dset (k : K) (v : V) (d : dict K V) : dict K V :=
  match d with
  | [] => [(k, v)]
  | (k', v') :: rest =>
      if key_eqb k k' then (k', v) :: rest else (k', v') :: dset k v rest
  end.

(** The effect of [del d[k]] on a dict that has the key. *)
Fixpoint ddel (k : K) (d : dict K V) : dict K V :=
  match d with
  | [] => []
  | (k', v') :: rest =>
      if key_eqb k k' then rest else (k', v') :: ddel k rest
  end.

(** [del d[k]], raising [KeyError] on an absent key. *)
Definition delitem (k : K) (d : dict K V) : result (dict K V) :=
  if dmem k d then Ok (ddel k d) else Err KeyError.

(** [dict(items)] and the dict comprehensions: the items are inserted
    one after the other, a repeated key keeps its first position and
    its last value. *)
Definition dict_of_items (items : list (K * V)) : dict K V :=
  fold_left (fun acc kv => dset (fst kv) (snd kv) acc) items [].

(** [a == b] on dicts: as many entries, and every key of [a] is a key
    of [b] with an equal value. *)
Definition dict_eqb (veqb : V -> V -> bool) (a b : dict K V) : bool :=
  Nat.eqb (List.length a) (List.length b)
  && forallb (fun kv => match dget (fst kv) b with
                        | Some v' => veqb (snd kv) v'
                        | None => false
                        end) a.

(** Pairwise distinct keys, the well-formedness of a dict. *)
Fixpoint distinct (xs : list K) : bool :=
  match xs with
  | [] => true
  | x :: rest => negb (contains x rest) && distinct rest
  end.
End Dict.

(* ================================================================= *)
(** * Variables, quadratic keys, vartypes *)

(** A variable label (a key of [linear]): an [int] or a [str]. *)
Inductive Label : Type :=
| LInt (z : Z)
| LStr (s : string).

Definition label_eqb (a b : Label) : bool :=
  match a, b with
  | LInt x, LInt y => Z.eqb x y
  | LStr x, LStr y => String.eqb x y
  | _, _ => false
  end.

Lemma label_eqb_spec (a b : Label) : reflect (a = b) (label_eqb a b).
Proof.
  destruct a as [x|x], b as [y|y]; simpl; try (constructor; discriminate).
  - destruct (Z.eqb_spec x y); constructor; congruence.
  - destruct (String.eqb_spec x y); constructor; congruence.
Qed.

#[export] Instance Label_Hashable : Hashable Label :=
  {| key_eqb := label_eqb; key_eqb_spec := label_eqb_spec |}.

(** A key of [quadratic] as Python sees it: a tuple of labels, or a
    single label that is no tuple at all. *)
Inductive PyKey : Type :=
| KTup (items : list Label)
| KLabel (v : Label).

Fixpoint labels_eqb (a b : list Label) : bool :=
  match a, b with
  | [], [] => true
  | x :: a', y :: b' => label_eqb x y && labels_eqb a' b'
  | _, _ => false
  end.

Lemma labels_eqb_spec (a b : list Label) : reflect (a = b) (labels_eqb a b).
Proof.
  revert b; induction a as [|x a IH]; intros [|y b]; simpl;
    try (constructor; congruence).
  destruct (label_eqb_spec x y); simpl.
  - destruct (IH b); constructor; congruence.
  - constructor; congruence.
Qed.

Definition pykey_eqb (a b : PyKey) : bool :=
  match a, b with
  | KTup x, KTup y => labels_eqb x y
  | KLabel x, KLabel y => label_eqb x y
  | _, _ => false
  end.

Lemma pykey_eqb_spec (a b : PyKey) : reflect (a = b) (pykey_eqb a b).
Proof.
  destruct a as [x|x], b as [y|y]; simpl; try (constructor; discriminate).
  - destruct (labels_eqb_spec x y); constructor; congruence.
  - destruct (label_eqb_spec x y); constructor; congruence.
Qed.

#[export] Instance PyKey_Hashable : Hashable PyKey :=
  {| key_eqb := pykey_eqb; key_eqb_spec := pykey_eqb_spec |}.

(** The pair [(u, v)] as a key. *)
Definition edge (u v : Label) : PyKey := KTup [u; v].

(** Iterating over a string yields its characters as strings. *)
Fixpoint chars (s : string) : list Label :=
  match s with
  | EmptyString => []
  | String c rest => LStr (String c EmptyString) :: chars rest
  end.

(** [u, v = key]: a tuple or a string of two items unpacks, one of
    another length raises [ValueError], an integer is not iterable and
    raises [TypeError]. *)
Definition unpack2 (k : PyKey) : result (Label * Label) :=
  match k with
  | KTup [u; v] => Ok (u, v)
  | KTup _ => Err ValueError
  | KLabel (LStr s) =>
      match chars s with
      | [u; v] => Ok (u, v)
      | _ => Err ValueError
      end
  | KLabel (LInt _) => Err TypeError
  end.

(** Modelled from the spec: the enumeration [Vartype] of the module
    [penaltymodel.classes.vartypes], which is not among the sources at
    hand; it has exactly the two variants SPIN and BINARY. *)
Inductive Vartype : Type :=
| SPIN
| BINARY.

Definition vartype_eqb (a b : Vartype) : bool :=
  match a, b with
  | SPIN, SPIN | BINARY, BINARY => true
  | _, _ => false
  end.

(** What a caller may pass as [vartype]: a member of the enumeration, a
    string, a set of integers, or an integer. *)
Inductive VartypeToken : Type :=
| TokEnum (v : Vartype)
| TokStr (s : string)
| TokSet (members : list Z)
| TokInt (z : Z).

Definition same_members (a b : list Z) : bool :=
  forallb (fun x => existsb (Z.eqb x) b) a
  && forallb (fun y => existsb (Z.eqb y) a) b.

(** Modelled from the spec: the module [penaltymodel.classes.vartypes] is
    not part of the sources at hand.  [Vartype] is a closed enumeration
    of exactly two variants; [Vartype[name]] finds a member by its exact
    name and raises [KeyError] otherwise, [Vartype(value)] finds a member
    from the member itself or from its defining value set ([{-1, 1}] for
    SPIN, [{0, 1}] for BINARY) and raises [ValueError] otherwise. *)
Definition Vartype_by_name (name : string) : result Vartype :=
  if String.eqb name "SPIN" then Ok SPIN
  else if String.eqb name "BINARY" then Ok BINARY
  else Err KeyError.

(** Modelled from the spec: [Vartype(value)], see [Vartype_by_name]. *)
Definition Vartype_by_value (t : VartypeToken) : result Vartype :=
  match t with
  | TokEnum v => Ok v
  | TokSet s =>
      if same_members s [-1; 1]%Z then Ok SPIN
      else if same_members s [0; 1]%Z then Ok BINARY
      else Err ValueError
  | TokStr _ | TokInt _ => Err ValueError
  end.

(** The [try] block that opens [__init__] and [change_vartype]: a string
    is looked up by name, anything else by value, and a failed lookup
    becomes a [TypeError]. *)
Definition normalize_vartype (t : VartypeToken) : result Vartype :=
  match (match t with
         | TokStr name => Vartype_by_name name
         | _ => Vartype_by_value t
         end) with
  | Ok v => Ok v
  | Err ValueError | Err KeyError => Err TypeError
  | Err e => Err e
  end.

(* ================================================================= *)
(** * The model and its constructor *)

(** A bias is a number, modelled by its rational value. *)
Abbreviation Bias := Q (only parsing).

Abbreviation NeighborDict := (dict Label Bias) (only parsing).

Record BinaryQuadraticModel : Type := mkBQM {
  linear : dict Label Bias;
  quadratic : dict PyKey Bias;
  offset : Bias;
  vartype : Vartype;
  adj : dict Label NeighborDict
}.

(** [all(u in linear and v in linear for u, v in quadratic)]: the keys
    are unpacked one after the other, the first failing test ends the
    scan, and an unpacking error escapes from the generator. *)
Fixpoint all_in_linear (lin : dict Label Bias) (ks : list PyKey)
  : result bool :=
  match ks with
  | [] => Ok true
  | k :: rest =>
      '(u, v) <- unpack2 k ;;
      if dmem u lin && dmem v lin then all_in_linear lin rest else Ok false
  end.

(** The [try ... except ValueError] around that test: a failed test and
    a [ValueError] from unpacking both end as [ValueError]; any other
    exception passes through. *)
Definition check_quadratic_keys (lin : dict Label Bias)
  (quad : dict PyKey Bias) : result unit :=
  match all_in_linear lin (keys quad) with
  | Ok true => Ok tt
  | Ok false => Err ValueError
  | Err e => Err e
  end.

(** One turn of the loop that builds the adjacency. *)
Definition add_interaction (a : dict Label NeighborDict)
  (item : PyKey * Bias) : result (dict Label NeighborDict) :=
  let (k, bias) := item in
  '(u, v) <- unpack2 k ;;
  if label_eqb u v then Err ValueError
  else
    au <- getitem u a ;;
    if dmem v au then Err ValueError
    else
      let a1 := dset u (dset v bias au) a in
      av <- getitem v a1 ;;
      if dmem u av then Err ValueError
      else Ok (dset v (dset u bias av) a1).

(** [{v: {} for v in linear}] *)
Definition empty_adj (lin : dict Label Bias) : dict Label NeighborDict :=
  dict_of_items (map (fun kv => (fst kv, @nil (Label * Bias))) lin).

(** [BinaryQuadraticModel.__init__].  The two [isinstance(_, dict)] tests
    are settled by the types of the arguments. *)
Definition BinaryQuadraticModel_init (lin : dict Label Bias)
  (quad : dict PyKey Bias) (off : Bias) (token : VartypeToken)
  : result BinaryQuadraticModel :=
  vt <- normalize_vartype token ;;
  _ <- check_quadratic_keys lin quad ;;
  a <- for_each add_interaction quad (empty_adj lin) ;;
  Ok (mkBQM lin quad off vt a).

(* ================================================================= *)
(** * Equality, copy, energy *)

(** [BinaryQuadraticModel.__eq__], for an argument that is a model. *)
Definition __eq__ (self model : BinaryQuadraticModel) : bool :=
  if vartype_eqb (vartype self) (vartype model)
  then dict_eqb Qeq_bool (linear self) (linear model)
       && dict_eqb (dict_eqb Qeq_bool) (adj self) (adj model)
       && Qeq_bool (offset self) (offset model)
  else false.

(** [BinaryQuadraticModel.copy] *)
Definition copy (self : BinaryQuadraticModel) : result BinaryQuadraticModel :=
  BinaryQuadraticModel_init (linear self) (quadratic self) (offset self)
    (TokEnum (vartype self)).

(** [sum(term(x) for x in items)]: the terms are added to 0 from left to
    right, and a term that raises ends the sum. *)
Definition sum_over {A : Type} (term : A -> result Q) (items : list A)
  : result Q :=
  for_each (fun acc x => t <- term x ;; Ok (acc + t)) items 0.

(** [sum(values)] *)
Definition py_sum (xs : list Q) : Q := fold_left Qplus xs 0.

(** [BinaryQuadraticModel.energy] *)
Definition energy (self : BinaryQuadraticModel) (sample : dict Label Q)
  : result Q :=
  let lin := linear self in
  let quad := quadratic self in
  let en := offset self in
  s1 <- sum_over (fun v => h <- getitem v lin ;;
                           s <- getitem v sample ;;
                           Ok (h * s)) (keys lin) ;;
  let en := en + s1 in
  s2 <- sum_over (fun k => '(u, v) <- unpack2 k ;;
                           j <- getitem (edge u v) quad ;;
                           su <- getitem u sample ;;
                           sv <- getitem v sample ;;
                           Ok (j * su * sv)) (keys quad) ;;
  Ok (en + s2).

(* ================================================================= *)
(** * Binary64 arithmetic *)

(** [floor (log2 (n / d))], for positive [n] and [d]. *)
Definition floor_log2 (n d : Z) : Z :=
  let e := (Z.log2 n - Z.log2 d)%Z in
  if (n * 2 ^ Z.max 0 (- e) <? d * 2 ^ Z.max 0 e)%Z then (e - 1)%Z else e.

(** The integer nearest to [n / d], the even one of the two when [n / d]
    is half way between them; [d] is positive. *)
Definition round_half_even (n d : Z) : Z :=
  let q := (n / d)%Z in
  match (2 * (n mod d) ?= d)%Z with
  | Lt => q
  | Gt => (q + 1)%Z
  | Eq => if Z.even q then q else (q + 1)%Z
  end.

(** [2^e] *)
Definition pow2 (e : Z) : Q :=
  if (0 <=? e)%Z then inject_Z (2 ^ e) else 1 # Z.to_pos (2 ^ (- e)).

(** [float(x)]: the binary64 number nearest to [x], ties to even.  A
    number in the binade [2^k <= |x| < 2^(k+1)] is rounded to a multiple
    of [2^(k-52)], and to a multiple of [2^-1074] below the normal range.
    The exponent is not bounded from above: a result beyond the largest
    binary64 number (where Python raises [OverflowError] or computes
    with [inf]) is not modelled. *)
Definition to_float (x : Q) : Q :=
  let n := Qnum (Qred x) in
  let d := Zpos (Qden (Qred x)) in
  if (n =? 0)%Z then 0
  else
    let e := Z.max (floor_log2 (Z.abs n) d - 52) (-1074) in
    let m := round_half_even (n * 2 ^ Z.max 0 (- e)) (d * 2 ^ Z.max 0 e) in
    Qred (inject_Z m * pow2 e).

(** [a * b], [a + b] and [a - b] when one of the operands is a float:
    the other operand is converted to a float and the result is rounded. *)
Definition float_mul (a b : Q) : Q := to_float (to_float a * to_float b).

Definition float_add (a b : Q) : Q := to_float (to_float a + to_float b).

Definition float_sub (a b : Q) : Q := to_float (to_float a - to_float b).

(* ================================================================= *)
(** * Conversions between the two vartypes *)

Abbreviation Triple := (dict Label Bias * dict PyKey Bias * Bias)%type (only parsing).

(** The body of the loop over [quadratic] in [_spin_to_binary]:
    [4. * bias] and [new_linear[u] -= 2. * bias] are float operations. *)
Definition spin_to_binary_step (st : dict Label Bias * dict PyKey Bias)
  (item : PyKey * Bias) : result (dict Label Bias * dict PyKey Bias) :=
  let (new_linear, new_quadratic) := st in
  let (k, bias) := item in
  '(u, v) <- unpack2 k ;;
  let new_quadratic := dset (edge u v) (float_mul 4 bias) new_quadratic in
  x <- getitem u new_linear ;;
  let new_linear := dset u (float_sub x (float_mul 2 bias)) new_linear in
  y <- getitem v new_linear ;;
  let new_linear := dset v (float_sub y (float_mul 2 bias)) new_linear in
  Ok (new_linear, new_quadratic).

(** [BinaryQuadraticModel._spin_to_binary].  The new biases are floats;
    the line of the offset has no float in it and adds the numbers of
    the model as they are. *)
Definition _spin_to_binary (self : BinaryQuadraticModel) : result Triple :=
  let lin := linear self in
  let quad := quadratic self in
  let new_linear :=
    dict_of_items (map (fun vb => (fst vb, float_mul 2 (snd vb))) lin) in
  '(new_linear, new_quadratic) <-
    for_each spin_to_binary_step quad (new_linear, []) ;;
  let off := offset self + py_sum (values quad) - py_sum (values lin) in
  Ok (new_linear, new_quadratic, off).

(** The bodies of the two loops of [_binary_to_spin].  [.5 * bias] and
    [.25 * bias] are float operations, and so are the additions to
    [linear_offset] and [quadratic_offset], which start as [0.0]. *)
Definition binary_to_spin_linear (st : dict Label Bias * Q)
  (item : Label * Bias) : dict Label Bias * Q :=
  let (h, linear_offset) := st in
  let (u, bias) := item in
  (dset u (float_mul (1#2) bias) h, float_add linear_offset bias).

Definition binary_to_spin_step (st : dict Label Bias * dict PyKey Bias * Q)
  (item : PyKey * Bias) : result (dict Label Bias * dict PyKey Bias * Q) :=
  let '(h, J, quadratic_offset) := st in
  let (k, bias) := item in
  '(u, v) <- unpack2 k ;;
  let J := dset (edge u v) (float_mul (1#4) bias) J in
  x <- getitem u h ;;
  let h := dset u (float_add x (float_mul (1#4) bias)) h in
  y <- getitem v h ;;
  let h := dset v (float_add y (float_mul (1#4) bias)) h in
  Ok (h, J, float_add quadratic_offset bias).

(** [BinaryQuadraticModel._binary_to_spin] *)
Definition _binary_to_spin (self : BinaryQuadraticModel) : result Triple :=
  let lin := linear self in
  let quad := quadratic self in
  let (h, linear_offset) := fold_left binary_to_spin_linear lin ([], 0) in
  '(h, J, quadratic_offset) <-
    for_each binary_to_spin_step quad (h, [], 0) ;;
  let off := float_add (float_add (offset self) (float_mul (1#2) linear_offset))
                       (float_mul (1#4) quadratic_offset) in
  Ok (h, J, off).

(** [BinaryQuadraticModel.change_vartype] *)
Definition change_vartype (self : BinaryQuadraticModel) (token : VartypeToken)
  : result BinaryQuadraticModel :=
  vt <- normalize_vartype token ;;
  if vartype_eqb vt (vartype self) then copy self
  else
    match vartype self, vt with
    | SPIN, BINARY =>
        '(lin, quad, off) <- _spin_to_binary self ;;
        BinaryQuadraticModel_init lin quad off (TokEnum BINARY)
    | BINARY, SPIN =>
        '(lin, quad, off) <- _binary_to_spin self ;;
        BinaryQuadraticModel_init lin quad off (TokEnum SPIN)
    | _, _ => Err RuntimeError
    end.


(** [{(v, v): bias for v, bias in iteritems(linear)}], written into [q]
    entry after entry. *)
Definition put_diagonal (lin : dict Label Bias) (q : dict PyKey Bias)
  : dict PyKey Bias :=
  fold_left (fun q (vb : Label * Bias) => dset (edge (fst vb) (fst vb)) (snd vb) q)
            lin q.

(** [BinaryQuadraticModel.as_qubo] *)
Definition as_qubo (self : BinaryQuadraticModel)
  : result (dict PyKey Bias * Bias) :=
  match vartype self with
  | BINARY =>
      let qubo := put_diagonal (linear self) [] in
      let qubo := fold_left (fun q (eb : PyKey * Bias) => dset (fst eb) (snd eb) q)
                            (quadratic self) qubo in
      Ok (qubo, offset self)
  | SPIN =>
      '(lin, quad, off) <- _spin_to_binary self ;;
      Ok (put_diagonal lin quad, off)
  end.

(* ================================================================= *)
(** * Relabeling *)

Abbreviation Mapping := (dict Label Label) (only parsing).

(** [mapping.get(v, v)] *)
Definition relabeled (mapping : Mapping) (v : Label) : Label :=
  match dget v mapping with Some new => new | None => v end.

(** The guard that opens [relabel_variables]: some new label names a
    variable of the model that the mapping does not rename. *)
Definition label_collision (lin : dict Label Bias) (old_labels new_labels : list Label)
  : bool :=
  existsb (fun v => dmem v lin && negb (contains v old_labels)) new_labels.

(** The arguments of the constructor call in the [copy=True] branch. *)
Definition relabeled_linear (mapping : Mapping) (lin : dict Label Bias)
  : dict Label Bias :=
  dict_of_items (map (fun vb => (relabeled mapping (fst vb), snd vb)) lin).

Definition relabeled_quadratic (mapping : Mapping) (quad : dict PyKey Bias)
  : result (dict PyKey Bias) :=
  for_each (fun acc (item : PyKey * Bias) =>
              let (k, bias) := item in
              '(u, v) <- unpack2 k ;;
              Ok (dset (edge (relabeled mapping u) (relabeled mapping v)) bias acc))
           quad [].

(** [lbl = next(counter)] followed by the [while] loop that draws again
    as long as the label is in use.  The counter is the next integer it
    yields.  Every turn of the loop meets another label of [used], so
    [fuel = List.length used] turns are the most it can take (see
    [next_unused_fresh]). *)
Fixpoint next_unused (fuel : nat) (counter : Z) (used : list Label) : Z * Z :=
  match fuel with
  | O => (counter, (counter + 1)%Z)
  | S fuel' =>
      if contains (LInt counter) used
      then next_unused fuel' (counter + 1)%Z used
      else (counter, (counter + 1)%Z)
  end.

(** The loop over [iteritems(mapping)] that splits a mapping with shared
    labels into [old_to_intermediate] and [intermediate_to_new]. *)
Definition split_mapping (old_labels new_labels : list Label)
  (st : Z * Mapping * Mapping) (item : Label * Label) : Z * Mapping * Mapping :=
  let '(counter, old_to_intermediate, intermediate_to_new) := st in
  let (old, new) := item in
  if label_eqb old new then st
  else if contains old new_labels || contains new old_labels then
    let (lbl, counter) :=
      next_unused (List.length (new_labels ++ old_labels)) counter
                  (new_labels ++ old_labels) in
    (counter, dset old (LInt lbl) old_to_intermediate,
     dset (LInt lbl) new intermediate_to_new)
  else (counter, dset old new old_to_intermediate, intermediate_to_new).

(** While the body of the loop over [linear] runs, [adj[new]] and
    [adj[old]] are one and the same neighbor dict: [adj[new] = adj[old]]
    binds the object a second time, and [del adj[old]] drops the first
    name only when the body ends.  A write to the neighbor dict of [u] is
    therefore seen under both names when [u] is one of them. *)
Definition write_neighbors (old new u : Label) (nd : NeighborDict)
  (a : dict Label NeighborDict) : dict Label NeighborDict :=
  if label_eqb u old || label_eqb u new
  then dset old nd (dset new nd a)
  else dset u nd a.

(** The body of [for u in adj[old]]. *)
Definition move_neighbor (old new : Label) (a : dict Label NeighborDict)
  (u : Label) : result (dict Label NeighborDict) :=
  au <- getitem u a ;;
  b <- getitem old au ;;
  let a := write_neighbors old new u (dset new b au) a in
  au <- getitem u a ;;
  au <- delitem old au ;;
  Ok (write_neighbors old new u au a).

(** The body of [for old in list(linear)].  The neighbors of [old] are
    walked in the order they have when the inner loop starts. *)
Definition rename_variable (mapping : Mapping)
  (st : dict Label Bias * dict Label NeighborDict) (old : Label)
  : result (dict Label Bias * dict Label NeighborDict) :=
  let (lin, a) := st in
  match dget old mapping with
  | None => Ok (lin, a)
  | Some new =>
      h <- getitem old lin ;;
      let lin := dset new h lin in
      nd <- getitem old a ;;
      let a := dset new nd a in
      a <- for_each (move_neighbor old new) (keys nd) a ;;
      lin <- delitem old lin ;;
      a <- delitem old a ;;
      Ok (lin, a)
  end.

(** [quadratic[new_key] = quadratic[old_key]; del quadratic[old_key]] *)
Definition move_key (old_key new_key : PyKey) (quad : dict PyKey Bias)
  : result (dict PyKey Bias) :=
  b <- getitem old_key quad ;;
  delitem old_key (dset new_key b quad).

(** The body of [for old_u, old_v in list(quadratic)]. *)
Definition rename_interaction (mapping : Mapping) (quad : dict PyKey Bias)
  (k : PyKey) : result (dict PyKey Bias) :=
  '(old_u, old_v) <- unpack2 k ;;
  if negb (dmem old_u mapping) && negb (dmem old_v mapping) then Ok quad
  else
    let new_u := relabeled mapping old_u in
    let new_v := relabeled mapping old_v in
    if dmem (edge old_v old_u) quad
    then move_key (edge old_v old_u) (edge new_v new_u) quad
    else if dmem (edge old_u old_v) quad
    then move_key (edge old_u old_v) (edge new_u new_v) quad
    else Err RuntimeError.

(** The in-place update at the end of [relabel_variables]. *)
Definition relabel_in_place (self : BinaryQuadraticModel) (mapping : Mapping)
  : result BinaryQuadraticModel :=
  '(lin, a) <- for_each (rename_variable mapping) (keys (linear self))
                        (linear self, adj self) ;;
  quad <- for_each (rename_interaction mapping) (keys (quadratic self))
                   (quadratic self) ;;
  Ok (mkBQM lin quad (offset self) (vartype self) a).

(** [BinaryQuadraticModel.relabel_variables].  The method calls itself
    when old and new labels are shared; [depth] bounds the nesting of
    these calls, and running out of it is Python's recursion error, a
    [RuntimeError]. *)
Fixpoint relabel_variables_at (depth : nat) (self : BinaryQuadraticModel)
  (mapping : Mapping) (copy : bool) : result BinaryQuadraticModel :=
  let old_labels := keys mapping in
  let new_labels := values mapping in
  if label_collision (linear self) old_labels new_labels then Err ValueError
  else if copy then
    let lin := relabeled_linear mapping (linear self) in
    quad <- relabeled_quadratic mapping (quadratic self) ;;
    BinaryQuadraticModel_init lin quad (offset self) (TokEnum (vartype self))
  else if existsb (fun v => contains v new_labels) old_labels then
    match depth with
    | O => Err RuntimeError
    | S depth' =>
        let counter := (2 * Z.of_nat (List.length (linear self)))%Z in
        let '(_, old_to_intermediate, intermediate_to_new) :=
          fold_left (split_mapping old_labels new_labels) mapping
                    (counter, [], []) in
        self <- relabel_variables_at depth' self old_to_intermediate false ;;
        self <- relabel_variables_at depth' self intermediate_to_new false ;;
        Ok self
    end
  else relabel_in_place self mapping.

Definition recursion_limit : nat := 1000.

Definition relabel_variables (self : BinaryQuadraticModel) (mapping : Mapping)
  (copy : bool) : result BinaryQuadraticModel :=
  relabel_variables_at recursion_limit self mapping copy.

(* ================================================================= *)
(** * Validity of a model

    The invariants of the data model, as a test that can be run. *)

(** Every key of [quadratic] is a pair of distinct variables of [linear]
    whose reverse is no key. *)
Definition valid_key (lin : dict Label Bias) (quad : dict PyKey Bias)
  (k : PyKey) : bool :=
  match k with
  | KTup [u; v] =>
      negb (label_eqb u v) && dmem u lin && dmem v lin
      && negb (dmem (edge v u) quad)
  | _ => false
  end.

Definition valid_inputs (lin : dict Label Bias) (quad : dict PyKey Bias) : bool :=
  distinct (keys lin) && distinct (keys quad)
  && forallb (valid_key lin quad) (keys quad).

(** [adj[u][v]] *)
Definition adj_get (a : dict Label NeighborDict) (u v : Label) : option Bias :=
  match dget u a with
  | Some nd => dget v nd
  | None => None
  end.

Definition has_bias (o : option Bias) (b : Bias) : bool :=
  match o with
  | Some b' => Qeq_bool b' b
  | None => false
  end.

(** The adjacency is exactly the symmetric expansion of [quadratic]: its
    keys are the variables of [linear], every interaction is entered in
    both directions, and every neighbor entry comes from an
    interaction. *)
Definition adjacency_of (lin : dict Label Bias) (quad : dict PyKey Bias)
  (a : dict Label NeighborDict) : bool :=
  distinct (keys a)
  && forallb (fun v => dmem v a) (keys lin)
  && forallb (fun u => dmem u lin) (keys a)
  && forallb (fun und => distinct (keys (snd und))) a
  && forallb (fun kb => match fst kb with
                        | KTup [u; v] =>
                            has_bias (adj_get a u v) (snd kb)
                            && has_bias (adj_get a v u) (snd kb)
                        | _ => false
                        end) quad
  && forallb (fun und =>
                forallb (fun vb =>
                           has_bias (dget (edge (fst und) (fst vb)) quad) (snd vb)
                           || has_bias (dget (edge (fst vb) (fst und)) quad) (snd vb))
                        (snd und)) a.

Definition valid_model (m : BinaryQuadraticModel) : bool :=
  valid_inputs (linear m) (quadratic m)
  && adjacency_of (linear m) (quadratic m) (adj m).

(* ================================================================= *)
(** * Facts about dicts *)

Section DictFacts.
Context {K V : Type} `{Hashable K}.
Implicit Types (k : K) (v : V) (d : dict K V).

Lemma key_eqb_refl k : key_eqb k k = true.
Proof. destruct (key_eqb_spec k k); congruence. Qed.

Lemma key_eqb_neq k k' : k <> k' -> key_eqb k k' = false.
Proof. destruct (key_eqb_spec k k'); congruence. Qed.

Lemma contains_In k (xs : list K) : contains k xs = true <-> In k xs.
Proof.
  unfold contains. rewrite existsb_exists. split.
  - intros (x & Hx & E). destruct (key_eqb_spec k x); congruence.
  - intros Hin. exists k. split; [assumption | apply key_eqb_refl].
Qed.

Lemma contains_false k (xs : list K) : contains k xs = false <-> ~ In k xs.
Proof.
  rewrite <- contains_In. destruct (contains k xs); split; congruence.
Qed.

Lemma distinct_NoDup (xs : list K) : distinct xs = true <-> NoDup xs.
Proof.
  induction xs as [|x xs IH]; simpl.
  - split; [constructor | reflexivity].
  - rewrite andb_true_iff, negb_true_iff, contains_false, IH. split.
    + intros [? ?]. now constructor.
    + intros Hnd. inversion Hnd. now split.
Qed.

Lemma dget_Some_In k v d : dget k d = Some v -> In (k, v) d.
Proof.
  induction d as [|[k' v'] d IH]; simpl; [discriminate|].
  destruct (key_eqb_spec k k') as [->|_].
  - intros [= ->]. now left.
  - intros E. right. auto.
Qed.

Lemma dget_None k d : dget k d = None <-> ~ In k (keys d).
Proof.
  induction d as [|[k' v'] d IH]; simpl.
  - tauto.
  - destruct (key_eqb_spec k k') as [->|Hne].
    + split; [discriminate | intros Hn; exfalso; apply Hn; now left].
    + rewrite IH. split; [intros Hn [E|Hin]; congruence | tauto].
Qed.

Lemma dmem_keys k d : dmem k d = true <-> In k (keys d).
Proof.
  unfold dmem. destruct (dget k d) eqn:E.
  - split; [intros _ | reflexivity].
    apply dget_Some_In in E. apply (in_map fst) in E. exact E.
  - apply dget_None in E. split; [discriminate | tauto].
Qed.

Lemma dmem_false k d : dmem k d = false <-> ~ In k (keys d).
Proof.
  rewrite <- dmem_keys. destruct (dmem k d); split; congruence.
Qed.

Lemma dmem_dget k d : dmem k d = true -> exists v, dget k d = Some v.
Proof. unfold dmem. destruct (dget k d); [eauto | discriminate]. Qed.

Lemma dget_dmem k v d : dget k d = Some v -> dmem k d = true.
Proof. unfold dmem. now intros ->. Qed.

Lemma dget_In k v d : NoDup (keys d) -> In (k, v) d -> dget k d = Some v.
Proof.
  induction d as [|[k' v'] d IH]; simpl; [tauto|].
  intros Hnd [E|Hin]; inversion Hnd as [|? ? Hn Hnd']; subst.
  - injection E as -> ->. now rewrite key_eqb_refl.
  - destruct (key_eqb_spec k k') as [->|_]; [|auto].
    exfalso. apply Hn. apply (in_map fst) in Hin. exact Hin.
Qed.

Lemma dget_dset_same k v d : dget k (dset k v d) = Some v.
Proof.
  induction d as [|[k' v'] d IH]; simpl.
  - now rewrite key_eqb_refl.
  - destruct (key_eqb_spec k k') as [->|Hne]; simpl.
    + now rewrite key_eqb_refl.
    + now rewrite (key_eqb_neq _ _ Hne).
Qed.

Lemma dget_dset_other k k' v d : k <> k' -> dget k' (dset k v d) = dget k' d.
Proof.
  intros Hne. induction d as [|[k0 v0] d IH]; simpl.
  - rewrite key_eqb_neq; congruence.
  - destruct (key_eqb_spec k k0) as [->|Hne0]; simpl.
    + rewrite key_eqb_neq; congruence.
    + now rewrite IH.
Qed.

Lemma dmem_dset_same k v d : dmem k (dset k v d) = true.
Proof. unfold dmem. now rewrite dget_dset_same. Qed.

Lemma dmem_dset_other k k' v d : k <> k' -> dmem k' (dset k v d) = dmem k' d.
Proof. intros Hne. unfold dmem. now rewrite dget_dset_other. Qed.

Lemma keys_dset_present k v d : dmem k d = true -> keys (dset k v d) = keys d.
Proof.
  induction d as [|[k' v'] d IH]; simpl; [discriminate|].
  unfold dmem; simpl. destruct (key_eqb_spec k k') as [->|Hne]; simpl.
  - reflexivity.
  - intros Hm. f_equal. apply IH. exact Hm.
Qed.

Lemma dset_absent k v d : dmem k d = false -> dset k v d = d ++ [(k, v)].
Proof.
  induction d as [|[k' v'] d IH]; simpl; [reflexivity|].
  unfold dmem; simpl. destruct (key_eqb_spec k k') as [->|Hne]; simpl.
  - discriminate.
  - intros Hm. f_equal. apply IH. exact Hm.
Qed.

Lemma keys_app (a b : dict K V) : keys (a ++ b) = keys a ++ keys b.
Proof. apply map_app. Qed.

Lemma NoDup_keys_dset k v d : NoDup (keys d) -> NoDup (keys (dset k v d)).
Proof.
  intros Hnd. destruct (dmem k d) eqn:E.
  - now rewrite keys_dset_present.
  - rewrite (dset_absent _ v _ E), keys_app. simpl.
    apply dmem_false in E.
    apply NoDup_app; [assumption | repeat constructor; simpl; tauto | ].
    intros x Hx [<-|[]]. tauto.
Qed.

Lemma In_keys_dset k k' v d :
  In k' (keys (dset k v d)) <-> k' = k \/ In k' (keys d).
Proof.
  rewrite <- !dmem_keys.
  destruct (key_eqb_spec k k') as [->|Hne].
  - rewrite dmem_dset_same. tauto.
  - rewrite (dmem_dset_other _ _ v d Hne). split; [tauto | intros [E|?]; congruence].
Qed.

(** A list of items with pairwise distinct keys is the dict it builds. *)
Lemma dict_of_items_app (items acc : dict K V) :
  NoDup (keys (acc ++ items)) ->
  fold_left (fun a kv => dset (fst kv) (snd kv) a) items acc = acc ++ items.
Proof.
  revert acc. induction items as [|[k v] items IH]; intros acc Hnd; simpl.
  - now rewrite app_nil_r.
  - rewrite dset_absent.
    + rewrite IH; rewrite <- app_assoc; simpl; [reflexivity | assumption].
    + apply dmem_false. rewrite keys_app in Hnd. simpl in Hnd.
      apply NoDup_remove_2 in Hnd. intros Hin. apply Hnd.
      apply in_or_app. now left.
Qed.

Lemma dict_of_items_distinct (items : dict K V) :
  NoDup (keys items) -> dict_of_items items = items.
Proof. intros Hnd. unfold dict_of_items. now rewrite dict_of_items_app. Qed.

Lemma dget_ddel_other k k' d : k <> k' -> dget k' (ddel k d) = dget k' d.
Proof.
  intros Hne. induction d as [|[k0 v0] d IH]; simpl; [reflexivity|].
  destruct (key_eqb_spec k k0) as [->|Hne0]; simpl.
  - rewrite key_eqb_neq; congruence.
  - now rewrite IH.
Qed.

Lemma dict_eqb_refl (veqb : V -> V -> bool) d :
  NoDup (keys d) ->
  (forall k v, In (k, v) d -> veqb v v = true) ->
  dict_eqb veqb d d = true.
Proof.
  intros Hnd Hv. unfold dict_eqb. rewrite Nat.eqb_refl. simpl.
  apply forallb_forall. intros [k v] Hin. simpl.
  rewrite (dget_In _ _ _ Hnd Hin). eauto.
Qed.
End DictFacts.

Lemma keys_map_value {K A B : Type} (f : K * A -> B) (d : dict K A) :
  keys (map (fun kv => (fst kv, f kv)) d) = keys d.
Proof. unfold keys. rewrite map_map. reflexivity. Qed.

(* ================================================================= *)
(** * What validity gives *)

Lemma valid_key_spec lin quad k :
  valid_key lin quad k = true ->
  exists u v, k = edge u v /\ u <> v /\ In u (keys lin) /\ In v (keys lin)
              /\ ~ In (edge v u) (keys quad).
Proof.
  destruct k as [[|u [|v [|w l]]]|x]; simpl; try discriminate.
  rewrite !andb_true_iff, !negb_true_iff, !dmem_keys, dmem_false.
  intros [[[Hne Hu] Hv] Hrev]. exists u, v. repeat split; try assumption.
  intros ->. destruct (label_eqb_spec v v); congruence.
Qed.

Lemma valid_inputs_spec lin quad :
  valid_inputs lin quad = true ->
  NoDup (keys lin) /\ NoDup (keys quad)
  /\ forall k, In k (keys quad) ->
       exists u v, k = edge u v /\ u <> v /\ In u (keys lin) /\ In v (keys lin)
                   /\ ~ In (edge v u) (keys quad).
Proof.
  unfold valid_inputs. rewrite !andb_true_iff, !distinct_NoDup, forallb_forall.
  intros [[Hl Hq] Hk]. repeat split; try assumption.
  intros k Hin. apply valid_key_spec. auto.
Qed.

Lemma valid_model_inputs m :
  valid_model m = true -> valid_inputs (linear m) (quadratic m) = true.
Proof. unfold valid_model. rewrite andb_true_iff. tauto. Qed.

(* ================================================================= *)
(** * Sums *)

(** The sum of a list of rationals, as the specification writes it. *)
Definition total (xs : list Q) : Q := fold_right Qplus 0 xs.

Lemma fold_left_Qplus xs a : fold_left Qplus xs a == a + total xs.
Proof.
  revert a. induction xs as [|x xs IH]; intros a; simpl.
  - ring.
  - rewrite IH. ring.
Qed.

Lemma py_sum_total xs : py_sum xs == total xs.
Proof. unfold py_sum. rewrite fold_left_Qplus. ring. Qed.


Lemma total_ext {A : Type} (f g : A -> Q) (items : list A) :
  (forall x, In x items -> f x == g x) ->
  total (map f items) == total (map g items).
Proof.
  induction items as [|x items IH]; intros Hfg; simpl; [reflexivity|].
  rewrite (Hfg x (or_introl eq_refl)), IH; [reflexivity|].
  intros y Hy. apply Hfg. now right.
Qed.

Lemma total_plus {A : Type} (f g : A -> Q) (items : list A) :
  total (map (fun x => f x + g x) items)
  == total (map f items) + total (map g items).
Proof.
  induction items as [|x items IH]; simpl; [ring | rewrite IH; ring].
Qed.

Lemma total_scale {A : Type} (c : Q) (f : A -> Q) (items : list A) :
  total (map (fun x => c * f x) items) == c * total (map f items).
Proof.
  induction items as [|x items IH]; simpl; [ring | rewrite IH; ring].
Qed.

Lemma for_each_sum {A B : Type} (term : A -> result Q) (p : B -> A)
  (g : B -> Q) (items : list B) (acc : Q) :
  (forall x, In x items -> term (p x) = Ok (g x)) ->
  for_each (fun acc x => t <- term x ;; Ok (acc + t)) (map p items) acc
  = Ok (fold_left Qplus (map g items) acc).
Proof.
  revert acc. induction items as [|x items IH]; intros acc Hok; simpl.
  - reflexivity.
  - rewrite (Hok x (or_introl eq_refl)). simpl. apply IH.
    intros y Hy. apply Hok. now right.
Qed.

Lemma sum_over_ok {A B : Type} (term : A -> result Q) (p : B -> A)
  (g : B -> Q) (items : list B) :
  (forall x, In x items -> term (p x) = Ok (g x)) ->
  sum_over term (map p items) = Ok (py_sum (map g items)).
Proof. apply for_each_sum. Qed.


(* ================================================================= *)
(** * Energy *)

(** The value a sample gives a variable. *)
Definition value_of (sample : dict Label Q) (v : Label) : Q :=
  match dget v sample with Some x => x | None => 0 end.

Definition linear_term (x : Label -> Q) (vb : Label * Bias) : Q :=
  snd vb * x (fst vb).

Definition quadratic_term (x : Label -> Q) (kb : PyKey * Bias) : Q :=
  match fst kb with
  | KTup [u; v] => snd kb * x u * x v
  | _ => 0
  end.

(** The energy as the specification writes it:
    [offset + sum_v linear[v] x_v + sum_(u,v) quadratic[(u,v)] x_u x_v]. *)
Definition energy_formula (lin : dict Label Bias) (quad : dict PyKey Bias)
  (off : Bias) (x : Label -> Q) : Q :=
  off + total (map (linear_term x) lin) + total (map (quadratic_term x) quad).


Lemma getitem_value_of sample v :
  dmem v sample = true -> getitem v sample = Ok (value_of sample v).
Proof.
  unfold dmem, getitem, value_of. destruct (dget v sample); [reflexivity | discriminate].
Qed.


Lemma getitem_In {K V : Type} `{Hashable K} (d : dict K V) k v :
  NoDup (keys d) -> In (k, v) d -> getitem k d = Ok v.
Proof. intros Hnd Hin. unfold getitem. now rewrite (dget_In _ _ _ Hnd Hin). Qed.

Lemma In_keys {K V : Type} (d : dict K V) k v : In (k, v) d -> In k (keys d).
Proof. intros Hin. apply (in_map fst) in Hin. exact Hin. Qed.

Lemma energy_on_covering_sample lin quad off vt a sample :
  valid_inputs lin quad = true ->
  (forall v, In v (keys lin) -> dmem v sample = true) ->
  exists e, energy (mkBQM lin quad off vt a) sample = Ok e
            /\ e == energy_formula lin quad off (value_of sample).
Proof.
  intros Hval Hcov. apply valid_inputs_spec in Hval as (Hl & Hq & Hk).
  unfold energy, keys; simpl.
  rewrite (sum_over_ok _ fst (linear_term (value_of sample))).
  2:{ intros [v h] Hin; simpl.
      rewrite (getitem_In _ _ _ Hl Hin); simpl.
      rewrite getitem_value_of by (apply Hcov; eapply In_keys; eauto).
      reflexivity. }
  simpl.
  rewrite (sum_over_ok _ fst (quadratic_term (value_of sample))).
  2:{ intros [k j] Hin; simpl.
      destruct (Hk k (In_keys _ _ _ Hin)) as (u & v & -> & _ & Hu & Hv & _).
      simpl. rewrite (getitem_In _ _ _ Hq Hin); simpl.
      rewrite !getitem_value_of by auto. reflexivity. }
  simpl. eexists. split; [reflexivity|].
  unfold energy_formula. rewrite !py_sum_total. reflexivity.
Qed.


(** [sample] gives a value to every variable of [vs]. *)
Definition covers (sample : dict Label Q) (vs : list Label) : bool :=
  forallb (fun v => dmem v sample) vs.

Lemma covers_spec sample vs :
  covers sample vs = true <-> forall v, In v vs -> dmem v sample = true.
Proof. apply forallb_forall. Qed.



(* ================================================================= *)
(** * The loop shared by the two conversions

    [_spin_to_binary] and [_binary_to_spin] walk [quadratic] in the same
    way: the bias of [(u, v)] is scaled ([scale]) and the linear biases
    of [u] and of [v] are updated with it ([upd]), all in float
    arithmetic; where nothing is rounded, the update adds a multiple [c]
    of the bias. *)

(** How often [v] is an end of the interaction, times its bias. *)
Definition incidence (v : Label) (kb : PyKey * Bias) : Q :=
  match fst kb with
  | KTup [a; b] =>
      (if label_eqb v a then snd kb else 0) + (if label_eqb v b then snd kb else 0)
  | _ => 0
  end.

Definition endpoint_sum (x : Label -> Q) (kb : PyKey * Bias) : Q :=
  match fst kb with
  | KTup [a; b] => snd kb * (x a + x b)
  | _ => 0
  end.

Definition weighted (x : Label -> Q) (d : dict Label Bias) : Q :=
  total (map (linear_term x) d).

Lemma weighted_dset x d u a a' :
  NoDup (keys d) -> dget u d = Some a ->
  weighted x (dset u a' d) == weighted x d + (a' - a) * x u.
Proof.
  unfold weighted. induction d as [|[k v] d IH]; simpl; [discriminate|].
  intros Hnd. inversion Hnd as [|? ? Hn Hnd']; subst.
  destruct (label_eqb_spec u k) as [->|Hne]; simpl.
  - intros [= ->]. unfold linear_term; simpl. ring.
  - intros E. rewrite (IH Hnd' E). ring.
Qed.

(* ================================================================= *)
(** * Binary64: [to_float] and the Standard Library's IEEE 754 *)

(** The value of a finite binary64 number of [SpecFloat]. *)
Definition binary64_value (f : spec_float) : option Q :=
  match f with
  | S754_zero _ => Some 0
  | S754_finite s m e =>
      Some (Qred (inject_Z (if s then Z.neg m else Z.pos m) * pow2 e))
  | S754_infinity _ | S754_nan => None
  end.

(** [m 2^e] rounded to binary64 by [SpecFloat]. *)
Definition binary64_of (m e : Z) : spec_float := binary_normalize 53 1024 m e false.

(** Numbers [m 2^e] that are binary64 numbers, that lie between two of
    them, half way between two of them, and below the normal range. *)
Definition rounding_samples : list (Z * Z) :=
  [(0, 5); (1, 0); (3, -1); (2 ^ 53 + 1, 0); (2 ^ 53 + 3, 0); (2 - 2 ^ 61, 0);
   (2 ^ 61 - 2, 0); (2 ^ 70 + 2 ^ 17, 3); (- (2 ^ 70 + 2 ^ 17 + 1), -500);
   (12345678901234567890123, -77); (1, -1075); (3, -1075); (2 ^ 53 - 1, -1074);
   (2 ^ 53 + 1, -1075); (2 ^ 54 + 2, -1076); (2 ^ 54 - 1, -1080)]%Z.

(** On these numbers [to_float] rounds as [SpecFloat] does, and so does
    it on the quotients 1/10 and -1/3, which [SpecFloat] computes by a
    division of binary64 numbers. *)
Lemma to_float_agrees_with_SpecFloat :
  map (fun me => Some (to_float (inject_Z (fst me) * pow2 (snd me)))) rounding_samples
  = map (fun me => binary64_value (binary64_of (fst me) (snd me))) rounding_samples
  /\ Some (to_float (1#10))
     = binary64_value (SFdiv 53 1024 (binary64_of 1 0) (binary64_of 10 0))
  /\ Some (to_float (- (1#3)))
     = binary64_value (SFdiv 53 1024 (binary64_of (-1) 0) (binary64_of 3 0))
  /\ Some (float_sub 2 (inject_Z (2 ^ 61)))
     = binary64_value (SFsub 53 1024 (binary64_of 2 0) (binary64_of 1 61))
  /\ Some (float_mul (1#10) 3)
     = binary64_value (SFmul 53 1024
                         (SFdiv 53 1024 (binary64_of 1 0) (binary64_of 10 0))
                         (binary64_of 3 0))
  /\ Some (float_add (1#10) (2#10))
     = binary64_value (SFadd 53 1024
                         (SFdiv 53 1024 (binary64_of 1 0) (binary64_of 10 0))
                         (SFdiv 53 1024 (binary64_of 2 0) (binary64_of 10 0))).
Proof. repeat apply conj; vm_compute; reflexivity. Qed.

(* ================================================================= *)
(** * Binary64: the numbers that are not rounded *)

#[export] Instance to_float_Proper : Proper (Qeq ==> Qeq) to_float.
Proof. intros x y E. unfold to_float. now rewrite (Qred_complete x y E). Qed.

Lemma floor_log2_below n d :
  (0 < n)%Z -> (0 < d)%Z ->
  (d * 2 ^ Z.max 0 (floor_log2 n d) <= n * 2 ^ Z.max 0 (- floor_log2 n d))%Z.
Proof.
  intros Hn Hd. unfold floor_log2.
  set (e := (Z.log2 n - Z.log2 d)%Z).
  destruct (Z.ltb_spec (n * 2 ^ Z.max 0 (- e)) (d * 2 ^ Z.max 0 e)) as [Hlt|Hge];
    [|exact Hge].
  pose proof (Z.log2_spec n Hn) as [Hn1 Hn2].
  pose proof (Z.log2_spec d Hd) as [Hd1 Hd2].
  pose proof (Z.log2_nonneg n) as Ha. pose proof (Z.log2_nonneg d) as Hb.
  set (a := Z.log2 n) in *. set (b := Z.log2 d) in *.
  destruct (Z.le_gt_cases 1 e) as [He|He].
  - rewrite (Z.max_r 0 (e - 1)), (Z.max_l 0 (- (e - 1))) by lia.
    rewrite Z.pow_0_r, Z.mul_1_r.
    assert (E : (2 ^ a = 2 ^ (e - 1) * 2 ^ Z.succ b)%Z).
    { rewrite <- Z.pow_add_r by lia. f_equal. unfold e. lia. }
    assert (0 < 2 ^ (e - 1))%Z by (apply Z.pow_pos_nonneg; lia).
    nia.
  - rewrite (Z.max_l 0 (e - 1)), (Z.max_r 0 (- (e - 1))) by lia.
    rewrite Z.pow_0_r, Z.mul_1_r.
    assert (E : (2 ^ Z.succ b = 2 ^ a * 2 ^ (- (e - 1)))%Z).
    { rewrite <- Z.pow_add_r by lia. f_equal. unfold e. lia. }
    assert (0 < 2 ^ (- (e - 1)))%Z by (apply Z.pow_pos_nonneg; lia).
    nia.
Qed.

(** [x] is [M] times [2^-j]. *)
Definition scaled (j : Z) (x : Q) (M : Z) : Prop :=
  x * inject_Z (2 ^ j) == inject_Z M.

Lemma scaled_num j x M :
  scaled j x M <-> (Qnum x * 2 ^ j = M * Zpos (Qden x))%Z.
Proof.
  unfold scaled, Qeq, Qmult, inject_Z; simpl. rewrite !Z.mul_1_r, Pos.mul_1_r.
  reflexivity.
Qed.

Lemma round_half_even_multiple K d : (0 < d)%Z -> round_half_even (K * d) d = K.
Proof.
  intros Hd. unfold round_half_even.
  rewrite Z.mod_mul, Z.div_mul by lia.
  change (2 * 0)%Z with 0%Z.
  destruct (Z.compare_spec 0 d); try lia; reflexivity.
Qed.

(** A multiple [M 2^-j] of [2^-j] with [|M| < 2^53] and [j <= 1074] is a
    binary64 number: converting it to a float does not change it. *)
Lemma to_float_exact j M x :
  (0 <= j <= 1074)%Z -> (Z.abs M < 2 ^ 53)%Z -> scaled j x M -> to_float x == x.
Proof.
  intros Hj HM Hx.
  assert (Hr : scaled j (Qred x) M) by (unfold scaled in *; now rewrite Qred_correct).
  clear Hx. rename Hr into Hx. apply scaled_num in Hx.
  rewrite <- (Qred_correct x) at 2. unfold to_float.
  set (n := Qnum (Qred x)) in *. set (d := Zpos (Qden (Qred x))) in *.
  assert (Hd : (0 < d)%Z) by (unfold d; lia).
  assert (Hp : (0 < 2 ^ j)%Z) by (apply Z.pow_pos_nonneg; lia).
  destruct (Z.eqb_spec n 0) as [E0|Hn0].
  - unfold Qeq; simpl. fold n. rewrite E0. reflexivity.
  - set (fl := floor_log2 (Z.abs n) d).
    assert (Hfl : (fl - 52 <= - j)%Z).
    { pose proof (floor_log2_below (Z.abs n) d ltac:(lia) Hd) as Hb. fold fl in Hb.
      assert (Hlt : (Z.abs n * 2 ^ j < 2 ^ 53 * d)%Z).
      { replace (Z.abs n * 2 ^ j)%Z with (Z.abs M * d)%Z by nia.
        apply Z.mul_lt_mono_pos_r; assumption. }
      destruct (Z.le_gt_cases 0 fl) as [Hf|Hf].
      - rewrite (Z.max_r 0 fl), (Z.max_l 0 (- fl)), Z.pow_0_r, Z.mul_1_r in Hb by lia.
        assert (H1 : (d * 2 ^ (fl + j) < 2 ^ 53 * d)%Z).
        { rewrite Z.pow_add_r by lia. nia. }
        assert (H2 : (2 ^ (fl + j) < 2 ^ 53)%Z) by nia.
        apply Z.pow_lt_mono_r_iff in H2; lia.
      - rewrite (Z.max_l 0 fl), (Z.max_r 0 (- fl)), Z.pow_0_r, Z.mul_1_r in Hb by lia.
        assert (0 < 2 ^ (- fl))%Z by (apply Z.pow_pos_nonneg; lia).
        assert (H1 : (d * 2 ^ j < d * 2 ^ (53 - fl))%Z).
        { replace (53 - fl)%Z with (53 + - fl)%Z by lia.
          rewrite Z.pow_add_r by lia. nia. }
        assert (H2 : (2 ^ j < 2 ^ (53 - fl))%Z) by nia.
        apply Z.pow_lt_mono_r_iff in H2; lia. }
    set (e := Z.max (fl - 52) (-1074)).
    assert (He : (e <= - j)%Z) by (unfold e; lia).
    rewrite (Z.max_l 0 e), (Z.max_r 0 (- e)), Z.pow_0_r, Z.mul_1_r by lia.
    assert (EK : (n * 2 ^ (- e) = M * 2 ^ (- e - j) * d)%Z).
    { replace (- e)%Z with (j + (- e - j))%Z at 1 by lia.
      rewrite Z.pow_add_r by lia. nia. }
    rewrite EK, round_half_even_multiple by assumption.
    rewrite Qred_correct. unfold pow2.
    assert (0 < 2 ^ (- e))%Z by (apply Z.pow_pos_nonneg; lia).
    destruct (Z.leb_spec 0 e) as [H0|H0].
    + assert (e = 0%Z) as E0 by lia. rewrite E0 in *. simpl in EK.
      unfold Qeq; simpl. fold n d. rewrite Z.mul_1_r in *. nia.
    + unfold Qeq; simpl. fold n d. rewrite Z2Pos.id by assumption. nia.
Qed.

(** [x] in units of [2^-j], and whether that is a whole number. *)
Definition units (j : Z) (x : Q) : Z := (Qnum x * 2 ^ j / Zpos (Qden x))%Z.

Definition dyadic (j : Z) (x : Q) : bool :=
  ((Qnum x * 2 ^ j) mod Zpos (Qden x) =? 0)%Z.

(** The absolute values of the numbers of [xs], summed, in units of
    [2^-j]. *)
Definition mass (j : Z) (xs : list Q) : Z :=
  fold_right (fun x s => (Z.abs (units j x) + s)%Z) 0%Z xs.

(** Every number of [xs] is a multiple of [2^-j], with [0 <= j <= 1072],
    and their absolute values sum to less than [2^t] such units. *)
Definition small_dyadic (j t : Z) (xs : list Q) : bool :=
  (0 <=? j)%Z && (j <=? 1072)%Z && forallb (dyadic j) xs && (mass j xs <? 2 ^ t)%Z.

Lemma small_dyadic_spec j t xs :
  small_dyadic j t xs = true ->
  (0 <= j <= 1072)%Z /\ (forall x, In x xs -> dyadic j x = true)
  /\ (mass j xs < 2 ^ t)%Z.
Proof.
  unfold small_dyadic. rewrite !andb_true_iff, forallb_forall.
  intros [[[H0 H1] Hd] Hm]. repeat split; try assumption; lia.
Qed.

Lemma scaled_units j x : dyadic j x = true -> scaled j x (units j x).
Proof.
  unfold dyadic, units. intros H. apply Z.eqb_eq in H. apply scaled_num.
  apply Z.div_exact in H; lia.
Qed.

Lemma scaled_intro j x M : scaled j x M -> dyadic j x = true /\ units j x = M.
Proof.
  intros H. apply scaled_num in H. unfold dyadic, units. rewrite H. split.
  - apply Z.eqb_eq. apply Z.mod_mul. lia.
  - apply Z.div_mul. lia.
Qed.

#[export] Instance scaled_Proper j : Proper (Qeq ==> eq ==> iff) (scaled j).
Proof. intros x y E M N <-. unfold scaled. now rewrite E. Qed.

Lemma scaled_plus j x y M N :
  scaled j x M -> scaled j y N -> scaled j (x + y) (M + N).
Proof.
  unfold scaled. intros Hx Hy. rewrite inject_Z_plus, <- Hx, <- Hy. ring.
Qed.

Lemma scaled_minus j x y M N :
  scaled j x M -> scaled j y N -> scaled j (x - y) (M - N).
Proof.
  unfold scaled. intros Hx Hy.
  unfold Z.sub. rewrite inject_Z_plus, inject_Z_opp, <- Hx, <- Hy. ring.
Qed.

Lemma scaled_times j c x M : scaled j x M -> scaled j (inject_Z c * x) (c * M).
Proof.
  unfold scaled. intros Hx. rewrite inject_Z_mult, <- Hx. ring.
Qed.

Lemma scaled_refine j k x M :
  (0 <= j)%Z -> (0 <= k)%Z -> scaled j x M -> scaled (j + k) x (M * 2 ^ k).
Proof.
  unfold scaled. intros Hj Hk Hx.
  rewrite Z.pow_add_r, !inject_Z_mult, <- Hx by assumption. ring.
Qed.

Lemma scaled_half j x M :
  (0 <= j)%Z -> scaled j x M -> scaled (j + 1) ((1#2) * x) M.
Proof.
  unfold scaled. intros Hj Hx.
  rewrite Z.pow_add_r, inject_Z_mult, <- Hx by lia.
  change (inject_Z (2 ^ 1)) with 2. field.
Qed.

Lemma scaled_quarter j x M :
  (0 <= j)%Z -> scaled j x M -> scaled (j + 2) ((1#4) * x) M.
Proof.
  unfold scaled. intros Hj Hx.
  rewrite Z.pow_add_r, inject_Z_mult, <- Hx by lia.
  change (inject_Z (2 ^ 2)) with 4. field.
Qed.

Lemma scaled_zero j : scaled j 0 0.
Proof. unfold scaled. ring. Qed.

Section Exact.
Variable j : Z.
Hypothesis j_range : (0 <= j <= 1074)%Z.

Lemma float_add_exact x y M N :
  scaled j x M -> scaled j y N ->
  (Z.abs M < 2 ^ 53)%Z -> (Z.abs N < 2 ^ 53)%Z -> (Z.abs (M + N) < 2 ^ 53)%Z ->
  float_add x y == x + y.
Proof.
  intros Hx Hy HM HN HS. unfold float_add.
  rewrite (to_float_exact j M x), (to_float_exact j N y) by assumption.
  apply (to_float_exact j (M + N)); auto using scaled_plus.
Qed.

Lemma float_sub_exact x y M N :
  scaled j x M -> scaled j y N ->
  (Z.abs M < 2 ^ 53)%Z -> (Z.abs N < 2 ^ 53)%Z -> (Z.abs (M - N) < 2 ^ 53)%Z ->
  float_sub x y == x - y.
Proof.
  intros Hx Hy HM HN HS. unfold float_sub.
  rewrite (to_float_exact j M x), (to_float_exact j N y) by assumption.
  apply (to_float_exact j (M - N)); auto using scaled_minus.
Qed.

Lemma float_mul_2 x M :
  scaled j x M -> (Z.abs (2 * M) < 2 ^ 53)%Z -> float_mul 2 x == 2 * x.
Proof.
  intros Hx HM. unfold float_mul. change (to_float 2) with 2.
  rewrite (to_float_exact j M x) by (assumption || lia).
  apply (to_float_exact j (2 * M)); try assumption.
  apply (scaled_times j 2 x M Hx).
Qed.

Lemma float_mul_4 x M :
  scaled j x M -> (Z.abs (4 * M) < 2 ^ 53)%Z -> float_mul 4 x == 4 * x.
Proof.
  intros Hx HM. unfold float_mul. change (to_float 4) with 4.
  rewrite (to_float_exact j M x) by (assumption || lia).
  apply (to_float_exact j (4 * M)); try assumption.
  apply (scaled_times j 4 x M Hx).
Qed.

Lemma float_mul_half x M :
  (j + 1 <= 1074)%Z -> scaled j x M -> (Z.abs M < 2 ^ 53)%Z ->
  float_mul (1#2) x == (1#2) * x.
Proof.
  intros Hj Hx HM. unfold float_mul. change (to_float (1#2)) with (1#2).
  rewrite (to_float_exact j M x) by assumption.
  apply (to_float_exact (j + 1) M); try assumption; try lia.
  apply scaled_half; [lia | assumption].
Qed.

Lemma float_mul_quarter x M :
  (j + 2 <= 1074)%Z -> scaled j x M -> (Z.abs M < 2 ^ 53)%Z ->
  float_mul (1#4) x == (1#4) * x.
Proof.
  intros Hj Hx HM. unfold float_mul. change (to_float (1#4)) with (1#4).
  rewrite (to_float_exact j M x) by assumption.
  apply (to_float_exact (j + 2) M); try assumption; try lia.
  apply scaled_quarter; [lia | assumption].
Qed.
End Exact.

Lemma In_values_dset {K V : Type} `{Hashable K} (k : K) (x v : V) (d : dict K V) :
  In v (values (dset k x d)) -> v = x \/ In v (values d).
Proof.
  induction d as [|[k0 v0] d IH]; simpl.
  - intros [E|[]]. now left.
  - destruct (key_eqb k k0); simpl; intuition.
Qed.

Lemma mass_nonneg j xs : (0 <= mass j xs)%Z.
Proof. induction xs as [|x xs IH]; simpl; lia. Qed.

Lemma mass_app j xs ys : mass j (xs ++ ys) = (mass j xs + mass j ys)%Z.
Proof. induction xs as [|x xs IH]; simpl; lia. Qed.

Lemma mass_In j x xs : In x xs -> (Z.abs (units j x) <= mass j xs)%Z.
Proof.
  induction xs as [|y xs IH]; simpl; [tauto|].
  pose proof (mass_nonneg j xs). intros [->|Hin]; [lia|].
  specialize (IH Hin). lia.
Qed.

Lemma mass_dset {K : Type} `{Hashable K} j (k : K) (a a' : Q) (d : dict K Q) :
  NoDup (keys d) -> dget k d = Some a ->
  mass j (values (dset k a' d))
  = (mass j (values d) - Z.abs (units j a) + Z.abs (units j a'))%Z.
Proof.
  induction d as [|[k0 v0] d IH]; simpl; [discriminate|].
  intros Hnd. inversion Hnd as [|? ? Hn Hnd']; subst.
  destruct (key_eqb_spec k k0) as [->|Hne]; simpl.
  - intros [= ->]. lia.
  - intros E. rewrite (IH Hnd' E). lia.
Qed.

Lemma In_values {K V : Type} `{Hashable K} (k : K) (v : V) (d : dict K V) :
  dget k d = Some v -> In v (values d).
Proof.
  intros E. apply dget_Some_In in E. apply (in_map snd) in E. exact E.
Qed.

Lemma values_map_value {K A B : Type} (f : A -> B) (d : dict K A) :
  values (map (fun kv => (fst kv, f (snd kv))) d) = map f (values d).
Proof. unfold values. rewrite !map_map. reflexivity. Qed.

Lemma scaled_total j xs :
  (forall x, In x xs -> dyadic j x = true) ->
  exists M, scaled j (total xs) M /\ (Z.abs M <= mass j xs)%Z.
Proof.
  induction xs as [|x xs IH]; intros Hd; simpl.
  - exists 0%Z. split; [apply scaled_zero | lia].
  - destruct IH as (M & HM & HB); [intros y Hy; apply Hd; now right|].
    exists (units j x + M)%Z. split; [|lia].
    apply scaled_plus; [|assumption]. apply scaled_units, Hd. now left.
Qed.

Lemma mass_mapped j g k (f : Q -> Q) xs :
  (forall x, In x xs -> scaled g (f x) (k * units j x)) ->
  (forall y, In y (map f xs) -> dyadic g y = true)
  /\ mass g (map f xs) = (Z.abs k * mass j xs)%Z.
Proof.
  induction xs as [|x xs IH]; intros Hf; simpl.
  - split; [tauto | lia].
  - destruct IH as (Hd & Hm); [intros y Hy; apply Hf; now right|].
    destruct (scaled_intro _ _ _ (Hf x (or_introl eq_refl))) as (Dx & Ux).
    split.
    + intros y [<-|Hy]; auto.
    + rewrite Hm, Ux, Z.abs_mul. lia.
Qed.

(** [sum] of a list of numbers into a float accumulator. *)
Lemma float_sum_exact j xs : forall lo M,
  (0 <= j <= 1074)%Z -> scaled j lo M ->
  (forall x, In x xs -> dyadic j x = true) ->
  (Z.abs M + mass j xs < 2 ^ 53)%Z ->
  fold_left float_add xs lo == lo + total xs
  /\ exists N, scaled j (fold_left float_add xs lo) N
               /\ (Z.abs N <= Z.abs M + mass j xs)%Z.
Proof.
  induction xs as [|x xs IH]; intros lo M Hj Hlo Hd Hm; simpl in *.
  - split; [ring|]. exists M. split; [assumption | lia].
  - pose proof (mass_nonneg j xs) as Hn.
    pose proof (scaled_units j x (Hd x (or_introl eq_refl))) as Hx.
    assert (E : float_add lo x == lo + x)
      by (apply (float_add_exact j Hj lo x M (units j x)); auto; lia).
    assert (Hs : scaled j (float_add lo x) (M + units j x))
      by (rewrite E; now apply scaled_plus).
    destruct (IH (float_add lo x) (M + units j x)%Z Hj Hs) as (Q1 & N & HN & HB).
    + intros y Hy. apply Hd. now right.
    + lia.
    + split; [rewrite Q1, E; ring|]. exists N. split; [assumption | lia].
Qed.

Section Shift.
Variables (scale : Q -> Q) (upd : Q -> Q -> Q).

Definition shift_step (st : dict Label Bias * dict PyKey Bias)
  (item : PyKey * Bias) : result (dict Label Bias * dict PyKey Bias) :=
  let (nl, nq) := st in
  let (k, bias) := item in
  '(u, v) <- unpack2 k ;;
  let nq := dset (edge u v) (scale bias) nq in
  x <- getitem u nl ;;
  let nl := dset u (upd x bias) nl in
  y <- getitem v nl ;;
  let nl := dset v (upd y bias) nl in
  Ok (nl, nq).

Definition scaled_keys (qs nq : dict PyKey Bias) : dict PyKey Bias :=
  fold_left (fun q kb => dset (fst kb) (scale (snd kb)) q) qs nq.

(** The loop goes through, whatever the numbers are. *)
Lemma shift_step_keys nl nq u w j :
  In u (keys nl) -> In w (keys nl) ->
  exists au aw,
    dget u nl = Some au
    /\ dget w (dset u (upd au j) nl) = Some aw
    /\ shift_step (nl, nq) (edge u w, j)
       = Ok (dset w (upd aw j) (dset u (upd au j) nl), dset (edge u w) (scale j) nq)
    /\ keys (dset w (upd aw j) (dset u (upd au j) nl)) = keys nl.
Proof.
  intros Hu Hw.
  destruct (dmem_dget _ _ (proj2 (dmem_keys u nl) Hu)) as [au Eu].
  set (nl1 := dset u (upd au j) nl).
  assert (Hk1 : keys nl1 = keys nl)
    by (apply keys_dset_present; eapply dget_dmem; eauto).
  assert (Hw1 : dmem w nl1 = true) by (apply dmem_keys; now rewrite Hk1).
  destruct (dmem_dget _ _ Hw1) as [aw Ew].
  exists au, aw. split; [exact Eu|]. split; [exact Ew|]. split.
  - unfold shift_step; simpl. unfold getitem. rewrite Eu; simpl.
    fold nl1. rewrite Ew; simpl. reflexivity.
  - fold nl1. rewrite keys_dset_present by exact Hw1. exact Hk1.
Qed.


(** When every update is exact, the loop adds [c] times the bias of an
    interaction to the linear biases of its two ends.  The numbers are
    multiples of [2^-g]; [wt b] bounds what a bias [b] adds to the
    number it is added to, in units of [2^-g]. *)
Variables (c : Q) (g : Z) (good : Q -> Prop) (wt : Q -> Z).
Hypothesis wt_nonneg : forall b, (0 <= wt b)%Z.
Hypothesis upd_spec : forall x b M,
  scaled g x M -> good b -> (Z.abs M + wt b < 2 ^ 53)%Z ->
  upd x b == x + c * b
  /\ exists N, scaled g (upd x b) N /\ (Z.abs N <= Z.abs M + wt b)%Z.

Definition weight (qs : dict PyKey Bias) : Z :=
  fold_right (fun kb s => (wt (snd kb) + s)%Z) 0%Z qs.

Lemma weight_nonneg qs : (0 <= weight qs)%Z.
Proof.
  induction qs as [|kb qs IH]; simpl; [lia|].
  pose proof (wt_nonneg (snd kb)). lia.
Qed.

Lemma shift_step_ok nl nq u w j :
  NoDup (keys nl) -> In u (keys nl) -> In w (keys nl) -> u <> w ->
  good j ->
  (forall x, In x (values nl) -> dyadic g x = true) ->
  (mass g (values nl) + 2 * wt j < 2 ^ 53)%Z ->
  exists nl',
    shift_step (nl, nq) (edge u w, j) = Ok (nl', dset (edge u w) (scale j) nq)
    /\ keys nl' = keys nl
    /\ (forall v a, dget v nl = Some a ->
          exists a', dget v nl' = Some a'
                     /\ a' == a + c * incidence v (edge u w, j))
    /\ (forall x, weighted x nl'
                  == weighted x nl + c * endpoint_sum x (edge u w, j))
    /\ (forall x, In x (values nl') -> dyadic g x = true)
    /\ (mass g (values nl') <= mass g (values nl) + 2 * wt j)%Z.
Proof.
  intros Hnd Hu Hw Huw Hj Hg Hm. pose proof (wt_nonneg j) as Hwt.
  destruct (shift_step_keys nl nq u w j Hu Hw) as (au & aw & Eu & Ew & Estep & Hk).
  set (nl1 := dset u (upd au j) nl) in *.
  assert (Hk1 : keys nl1 = keys nl)
    by (apply keys_dset_present; eapply dget_dmem; eauto).
  assert (Ew0 : dget w nl = Some aw).
  { unfold nl1 in Ew. now rewrite dget_dset_other in Ew by congruence. }
  pose proof (In_values _ _ _ Eu) as Iu. pose proof (In_values _ _ _ Ew0) as Iw.
  pose proof (mass_In g _ _ Iu) as Bu. pose proof (mass_In g _ _ Iw) as Bw.
  destruct (upd_spec au j (units g au) (scaled_units _ _ (Hg _ Iu)) Hj ltac:(lia))
    as (Qu & Nu & Su & Lu).
  destruct (upd_spec aw j (units g aw) (scaled_units _ _ (Hg _ Iw)) Hj ltac:(lia))
    as (Qw & Nw & Sw & Lw).
  destruct (scaled_intro _ _ _ Su) as (Du & Uu).
  destruct (scaled_intro _ _ _ Sw) as (Dw & Uw).
  exists (dset w (upd aw j) nl1).
  split; [exact Estep|]. split; [exact Hk|]. split; [|split; [|split]].
  - intros v a Ev. unfold incidence; simpl.
    destruct (label_eqb_spec v w) as [->|Hvw].
    + rewrite dget_dset_same. eexists; split; [reflexivity|].
      destruct (label_eqb_spec w u) as [E|_]; [congruence|].
      rewrite Qw. assert (a = aw) as -> by congruence. ring.
    + rewrite dget_dset_other by congruence. unfold nl1.
      destruct (label_eqb_spec v u) as [->|Hvu].
      * rewrite dget_dset_same. eexists; split; [reflexivity|].
        rewrite Qu. assert (a = au) as -> by congruence. ring.
      * rewrite dget_dset_other by congruence.
        exists a. split; [assumption | ring].
  - intros x. rewrite (weighted_dset x nl1 w aw).
    2:{ rewrite Hk1. exact Hnd. }
    2:{ exact Ew. }
    unfold nl1 at 1. rewrite (weighted_dset x nl u au _ Hnd Eu).
    unfold endpoint_sum; simpl. rewrite Qu, Qw. ring.
  - intros x Hx. apply In_values_dset in Hx as [->|Hx]; [exact Dw|].
    unfold nl1 in Hx. apply In_values_dset in Hx as [->|Hx]; [exact Du | auto].
  - rewrite (mass_dset g w aw _ nl1) by (rewrite ?Hk1; assumption).
    unfold nl1 at 1. rewrite (mass_dset g u au _ nl Hnd Eu). lia.
Qed.

Lemma shift_loop_ok qs : forall nl nq,
  NoDup (keys nl) ->
  (forall k, In k (keys qs) ->
     exists u v, k = edge u v /\ u <> v /\ In u (keys nl) /\ In v (keys nl)) ->
  (forall b, In b (values qs) -> good b) ->
  (forall x, In x (values nl) -> dyadic g x = true) ->
  (mass g (values nl) + 2 * weight qs < 2 ^ 53)%Z ->
  exists nl',
    for_each shift_step qs (nl, nq) = Ok (nl', scaled_keys qs nq)
    /\ keys nl' = keys nl
    /\ (forall v a, dget v nl = Some a ->
          exists a', dget v nl' = Some a'
                     /\ a' == a + c * total (map (incidence v) qs))
    /\ (forall x, weighted x nl'
                  == weighted x nl + c * total (map (endpoint_sum x) qs))
    /\ (forall x, In x (values nl') -> dyadic g x = true)
    /\ (mass g (values nl') <= mass g (values nl) + 2 * weight qs)%Z.
Proof.
  induction qs as [|[k j] qs IH]; intros nl nq Hnd Hk Hgood Hg Hm.
  - exists nl. simpl. split; [reflexivity|]. split; [reflexivity|].
    split; [|split; [|split]].
    + intros v a Ev. exists a. split; [assumption | ring].
    + intros x. ring.
    + exact Hg.
    + lia.
  - destruct (Hk k (or_introl eq_refl)) as (u & w & -> & Huw & Hu & Hw).
    pose proof (weight_nonneg qs) as Hwn. cbn [weight fold_right snd] in Hm.
    fold (weight qs) in Hm.
    destruct (shift_step_ok nl nq u w j Hnd Hu Hw Huw)
      as (nl1 & Estep & Hk1 & Hv1 & Hx1 & Hg1 & Hm1);
      [apply Hgood; now left | exact Hg | lia |].
    destruct (IH nl1 (dset (edge u w) (scale j) nq))
      as (nl' & Eloop & Hk' & Hv' & Hx' & Hg' & Hm').
    + rewrite Hk1. exact Hnd.
    + intros k' Hin. rewrite Hk1. apply Hk. now right.
    + intros b Hb. apply Hgood. now right.
    + exact Hg1.
    + lia.
    + exists nl'. cbn [for_each]. rewrite Estep. cbn [bind].
      split; [exact Eloop|]. split; [congruence|]. split; [|split; [|split]].
      * intros v a Ev. destruct (Hv1 v a Ev) as (a1 & E1 & Q1).
        destruct (Hv' v a1 E1) as (a' & E' & Q'). exists a'.
        split; [assumption|]. rewrite Q', Q1. simpl. ring.
      * intros x. rewrite Hx', Hx1. simpl. ring.
      * exact Hg'.
      * cbn [weight fold_right snd]. fold (weight qs). lia.
Qed.
End Shift.

Lemma fold_left_over_map {A B C : Type} (f : A -> C -> A) (g : B -> C)
  (items : list B) (acc : A) :
  fold_left f (map g items) acc = fold_left (fun a x => f a (g x)) items acc.
Proof.
  revert acc. induction items as [|x items IH]; intros acc; simpl; auto.
Qed.

Lemma scaled_keys_distinct (scale : Q -> Q) (qs : dict PyKey Bias) :
  NoDup (keys qs) ->
  scaled_keys scale qs [] = map (fun kb => (fst kb, scale (snd kb))) qs.
Proof.
  intros Hnd. unfold scaled_keys.
  rewrite <- (dict_of_items_distinct (map (fun kb => (fst kb, scale (snd kb))) qs)).
  - unfold dict_of_items. rewrite fold_left_over_map. reflexivity.
  - now rewrite keys_map_value.
Qed.

Lemma bind_Ok {A B : Type} (r : result A) (a : A) (k : A -> result B) :
  r = Ok a -> bind r k = k a.
Proof. now intros ->. Qed.

Lemma total_combine {A : Type} (a b c : Q) (f g h : A -> Q) (items : list A) :
  total (map (fun x => a * f x + b * g x + c * h x) items)
  == a * total (map f items) + b * total (map g items) + c * total (map h items).
Proof.
  induction items as [|x items IH]; simpl; [ring | rewrite IH; ring].
Qed.

Lemma In_mapped_linear (f : Q -> Q) (lin : dict Label Bias) v h :
  NoDup (keys lin) -> In (v, h) lin ->
  dget v (map (fun vb => (fst vb, f (snd vb))) lin) = Some (f h).
Proof.
  intros Hnd Hin. apply dget_In.
  - now rewrite keys_map_value.
  - apply (in_map (fun vb => (fst vb, f (snd vb)))) in Hin. exact Hin.
Qed.

Lemma weighted_mapped (c : Q) (f : Q -> Q) x (lin : dict Label Bias) :
  (forall v h, In (v, h) lin -> f h == c * h) ->
  weighted x (map (fun vb => (fst vb, f (snd vb))) lin) == c * weighted x lin.
Proof.
  intros Hf. unfold weighted. rewrite map_map, <- total_scale.
  apply total_ext. intros [v h] Hin. unfold linear_term; simpl.
  rewrite (Hf v h Hin). ring.
Qed.

Lemma quadratic_mapped (c : Q) (f : Q -> Q) x (quad : dict PyKey Bias) :
  (forall k b, In (k, b) quad -> f b == c * b) ->
  total (map (quadratic_term x) (map (fun kb => (fst kb, f (snd kb))) quad))
  == c * total (map (quadratic_term x) quad).
Proof.
  intros Hf. rewrite map_map, <- total_scale.
  apply total_ext. intros [k j] Hin. unfold quadratic_term; simpl.
  destruct k as [[|u [|v [|w l]]]|l]; try ring.
  rewrite (Hf _ j Hin). ring.
Qed.

Lemma valid_inputs_endpoints lin quad :
  valid_inputs lin quad = true ->
  forall k, In k (keys quad) ->
    exists u v, k = edge u v /\ In u (keys lin) /\ In v (keys lin).
Proof.
  intros Hval k Hk. apply valid_inputs_spec in Hval as (_ & _ & Hq).
  destruct (Hq k Hk) as (u & v & E & _ & Hu & Hv & _). eauto.
Qed.

Lemma valid_inputs_ends lin quad :
  valid_inputs lin quad = true ->
  forall k, In k (keys quad) ->
    exists u v, k = edge u v /\ u <> v /\ In u (keys lin) /\ In v (keys lin).
Proof.
  intros Hval k Hk. apply valid_inputs_spec in Hval as (_ & _ & Hq).
  destruct (Hq k Hk) as (u & v & E & Huv & Hu & Hv & _). eauto 6.
Qed.

Lemma weight_mass (k j : Z) (qs : dict PyKey Bias) :
  weight (fun b => (k * Z.abs (units j b))%Z) qs = (k * mass j (values qs))%Z.
Proof.
  unfold weight, values, mass.
  induction qs as [|[key b] qs IH]; simpl in *; [lia | rewrite IH; lia].
Qed.

(** ** Spin to binary *)


Lemma spin_update_exact j :
  (0 <= j <= 1074)%Z ->
  forall x b M,
    scaled j x M -> dyadic j b = true ->
    (Z.abs M + 2 * Z.abs (units j b) < 2 ^ 53)%Z ->
    float_sub x (float_mul 2 b) == x + - (2) * b
    /\ exists N, scaled j (float_sub x (float_mul 2 b)) N
                 /\ (Z.abs N <= Z.abs M + 2 * Z.abs (units j b))%Z.
Proof.
  intros Hj x b M Hx Hb Hm. apply scaled_units in Hb.
  assert (E1 : float_mul 2 b == 2 * b)
    by (apply (float_mul_2 j Hj b (units j b)); [assumption | lia]).
  assert (S1 : scaled j (float_mul 2 b) (2 * units j b))
    by (rewrite E1; exact (scaled_times j 2 b _ Hb)).
  assert (E2 : float_sub x (float_mul 2 b) == x - float_mul 2 b)
    by (apply (float_sub_exact j Hj x _ M (2 * units j b)); auto; lia).
  split; [rewrite E2, E1; ring|].
  exists (M - 2 * units j b)%Z. split; [|lia].
  rewrite E2. now apply scaled_minus.
Qed.

(** What [_spin_to_binary] returns on valid data whose biases are
    multiples of [2^-j] of small total mass: no operation rounds. *)
Lemma spin_to_binary_ok lin quad off vt a j :
  valid_inputs lin quad = true ->
  (0 <= j <= 1074)%Z ->
  (forall x, In x (values lin ++ values quad) -> dyadic j x = true) ->
  (2 * mass j (values lin) + 4 * mass j (values quad) < 2 ^ 53)%Z ->
  exists nl,
    _spin_to_binary (mkBQM lin quad off vt a)
    = Ok (nl, map (fun kb => (fst kb, float_mul 4 (snd kb))) quad,
          off + py_sum (values quad) - py_sum (values lin))
    /\ keys nl = keys lin
    /\ (forall v h, In (v, h) lin ->
          exists h', dget v nl = Some h'
                     /\ h' == 2 * h + - (2) * total (map (incidence v) quad))
    /\ (forall x, weighted x nl
                  == 2 * weighted x lin
                     + - (2) * total (map (endpoint_sum x) quad))
    /\ (forall k b, In (k, b) quad ->
          float_mul 4 b == 4 * b /\ scaled j (float_mul 4 b) (4 * units j b))
    /\ (forall x, In x (values nl) -> dyadic j x = true)
    /\ (mass j (values nl)
        <= 2 * mass j (values lin) + 4 * mass j (values quad))%Z.
Proof.
  intros Hval Hj Hd Hm. pose proof (valid_inputs_ends _ _ Hval) as Hends.
  apply valid_inputs_spec in Hval as (Hl & Hq & _).
  pose proof (mass_nonneg j (values lin)) as Hnl.
  pose proof (mass_nonneg j (values quad)) as Hnq.
  set (nl0 := map (fun vb => (fst vb, float_mul 2 (snd vb))) lin).
  assert (Hk0 : keys nl0 = keys lin) by apply keys_map_value.
  assert (Hlin : forall h, In h (values lin) ->
            float_mul 2 h == 2 * h /\ scaled j (float_mul 2 h) (2 * units j h)).
  { intros h Hh. pose proof (mass_In j _ _ Hh) as Bh.
    assert (Sh : scaled j h (units j h))
      by (apply scaled_units, Hd, in_or_app; now left).
    assert (E : float_mul 2 h == 2 * h)
      by (apply (float_mul_2 j Hj h (units j h)); [assumption | lia]).
    split; [exact E|]. rewrite E. exact (scaled_times j 2 h _ Sh). }
  destruct (mass_mapped j j 2 (float_mul 2) (values lin)) as (Hd0 & Hm0).
  { intros h Hh. now apply Hlin. }
  rewrite <- values_map_value in Hd0, Hm0. fold nl0 in Hd0, Hm0.
  destruct (shift_loop_ok (float_mul 4) (fun x b => float_sub x (float_mul 2 b))
              (- (2)) j (fun b => dyadic j b = true)
              (fun b => (2 * Z.abs (units j b))%Z)
              ltac:(intros; lia) (spin_update_exact j Hj) quad nl0 [])
    as (nl & Eloop & Hk & Hv & Hx & Hg & Hmn).
  { now rewrite Hk0. }
  { intros k Hin. rewrite Hk0. auto. }
  { intros b Hb. apply Hd, in_or_app. now right. }
  { exact Hd0. }
  { rewrite weight_mass, Hm0. lia. }
  rewrite weight_mass, Hm0 in Hmn.
  exists nl. unfold _spin_to_binary; cbn [linear quadratic offset].
  rewrite dict_of_items_distinct by (fold nl0; now rewrite Hk0).
  fold nl0.
  change spin_to_binary_step
    with (shift_step (float_mul 4) (fun x b => float_sub x (float_mul 2 b))).
  rewrite (bind_Ok _ _ _ Eloop). rewrite scaled_keys_distinct by exact Hq.
  split; [reflexivity|]. split; [congruence|].
  split; [|split; [|split; [|split]]].
  - intros v h Hin.
    destruct (Hv v (float_mul 2 h)) as (h' & E' & Q');
      [now apply In_mapped_linear|].
    exists h'. split; [exact E'|]. rewrite Q'.
    rewrite (proj1 (Hlin h (in_map snd _ _ Hin))). reflexivity.
  - intros x. rewrite Hx. unfold nl0. rewrite (weighted_mapped 2); [reflexivity|].
    intros v h Hin. exact (proj1 (Hlin h (in_map snd _ _ Hin))).
  - intros k b Hin. assert (Hb : In b (values quad)) by exact (in_map snd _ _ Hin).
    pose proof (mass_In j _ _ Hb) as Bb.
    assert (Sb : scaled j b (units j b))
      by (apply scaled_units, Hd, in_or_app; now right).
    assert (E : float_mul 4 b == 4 * b)
      by (apply (float_mul_4 j Hj b (units j b)); [assumption | lia]).
    split; [exact E|]. rewrite E. exact (scaled_times j 4 b _ Sb).
  - exact Hg.
  - lia.
Qed.

(** The energy of the converted triple at [b] is the energy of the spin
    data at [s = 2 b - 1]. *)
Lemma spin_to_binary_energy lin quad off nl nq x :
  valid_inputs lin quad = true ->
  weighted x nl == 2 * weighted x lin + - (2) * total (map (endpoint_sum x) quad) ->
  total (map (quadratic_term x) nq) == 4 * total (map (quadratic_term x) quad) ->
  energy_formula nl nq (off + py_sum (values quad) - py_sum (values lin)) x
  == energy_formula lin quad off (fun v => 2 * x v - 1).
Proof.
  intros Hval Hw Hq. pose proof (valid_inputs_endpoints _ _ Hval) as Hends.
  unfold energy_formula. fold (weighted x nl). rewrite Hw, Hq.
  rewrite !py_sum_total.
  assert (E1 : total (map (linear_term (fun v => 2 * x v - 1)) lin)
               == 2 * weighted x lin + - (1) * total (values lin) + 0 * total (values lin)).
  { unfold weighted, values. rewrite <- total_combine. apply total_ext.
    intros [v h] _. unfold linear_term; simpl. ring. }
  assert (E2 : total (map (quadratic_term (fun v => 2 * x v - 1)) quad)
               == 4 * total (map (quadratic_term x) quad)
                  + - (2) * total (map (endpoint_sum x) quad)
                  + 1 * total (values quad)).
  { unfold values. rewrite <- total_combine. apply total_ext.
    intros [k j] Hin.
    destruct (Hends k (In_keys _ _ _ Hin)) as (u & v & -> & _).
    unfold quadratic_term, endpoint_sum; simpl. ring. }
  rewrite E1, E2. ring.
Qed.

(** ** Binary to spin *)

Lemma binary_to_spin_linear_loop (lin : dict Label Bias) : forall h lo,
  fold_left binary_to_spin_linear lin (h, lo)
  = (fold_left (fun a kv => dset (fst kv) (snd kv) a)
               (map (fun vb => (fst vb, float_mul (1#2) (snd vb))) lin) h,
     fold_left float_add (values lin) lo).
Proof.
  induction lin as [|[v b] lin IH]; intros h lo; simpl; [reflexivity|].
  apply IH.
Qed.

Lemma binary_to_spin_loop (qs : dict PyKey Bias) : forall h J qo,
  for_each binary_to_spin_step qs (h, J, qo)
  = ('(h', J') <- for_each (shift_step (float_mul (1#4))
                              (fun x b => float_add x (float_mul (1#4) b)))
                           qs (h, J) ;;
     Ok (h', J', fold_left float_add (values qs) qo)).
Proof.
  induction qs as [|[k j] qs IH]; intros h J qo; simpl; [reflexivity|].
  destruct (unpack2 k) as [[u v]|e]; simpl; [|reflexivity].
  destruct (getitem u h) as [x|e]; simpl; [|reflexivity].
  destruct (getitem v _) as [y|e]; simpl; [|reflexivity].
  apply IH.
Qed.

(** The offset [_binary_to_spin] computes from the two sums. *)
Definition binary_to_spin_offset (lin : dict Label Bias) (quad : dict PyKey Bias)
  (off : Bias) : Q :=
  float_add (float_add off (float_mul (1#2) (fold_left float_add (values lin) 0)))
            (float_mul (1#4) (fold_left float_add (values quad) 0)).


Lemma binary_update_exact j :
  (0 <= j)%Z -> (j + 2 <= 1074)%Z ->
  forall x b M,
    scaled (j + 2) x M -> dyadic j b = true ->
    (Z.abs M + 1 * Z.abs (units j b) < 2 ^ 53)%Z ->
    float_add x (float_mul (1#4) b) == x + (1#4) * b
    /\ exists N, scaled (j + 2) (float_add x (float_mul (1#4) b)) N
                 /\ (Z.abs N <= Z.abs M + 1 * Z.abs (units j b))%Z.
Proof.
  intros Hj Hj2 x b M Hx Hb Hm. apply scaled_units in Hb.
  assert (E1 : float_mul (1#4) b == (1#4) * b)
    by (apply (float_mul_quarter j ltac:(lia) b (units j b)); (assumption || lia)).
  assert (S1 : scaled (j + 2) (float_mul (1#4) b) (units j b))
    by (rewrite E1; now apply scaled_quarter).
  assert (E2 : float_add x (float_mul (1#4) b) == x + float_mul (1#4) b)
    by (apply (float_add_exact (j + 2) ltac:(lia) x _ M (units j b)); auto; lia).
  split; [rewrite E2, E1; ring|].
  exists (M + units j b)%Z. split; [|lia].
  rewrite E2. now apply scaled_plus.
Qed.

(** The offset of [_binary_to_spin] when no operation rounds. *)
Lemma binary_to_spin_offset_exact lin quad off j :
  (0 <= j)%Z -> (j + 2 <= 1074)%Z ->
  (forall x, In x (off :: values lin ++ values quad) -> dyadic j x = true) ->
  (4 * mass j (off :: values lin ++ values quad) < 2 ^ 53)%Z ->
  binary_to_spin_offset lin quad off
  == off + (1#2) * total (values lin) + (1#4) * total (values quad)
  /\ exists N, scaled (j + 2) (binary_to_spin_offset lin quad off) N
               /\ (Z.abs N <= 4 * Z.abs (units j off) + 2 * mass j (values lin)
                              + mass j (values quad))%Z.
Proof.
  intros Hj Hj2 Hd Hm. cbn [mass fold_right] in Hm.
  fold (mass j (values lin ++ values quad)) in Hm. rewrite mass_app in Hm.
  pose proof (mass_nonneg j (values lin)) as Hnl.
  pose proof (mass_nonneg j (values quad)) as Hnq.
  assert (Ho : scaled j off (units j off)) by (apply scaled_units, Hd; now left).
  destruct (float_sum_exact j (values lin) 0 0 ltac:(lia) (scaled_zero j))
    as (El & Nl & Sl & Bl).
  { intros x Hx. apply Hd. right. apply in_or_app. now left. }
  { simpl. lia. }
  destruct (float_sum_exact j (values quad) 0 0 ltac:(lia) (scaled_zero j))
    as (Eq & Nq & Sq & Bq).
  { intros x Hx. apply Hd. right. apply in_or_app. now right. }
  { simpl. lia. }
  simpl in Bl, Bq.
  set (lo := fold_left float_add (values lin) 0) in *.
  set (qo := fold_left float_add (values quad) 0) in *.
  assert (E1 : float_mul (1#2) lo == (1#2) * lo)
    by (apply (float_mul_half j ltac:(lia) lo Nl); (assumption || lia)).
  assert (S1 : scaled (j + 2) (float_mul (1#2) lo) (2 * Nl)).
  { rewrite E1. replace (j + 2)%Z with ((j + 1) + 1)%Z by lia.
    replace (2 * Nl)%Z with (Nl * 2 ^ 1)%Z by lia.
    apply scaled_refine; try lia. apply scaled_half; [lia | assumption]. }
  assert (E2 : float_mul (1#4) qo == (1#4) * qo)
    by (apply (float_mul_quarter j ltac:(lia) qo Nq); (assumption || lia)).
  assert (S2 : scaled (j + 2) (float_mul (1#4) qo) Nq)
    by (rewrite E2; now apply scaled_quarter).
  assert (So : scaled (j + 2) off (4 * units j off)).
  { replace (4 * units j off)%Z with (units j off * 2 ^ 2)%Z by lia.
    apply scaled_refine; (assumption || lia). }
  assert (E3 : float_add off (float_mul (1#2) lo) == off + float_mul (1#2) lo)
    by (apply (float_add_exact (j + 2) ltac:(lia) off _ (4 * units j off) (2 * Nl));
        auto; lia).
  assert (S3 : scaled (j + 2) (float_add off (float_mul (1#2) lo))
                 (4 * units j off + 2 * Nl))
    by (rewrite E3; now apply scaled_plus).
  assert (E4 : float_add (float_add off (float_mul (1#2) lo)) (float_mul (1#4) qo)
               == float_add off (float_mul (1#2) lo) + float_mul (1#4) qo)
    by (apply (float_add_exact (j + 2) ltac:(lia) _ _ (4 * units j off + 2 * Nl) Nq);
        auto; lia).
  unfold binary_to_spin_offset. fold lo qo. split.
  - rewrite E4, E3, E2, E1, El, Eq. ring.
  - exists (4 * units j off + 2 * Nl + Nq)%Z. split; [|lia].
    rewrite E4. now apply scaled_plus.
Qed.

(** What [_binary_to_spin] returns on valid data whose numbers are
    multiples of [2^-j] of small total mass: no operation rounds. *)
Lemma binary_to_spin_ok lin quad off vt a j :
  valid_inputs lin quad = true ->
  (0 <= j)%Z -> (j + 2 <= 1074)%Z ->
  (forall x, In x (off :: values lin ++ values quad) -> dyadic j x = true) ->
  (4 * mass j (off :: values lin ++ values quad) < 2 ^ 53)%Z ->
  exists h,
    _binary_to_spin (mkBQM lin quad off vt a)
    = Ok (h, map (fun kb => (fst kb, float_mul (1#4) (snd kb))) quad,
          binary_to_spin_offset lin quad off)
    /\ keys h = keys lin
    /\ (forall v b, In (v, b) lin ->
          exists b', dget v h = Some b'
                     /\ b' == (1#2) * b + (1#4) * total (map (incidence v) quad))
    /\ (forall x, weighted x h
                  == (1#2) * weighted x lin
                     + (1#4) * total (map (endpoint_sum x) quad))
    /\ (forall k b, In (k, b) quad ->
          float_mul (1#4) b == (1#4) * b
          /\ scaled (j + 2) (float_mul (1#4) b) (1 * units j b))
    /\ (forall x, In x (values h) -> dyadic (j + 2) x = true)
    /\ (mass (j + 2) (values h)
        <= 2 * mass j (values lin) + 2 * mass j (values quad))%Z.
Proof.
  intros Hval Hj Hj2 Hd Hm. pose proof (valid_inputs_ends _ _ Hval) as Hends.
  apply valid_inputs_spec in Hval as (Hl & Hq & _).
  cbn [mass fold_right] in Hm.
  fold (mass j (values lin ++ values quad)) in Hm. rewrite mass_app in Hm.
  pose proof (mass_nonneg j (values lin)) as Hnl.
  pose proof (mass_nonneg j (values quad)) as Hnq.
  set (h0 := map (fun vb => (fst vb, float_mul (1#2) (snd vb))) lin).
  assert (Hk0 : keys h0 = keys lin) by apply keys_map_value.
  assert (Hlin : forall b, In b (values lin) ->
            float_mul (1#2) b == (1#2) * b
            /\ scaled (j + 2) (float_mul (1#2) b) (2 * units j b)).
  { intros b Hb. pose proof (mass_In j _ _ Hb) as Bb.
    assert (Sb : scaled j b (units j b)).
    { apply scaled_units, Hd. right. apply in_or_app. now left. }
    assert (E : float_mul (1#2) b == (1#2) * b)
      by (apply (float_mul_half j ltac:(lia) b (units j b)); (assumption || lia)).
    split; [exact E|]. rewrite E. replace (j + 2)%Z with ((j + 1) + 1)%Z by lia.
    replace (2 * units j b)%Z with (units j b * 2 ^ 1)%Z by lia.
    apply scaled_refine; try lia. apply scaled_half; [lia | assumption]. }
  destruct (mass_mapped j (j + 2) 2 (float_mul (1#2)) (values lin)) as (Hd0 & Hm0).
  { intros b Hb. now apply Hlin. }
  rewrite <- values_map_value in Hd0, Hm0. fold h0 in Hd0, Hm0.
  destruct (shift_loop_ok (float_mul (1#4)) (fun x b => float_add x (float_mul (1#4) b))
              (1#4) (j + 2) (fun b => dyadic j b = true)
              (fun b => (1 * Z.abs (units j b))%Z)
              ltac:(intros; lia) (binary_update_exact j Hj Hj2) quad h0 [])
    as (h & Eloop & Hk & Hv & Hx & Hg & Hmn).
  { now rewrite Hk0. }
  { intros k Hin. rewrite Hk0. auto. }
  { intros b Hb. apply Hd. right. apply in_or_app. now right. }
  { exact Hd0. }
  { rewrite weight_mass, Hm0. lia. }
  rewrite weight_mass, Hm0 in Hmn.
  exists h. unfold _binary_to_spin; cbn [linear quadratic offset].
  rewrite binary_to_spin_linear_loop.
  change (fold_left (fun a0 kv => dset (fst kv) (snd kv) a0)
            (map (fun vb => (fst vb, float_mul (1#2) (snd vb))) lin) [])
    with (dict_of_items h0).
  rewrite dict_of_items_distinct by now rewrite Hk0.
  rewrite binary_to_spin_loop, (bind_Ok _ _ _ Eloop).
  rewrite scaled_keys_distinct by exact Hq.
  split; [reflexivity|]. split; [congruence|].
  split; [|split; [|split; [|split]]].
  - intros v b Hin.
    destruct (Hv v (float_mul (1#2) b)) as (b' & E' & Q');
      [now apply In_mapped_linear|].
    exists b'. split; [exact E'|]. rewrite Q'.
    rewrite (proj1 (Hlin b (in_map snd _ _ Hin))). reflexivity.
  - intros x. rewrite Hx. unfold h0. rewrite (weighted_mapped (1#2)); [reflexivity|].
    intros v b Hin. exact (proj1 (Hlin b (in_map snd _ _ Hin))).
  - intros k b Hin. assert (Hb : In b (values quad)) by exact (in_map snd _ _ Hin).
    pose proof (mass_In j _ _ Hb) as Bb.
    assert (Sb : scaled j b (units j b)).
    { apply scaled_units, Hd. right. apply in_or_app. now right. }
    assert (E : float_mul (1#4) b == (1#4) * b)
      by (apply (float_mul_quarter j ltac:(lia) b (units j b)); (assumption || lia)).
    split; [exact E|]. rewrite E, Z.mul_1_l. now apply scaled_quarter.
  - exact Hg.
  - lia.
Qed.

(** The energy of the converted triple at [s] is the energy of the
    binary data at [b = (s + 1) / 2]. *)
Lemma binary_to_spin_energy lin quad off h J off' x :
  valid_inputs lin quad = true ->
  weighted x h == (1#2) * weighted x lin + (1#4) * total (map (endpoint_sum x) quad) ->
  total (map (quadratic_term x) J) == (1#4) * total (map (quadratic_term x) quad) ->
  off' == off + (1#2) * total (values lin) + (1#4) * total (values quad) ->
  energy_formula h J off' x
  == energy_formula lin quad off (fun v => (x v + 1) * (1#2)).
Proof.
  intros Hval Hw Hq Ho. pose proof (valid_inputs_endpoints _ _ Hval) as Hends.
  unfold energy_formula. fold (weighted x h). rewrite Hw, Hq, Ho.
  assert (E1 : total (map (linear_term (fun v => (x v + 1) * (1#2))) lin)
               == (1#2) * weighted x lin + (1#2) * total (values lin)
                  + 0 * total (values lin)).
  { unfold weighted, values. rewrite <- total_combine. apply total_ext.
    intros [v b] _. unfold linear_term; simpl. ring. }
  assert (E2 : total (map (quadratic_term (fun v => (x v + 1) * (1#2))) quad)
               == (1#4) * total (map (quadratic_term x) quad)
                  + (1#4) * total (map (endpoint_sum x) quad)
                  + (1#4) * total (values quad)).
  { unfold values. rewrite <- total_combine. apply total_ext.
    intros [k j] Hin.
    destruct (Hends k (In_keys _ _ _ Hin)) as (u & v & -> & _).
    unfold quadratic_term, endpoint_sum; simpl. ring. }
  rewrite E1, E2. ring.
Qed.

(* ================================================================= *)
(** * The constructor builds the symmetric expansion *)

Lemma dget_dset {K V : Type} `{Hashable K} (k k' : K) (v : V) (d : dict K V) :
  dget k' (dset k v d) = if key_eqb k' k then Some v else dget k' d.
Proof.
  destruct (key_eqb_spec k' k) as [->|Hne].
  - apply dget_dset_same.
  - apply dget_dset_other. congruence.
Qed.

Lemma adj_get_dset a u nd x y :
  adj_get (dset u nd a) x y = if label_eqb x u then dget y nd else adj_get a x y.
Proof.
  unfold adj_get. rewrite dget_dset. simpl.
  destruct (label_eqb x u); reflexivity.
Qed.

(** The state of the adjacency once the interactions [done] are
    entered. *)
Definition adj_inv (lin : dict Label Bias) (done : dict PyKey Bias)
  (a : dict Label NeighborDict) : Prop :=
  keys a = keys lin
  /\ (forall u nd, dget u a = Some nd -> NoDup (keys nd))
  /\ (forall u v b, adj_get a u v = Some b
                    <-> In (edge u v, b) done \/ In (edge v u, b) done).

Lemma empty_adj_distinct lin :
  NoDup (keys lin) ->
  empty_adj lin = map (fun kv => (fst kv, @nil (Label * Q))) lin.
Proof.
  intros Hnd. unfold empty_adj. apply dict_of_items_distinct.
  now rewrite keys_map_value.
Qed.

Lemma adj_inv_empty lin : NoDup (keys lin) -> adj_inv lin [] (empty_adj lin).
Proof.
  intros Hnd. rewrite (empty_adj_distinct _ Hnd).
  assert (Hnil : forall u nd,
             dget u (map (fun kv : Label * Q => (fst kv, @nil (Label * Q))) lin)
             = Some nd -> nd = []).
  { intros u nd E. apply dget_Some_In, in_map_iff in E as (x & [= _ <-] & _).
    reflexivity. }
  split; [apply keys_map_value|]. split.
  - intros u nd E. rewrite (Hnil _ _ E). constructor.
  - intros u v b. unfold adj_get. split; [|simpl; tauto].
    destruct (dget u _) as [nd|] eqn:E; [|discriminate].
    rewrite (Hnil _ _ E). discriminate.
Qed.

Lemma add_interaction_ok lin done a u w j :
  adj_inv lin done a ->
  u <> w -> In u (keys lin) -> In w (keys lin) ->
  ~ In (edge u w) (keys done) -> ~ In (edge w u) (keys done) ->
  exists a', add_interaction a (edge u w, j) = Ok a'
             /\ adj_inv lin (done ++ [(edge u w, j)]) a'.
Proof.
  intros (Hk & Hnd & Hadj) Huw Hu Hw Hnew Hrev.
  rewrite <- Hk in Hu, Hw.
  destruct (dmem_dget _ _ (proj2 (dmem_keys u a) Hu)) as [au Eu].
  destruct (dmem_dget _ _ (proj2 (dmem_keys w a) Hw)) as [aw Ew].
  assert (Hfree : forall x y, (x = u /\ y = w) \/ (x = w /\ y = u) ->
                              adj_get a x y = None).
  { intros x y Hxy. destruct (adj_get a x y) as [b|] eqn:E; [|reflexivity].
    apply Hadj in E. exfalso.
    destruct Hxy as [[-> ->]|[-> ->]], E as [E|E];
      apply In_keys in E; tauto. }
  assert (Hwau : dmem w au = false).
  { pose proof (Hfree u w (or_introl (conj eq_refl eq_refl))) as E.
    unfold adj_get in E. rewrite Eu in E. unfold dmem. now rewrite E. }
  assert (Huaw : dmem u aw = false).
  { pose proof (Hfree w u (or_intror (conj eq_refl eq_refl))) as E.
    unfold adj_get in E. rewrite Ew in E. unfold dmem. now rewrite E. }
  set (a1 := dset u (dset w j au) a).
  assert (Ew1 : dget w a1 = Some aw).
  { unfold a1. rewrite dget_dset_other by exact Huw. exact Ew. }
  exists (dset w (dset u j aw) a1). split.
  { unfold add_interaction; simpl.
    destruct (label_eqb_spec u w); [contradiction|].
    unfold getitem. rewrite Eu; simpl. rewrite Hwau. fold a1.
    rewrite Ew1; simpl. rewrite Huaw. reflexivity. }
  split; [|split].
  - rewrite keys_dset_present by (eapply dget_dmem; eauto).
    unfold a1. rewrite keys_dset_present by (eapply dget_dmem; eauto).
    exact Hk.
  - intros x nd. unfold a1. rewrite !dget_dset. simpl.
    destruct (label_eqb_spec x w) as [->|_].
    { intros [= <-]. apply NoDup_keys_dset. eauto. }
    destruct (label_eqb_spec x u) as [->|_].
    { intros [= <-]. apply NoDup_keys_dset. eauto. }
    apply Hnd.
  - assert (Hn1 : forall b, ~ In (KTup [u; w], b) done)
      by (intros b H1; apply In_keys in H1; tauto).
    assert (Hn2 : forall b, ~ In (KTup [w; u], b) done)
      by (intros b H1; apply In_keys in H1; tauto).
    intros x y b. specialize (Hn1 b). specialize (Hn2 b).
    unfold a1. rewrite !adj_get_dset, !in_app_iff.
    unfold edge in *. simpl.
    destruct (label_eqb_spec x w) as [->|Hxw];
      [|destruct (label_eqb_spec x u) as [->|Hxu]].
    + rewrite dget_dset. simpl. destruct (label_eqb_spec y u) as [->|Hyu].
      * split; [intros [= <-]; tauto | intuition congruence].
      * replace (dget y aw) with (adj_get a w y)
          by (unfold adj_get; now rewrite Ew).
        rewrite Hadj. unfold edge. intuition congruence.
    + rewrite dget_dset. simpl. destruct (label_eqb_spec y w) as [->|Hyw].
      * split; [intros [= <-]; tauto | intuition congruence].
      * replace (dget y au) with (adj_get a u y)
          by (unfold adj_get; now rewrite Eu).
        rewrite Hadj. unfold edge. intuition congruence.
    + rewrite Hadj. unfold edge. intuition congruence.
Qed.

Lemma build_adjacency_ok lin todo : forall done a,
  adj_inv lin done a ->
  NoDup (keys (done ++ todo)) ->
  (forall k, In k (keys todo) ->
     exists u v, k = edge u v /\ u <> v /\ In u (keys lin) /\ In v (keys lin)
                 /\ ~ In (edge v u) (keys (done ++ todo))) ->
  exists a', for_each add_interaction todo a = Ok a'
             /\ adj_inv lin (done ++ todo) a'.
Proof.
  induction todo as [|[k j] todo IH]; intros done a Hinv Hnd Hk.
  - exists a. rewrite app_nil_r. split; [reflexivity | assumption].
  - destruct (Hk k (or_introl eq_refl)) as (u & w & -> & Huw & Hu & Hw & Hrev).
    destruct (add_interaction_ok lin done a u w j Hinv Huw Hu Hw)
      as (a1 & E1 & Hinv1).
    + rewrite keys_app in Hnd. simpl in Hnd.
      apply NoDup_remove_2 in Hnd. intros Hin. apply Hnd.
      apply in_or_app. now left.
    + intros Hin. apply Hrev. rewrite keys_app. apply in_or_app. now left.
    + replace (done ++ (edge u w, j) :: todo)
        with ((done ++ [(edge u w, j)]) ++ todo) in *
        by (rewrite <- app_assoc; reflexivity).
      destruct (IH _ a1 Hinv1 Hnd) as (a' & E' & Hinv').
      * intros k Hin. apply Hk. now right.
      * exists a'. split; [|assumption].
        cbn [for_each]. rewrite E1. exact E'.
Qed.

Lemma all_in_linear_ok lin ks :
  (forall k, In k ks -> exists u v, k = edge u v /\ In u (keys lin) /\ In v (keys lin)) ->
  all_in_linear lin ks = Ok true.
Proof.
  induction ks as [|k ks IH]; intros Hk; simpl; [reflexivity|].
  destruct (Hk k (or_introl eq_refl)) as (u & v & -> & Hu & Hv). simpl.
  rewrite (proj2 (dmem_keys u lin) Hu), (proj2 (dmem_keys v lin) Hv). simpl.
  apply IH. intros k Hin. apply Hk. now right.
Qed.

(** The constructor accepts valid data, keeps it as it is, and builds
    its adjacency. *)
Lemma init_ok lin quad off token vt :
  normalize_vartype token = Ok vt ->
  valid_inputs lin quad = true ->
  exists a, BinaryQuadraticModel_init lin quad off token = Ok (mkBQM lin quad off vt a)
            /\ adj_inv lin quad a.
Proof.
  intros Hvt Hval. pose proof (valid_inputs_endpoints _ _ Hval) as Hends.
  apply valid_inputs_spec in Hval as (Hl & Hq & Hk).
  destruct (build_adjacency_ok lin quad [] (empty_adj lin) (adj_inv_empty _ Hl) Hq Hk)
    as (a & Ea & Hinv).
  exists a. split; [|exact Hinv].
  unfold BinaryQuadraticModel_init, check_quadratic_keys.
  rewrite Hvt, (all_in_linear_ok _ _ Hends); simpl.
  now rewrite (bind_Ok _ _ _ Ea).
Qed.

(* ================================================================= *)
(** * Spin to binary, term by term *)





Definition numbers (m : BinaryQuadraticModel) : list Q :=
  offset m :: values (linear m) ++ values (quadratic m).



(* ================================================================= *)
(** * Round trips between the vartypes *)

Lemma dmem_contains {K V : Type} `{Hashable K} (k : K) (d : dict K V) :
  dmem k d = contains k (keys d).
Proof.
  destruct (contains k (keys d)) eqn:E.
  - apply dmem_keys. now apply contains_In.
  - apply dmem_false. now apply contains_false.
Qed.

Lemma forallb_pointwise {A : Type} (f g : A -> bool) (xs : list A) :
  (forall x, f x = g x) -> forallb f xs = forallb g xs.
Proof.
  intros Hfg. induction xs as [|x xs IH]; simpl; [reflexivity|].
  now rewrite Hfg, IH.
Qed.

Lemma valid_inputs_keys lin quad lin' quad' :
  keys lin' = keys lin -> keys quad' = keys quad ->
  valid_inputs lin' quad' = valid_inputs lin quad.
Proof.
  intros Hl Hq. unfold valid_inputs. rewrite Hl, Hq. f_equal.
  apply forallb_pointwise. intros k. unfold valid_key.
  destruct k as [[|u [|v [|w l]]]|x]; try reflexivity.
  rewrite !dmem_contains, Hl, Hq. reflexivity.
Qed.

Lemma energy_formula_ext lin quad off x y :
  valid_inputs lin quad = true ->
  (forall v, In v (keys lin) -> x v == y v) ->
  energy_formula lin quad off x == energy_formula lin quad off y.
Proof.
  intros Hval Hxy. pose proof (valid_inputs_endpoints _ _ Hval) as Hends.
  unfold energy_formula.
  rewrite (total_ext (linear_term x) (linear_term y)),
          (total_ext (quadratic_term x) (quadratic_term y)); [reflexivity| |].
  - intros [k j] Hin.
    destruct (Hends k (In_keys _ _ _ Hin)) as (u & v & -> & Hu & Hv).
    unfold quadratic_term; simpl. now rewrite (Hxy u Hu), (Hxy v Hv).
  - intros [v h] Hin. unfold linear_term; simpl.
    now rewrite (Hxy v (In_keys _ _ _ Hin)).
Qed.

(** The spin sample of a binary sample: [s = 2 b - 1]. *)
Definition to_spin (b : dict Label Q) : dict Label Q :=
  map (fun vx => (fst vx, 2 * snd vx - 1)) b.

Lemma dget_to_spin b v :
  dget v (to_spin b) = option_map (fun x => 2 * x - 1) (dget v b).
Proof.
  induction b as [|[k x] b IH]; simpl; [reflexivity|].
  destruct (label_eqb v k); [reflexivity | exact IH].
Qed.

Lemma covers_to_spin b vs : covers (to_spin b) vs = covers b vs.
Proof.
  unfold covers. apply forallb_pointwise. intros v. unfold dmem.
  rewrite dget_to_spin. now destruct (dget v b).
Qed.

Lemma value_of_to_spin b v :
  dmem v b = true -> value_of (to_spin b) v == 2 * value_of b v - 1.
Proof.
  unfold dmem, value_of. rewrite dget_to_spin.
  destruct (dget v b); simpl; [reflexivity | discriminate].
Qed.

(** Every variable of [vs] has the value 0 or 1 in the sample. *)
Definition binary_valued (b : dict Label Q) (vs : list Label) : bool :=
  forallb (fun v => match dget v b with
                    | Some x => Qeq_bool x 0 || Qeq_bool x 1
                    | None => false
                    end) vs.

Lemma binary_valued_spec b vs :
  binary_valued b vs = true ->
  covers b vs = true
  /\ forall v, In v vs -> value_of b v * value_of b v == value_of b v.
Proof.
  unfold binary_valued, covers. rewrite !forallb_forall. intros Hb. split.
  - intros v Hv. specialize (Hb v Hv). unfold dmem.
    destruct (dget v b); [reflexivity | discriminate].
  - intros v Hv. specialize (Hb v Hv). unfold value_of.
    destruct (dget v b) as [x|]; [|discriminate].
    apply orb_true_iff in Hb as [E|E]; apply Qeq_bool_iff in E; rewrite E; ring.
Qed.

(** What a conversion does to the data when nothing is rounded, with
    the five factors of its closed form. *)
Definition converted (cl ci cq col coq : Q)
  (lin : dict Label Bias) (quad : dict PyKey Bias) (off : Bias)
  (lin' : dict Label Bias) (quad' : dict PyKey Bias) (off' : Bias) : Prop :=
  keys lin' = keys lin
  /\ (forall v h, In (v, h) lin ->
        exists h', dget v lin' = Some h'
                   /\ h' == cl * h + ci * total (map (incidence v) quad))
  /\ (exists f, quad' = map (fun kb => (fst kb, f (snd kb))) quad
                /\ forall k b, In (k, b) quad -> f b == cq * b)
  /\ off' == off + col * total (values lin) + coq * total (values quad)
  /\ (forall x, weighted x lin'
                == cl * weighted x lin + ci * total (map (endpoint_sum x) quad)).

(** The numbers of the data are multiples of [2^-j] and their absolute
    values sum to at most [T] such units. *)
Definition in_range (j T : Z) (lin : dict Label Bias) (quad : dict PyKey Bias)
  (off : Bias) : Prop :=
  (forall x, In x (off :: values lin ++ values quad) -> dyadic j x = true)
  /\ (mass j (off :: values lin ++ values quad) <= T)%Z.

Lemma in_range_intro j T (lin : dict Label Bias) (quad : dict PyKey Bias) off N :
  scaled j off N ->
  (forall x, In x (values lin) -> dyadic j x = true) ->
  (forall x, In x (values quad) -> dyadic j x = true) ->
  (Z.abs N + mass j (values lin) + mass j (values quad) <= T)%Z ->
  in_range j T lin quad off.
Proof.
  intros Ho Hl Hq Hm. destruct (scaled_intro _ _ _ Ho) as (Do & Uo). split.
  - intros x [<-|Hx]; [exact Do|]. apply in_app_or in Hx as [Hx|Hx]; auto.
  - cbn [mass fold_right]. fold (mass j (values lin ++ values quad)).
    rewrite mass_app, Uo. lia.
Qed.

Lemma spin_to_binary_converted lin quad off vt a j T :
  valid_inputs lin quad = true ->
  (0 <= j <= 1074)%Z -> in_range j T lin quad off -> (4 * T < 2 ^ 53)%Z ->
  exists nl nq off',
    _spin_to_binary (mkBQM lin quad off vt a) = Ok (nl, nq, off')
    /\ converted 2 (- (2)) 4 (- (1)) 1 lin quad off nl nq off'
    /\ in_range j (9 * T) nl nq off'.
Proof.
  intros Hval Hj (Hd & HT) Hm. cbn [mass fold_right] in HT.
  fold (mass j (values lin ++ values quad)) in HT. rewrite mass_app in HT.
  pose proof (mass_nonneg j (values lin)) as Hnl.
  pose proof (mass_nonneg j (values quad)) as Hnq.
  destruct (spin_to_binary_ok lin quad off vt a j Hval Hj)
    as (nl & E & Hk & Hv & Hx & Hb & Hg & Hmn);
    [intros x Hx; apply Hd; now right | lia |].
  destruct (scaled_total j (values lin)) as (Ml & Sl & Bl);
    [intros y Hy; apply Hd; right; apply in_or_app; now left|].
  destruct (scaled_total j (values quad)) as (Mq & Sq & Bq);
    [intros y Hy; apply Hd; right; apply in_or_app; now right|].
  destruct (mass_mapped j j 4 (float_mul 4) (values quad)) as (Dq & Eq).
  { intros b Hin. apply in_map_iff in Hin as ([k b'] & <- & Hin).
    exact (proj2 (Hb _ _ Hin)). }
  rewrite <- values_map_value in Dq, Eq.
  eexists. eexists. eexists. split; [exact E|]. split.
  - split; [exact Hk|]. split; [exact Hv|]. split.
    + exists (float_mul 4). split; [reflexivity|].
      intros k b Hin. exact (proj1 (Hb _ _ Hin)).
    + split; [rewrite !py_sum_total; ring | exact Hx].
  - apply (in_range_intro j _ _ _ _ (units j off + Mq - Ml)); try assumption.
    + rewrite !py_sum_total. apply scaled_minus; [|assumption].
      apply scaled_plus; [|assumption]. apply scaled_units, Hd. now left.
    + rewrite Eq. lia.
Qed.

Lemma binary_to_spin_converted lin quad off vt a j T :
  valid_inputs lin quad = true ->
  (0 <= j)%Z -> (j + 2 <= 1074)%Z ->
  in_range j T lin quad off -> (4 * T < 2 ^ 53)%Z ->
  exists h J off',
    _binary_to_spin (mkBQM lin quad off vt a) = Ok (h, J, off')
    /\ converted (1#2) (1#4) (1#4) (1#2) (1#4) lin quad off h J off'
    /\ in_range (j + 2) (4 * T) h J off'.
Proof.
  intros Hval Hj Hj2 (Hd & HT) Hm.
  destruct (binary_to_spin_ok lin quad off vt a j Hval Hj Hj2 Hd)
    as (h & E & Hk & Hv & Hx & Hb & Hg & Hmn); [lia|].
  destruct (binary_to_spin_offset_exact lin quad off j Hj Hj2 Hd)
    as (Eo & N & So & Bo); [lia|].
  cbn [mass fold_right] in HT.
  fold (mass j (values lin ++ values quad)) in HT. rewrite mass_app in HT.
  pose proof (mass_nonneg j (values lin)) as Hnl.
  pose proof (mass_nonneg j (values quad)) as Hnq.
  destruct (mass_mapped j (j + 2) 1 (float_mul (1#4)) (values quad)) as (Dq & Eq).
  { intros b Hin. apply in_map_iff in Hin as ([k b'] & <- & Hin).
    exact (proj2 (Hb _ _ Hin)). }
  rewrite <- values_map_value in Dq, Eq.
  eexists. eexists. eexists. split; [exact E|]. split.
  - split; [exact Hk|]. split; [exact Hv|]. split.
    + exists (float_mul (1#4)). split; [reflexivity|].
      intros k b Hin. exact (proj1 (Hb _ _ Hin)).
    + split; [exact Eo | exact Hx].
  - apply (in_range_intro (j + 2) _ _ _ _ N); try assumption.
    rewrite Eq. lia.
Qed.

(** A triple that a conversion returns has the energy of the data it
    was computed from, under the change of variables of the conversion. *)
Lemma converted_quadratic cl ci cq col coq lin quad off lin' quad' off' x :
  converted cl ci cq col coq lin quad off lin' quad' off' ->
  total (map (quadratic_term x) quad') == cq * total (map (quadratic_term x) quad).
Proof.
  intros (_ & _ & (f & -> & Hf) & _). now apply quadratic_mapped.
Qed.

Lemma change_to_binary lin quad off a token j T :
  valid_inputs lin quad = true ->
  normalize_vartype token = Ok BINARY ->
  (0 <= j <= 1074)%Z -> in_range j T lin quad off -> (4 * T < 2 ^ 53)%Z ->
  exists nl nq off' a',
    change_vartype (mkBQM lin quad off SPIN a) token = Ok (mkBQM nl nq off' BINARY a')
    /\ valid_inputs nl nq = true
    /\ adj_inv nl nq a'
    /\ converted 2 (- (2)) 4 (- (1)) 1 lin quad off nl nq off'
    /\ in_range j (9 * T) nl nq off'
    /\ forall x, energy_formula nl nq off' x
                 == energy_formula lin quad off (fun v => 2 * x v - 1).
Proof.
  intros Hval Htok Hj Hr Hm.
  destruct (spin_to_binary_converted lin quad off SPIN a j T Hval Hj Hr Hm)
    as (nl & nq & off' & E & C & R).
  pose proof C as (Hk & _ & (f & Eq & _) & Ho & Hw).
  assert (Hval' : valid_inputs nl nq = true).
  { rewrite (valid_inputs_keys lin quad); [exact Hval | exact Hk |].
    rewrite Eq. apply keys_map_value. }
  destruct (init_ok nl nq off' (TokEnum BINARY) BINARY eq_refl Hval') as (a' & Ei & Hinv).
  exists nl, nq, off', a'. unfold change_vartype. rewrite Htok; simpl.
  rewrite E; simpl. split; [exact Ei|]. split; [exact Hval'|].
  split; [exact Hinv|]. split; [exact C|]. split; [exact R|].
  intros x. unfold energy_formula at 1. rewrite Ho.
  rewrite <- (spin_to_binary_energy lin quad off nl nq x Hval (Hw x)
                (converted_quadratic _ _ _ _ _ _ _ _ _ _ _ x C)).
  unfold energy_formula. rewrite !py_sum_total. ring.
Qed.

Lemma change_to_spin lin quad off a token j T :
  valid_inputs lin quad = true ->
  normalize_vartype token = Ok SPIN ->
  (0 <= j)%Z -> (j + 2 <= 1074)%Z ->
  in_range j T lin quad off -> (4 * T < 2 ^ 53)%Z ->
  exists h J off' a',
    change_vartype (mkBQM lin quad off BINARY a) token = Ok (mkBQM h J off' SPIN a')
    /\ valid_inputs h J = true
    /\ adj_inv h J a'
    /\ converted (1#2) (1#4) (1#4) (1#2) (1#4) lin quad off h J off'
    /\ in_range (j + 2) (4 * T) h J off'
    /\ forall x, energy_formula h J off' x
                 == energy_formula lin quad off (fun v => (x v + 1) * (1#2)).
Proof.
  intros Hval Htok Hj Hj2 Hr Hm.
  destruct (binary_to_spin_converted lin quad off BINARY a j T Hval Hj Hj2 Hr Hm)
    as (h & J & off' & E & C & R).
  pose proof C as (Hk & _ & (f & Eq & _) & Ho & Hw).
  assert (Hval' : valid_inputs h J = true).
  { rewrite (valid_inputs_keys lin quad); [exact Hval | exact Hk |].
    rewrite Eq. apply keys_map_value. }
  destruct (init_ok h J off' (TokEnum SPIN) SPIN eq_refl Hval') as (a' & Ei & Hinv).
  exists h, J, off', a'. unfold change_vartype. rewrite Htok; simpl.
  rewrite E; simpl. split; [exact Ei|]. split; [exact Hval'|].
  split; [exact Hinv|]. split; [exact C|]. split; [exact R|].
  intros x.
  exact (binary_to_spin_energy lin quad off h J off' x Hval (Hw x)
           (converted_quadratic _ _ _ _ _ _ _ _ _ _ _ x C) Ho).
Qed.

Lemma covers_keys sample (d d' : dict Label Q) :
  keys d' = keys d -> covers sample (keys d) = true ->
  forall v, In v (keys d') -> dmem v sample = true.
Proof. intros -> Hc. now apply covers_spec. Qed.

Lemma small_dyadic_in_range j t (m : BinaryQuadraticModel) :
  small_dyadic j t (numbers m) = true ->
  (0 <= j <= 1072)%Z
  /\ in_range j (2 ^ t - 1) (linear m) (quadratic m) (offset m).
Proof.
  intros Hs. apply small_dyadic_spec in Hs as (Hj & Hd & Hm).
  split; [exact Hj|]. split; [exact Hd|]. unfold numbers in Hm. lia.
Qed.

(** C1, amended.  Take a valid model [m] whose biases and offset are
    multiples of [2^-j] with absolute values that sum to less than [2^47]
    such units, an assignment [b] of 0 and 1 to its variables and the
    translated assignment [s = 2 b - 1].  A SPIN model converts to
    BINARY and back to SPIN, a BINARY model to SPIN and back to BINARY;
    the model in between has, on the translated assignment, the energy
    [m] has on its own, and so has the model that comes back on the
    assignment of [m].  No float operation of the two conversions
    rounds on such a model, and the sums of [energy] over the converted
    biases are sums of multiples of [2^-(j+2)] that stay below [2^53]
    such units, which binary64 adds as they are. *)
Theorem change_vartype_round_trip (m : BinaryQuadraticModel)
  (b : dict Label Q) (binary spin : VartypeToken) (j : Z) :
  valid_model m = true ->
  small_dyadic j 47 (numbers m) = true ->
  binary_valued b (keys (linear m)) = true ->
  normalize_vartype binary = Ok BINARY ->
  normalize_vartype spin = Ok SPIN ->
  let s := to_spin b in
  exists m1 m2 e e1 e2,
    match vartype m with
    | SPIN =>
        change_vartype m binary = Ok m1 /\ change_vartype m1 spin = Ok m2
        /\ energy m s = Ok e /\ energy m1 b = Ok e1 /\ energy m2 s = Ok e2
    | BINARY =>
        change_vartype m spin = Ok m1 /\ change_vartype m1 binary = Ok m2
        /\ energy m b = Ok e /\ energy m1 s = Ok e1 /\ energy m2 b = Ok e2
    end
    /\ e1 == e /\ e2 == e.
Proof.
  intros Hval Hsmall Hbin HB HS s. apply valid_model_inputs in Hval.
  apply binary_valued_spec in Hbin as (Hcov & _).
  apply small_dyadic_in_range in Hsmall as (Hj & Hr).
  assert (H47 : (2 ^ 53 = 64 * 2 ^ 47)%Z) by reflexivity.
  assert (P47 : (0 < 2 ^ 47)%Z) by reflexivity.
  destruct m as [lin quad off vt a]; cbn [linear quadratic vartype offset] in *.
  assert (Hcovs : covers s (keys lin) = true)
    by (unfold s; now rewrite covers_to_spin).
  assert (Hs : forall v, In v (keys lin) -> value_of s v == 2 * value_of b v - 1).
  { intros v Hv. apply value_of_to_spin. revert v Hv. now apply covers_spec. }
  assert (Hb : forall v, In v (keys lin) -> (value_of s v + 1) * (1#2) == value_of b v).
  { intros v Hv. rewrite (Hs v Hv). field. }
  destruct vt.
  - destruct (change_to_binary lin quad off a binary j _ Hval HB ltac:(lia) Hr ltac:(lia))
      as (nl & nq & off1 & a1 & E1 & Hval1 & _ & (Hk1 & _) & Hr1 & F1).
    destruct (change_to_spin nl nq off1 a1 spin j _ Hval1 HS ltac:(lia) ltac:(lia) Hr1
                ltac:(lia))
      as (h & J & off2 & a2 & E2 & Hval2 & _ & (Hk2 & _) & _ & F2).
    destruct (energy_on_covering_sample lin quad off SPIN a s Hval)
      as (e & Ee & Qe); [now apply covers_spec|].
    destruct (energy_on_covering_sample nl nq off1 BINARY a1 b Hval1)
      as (e1 & Ee1 & Qe1); [now apply (covers_keys b lin)|].
    destruct (energy_on_covering_sample h J off2 SPIN a2 s Hval2)
      as (e2 & Ee2 & Qe2); [apply (covers_keys s lin); congruence|].
    exists (mkBQM nl nq off1 BINARY a1), (mkBQM h J off2 SPIN a2), e, e1, e2.
    assert (Q1 : e1 == e).
    { rewrite Qe1, Qe, F1. apply energy_formula_ext; [assumption|].
      intros v Hv. now rewrite (Hs v Hv). }
    repeat split; try assumption.
    rewrite <- Q1, Qe2, Qe1, F2. apply energy_formula_ext; [assumption|].
    intros v Hv. apply Hb. now rewrite <- Hk1.
  - destruct (change_to_spin lin quad off a spin j _ Hval HS ltac:(lia) ltac:(lia) Hr
                ltac:(lia))
      as (h & J & off1 & a1 & E1 & Hval1 & _ & (Hk1 & _) & Hr1 & F1).
    destruct (change_to_binary h J off1 a1 binary (j + 2) _ Hval1 HB ltac:(lia) Hr1
                ltac:(lia))
      as (nl & nq & off2 & a2 & E2 & Hval2 & _ & (Hk2 & _) & _ & F2).
    destruct (energy_on_covering_sample lin quad off BINARY a b Hval)
      as (e & Ee & Qe); [now apply covers_spec|].
    destruct (energy_on_covering_sample h J off1 SPIN a1 s Hval1)
      as (e1 & Ee1 & Qe1); [now apply (covers_keys s lin)|].
    destruct (energy_on_covering_sample nl nq off2 BINARY a2 b Hval2)
      as (e2 & Ee2 & Qe2); [apply (covers_keys b lin); congruence|].
    exists (mkBQM h J off1 SPIN a1), (mkBQM nl nq off2 BINARY a2), e, e1, e2.
    assert (Q1 : e1 == e).
    { rewrite Qe1, Qe, F1. apply energy_formula_ext; [assumption|].
      intros v Hv. now apply Hb. }
    repeat split; try assumption.
    rewrite <- Q1, Qe2, Qe1, F2. apply energy_formula_ext; [assumption|].
    intros v Hv. symmetry. apply Hs. now rewrite <- Hk1.
Qed.

(* ================================================================= *)
(** * QUBO export of a binary model *)

Lemma NoDup_map_on {A B : Type} (f : A -> B) (xs : list A) :
  (forall x y, In x xs -> In y xs -> f x = f y -> x = y) ->
  NoDup xs -> NoDup (map f xs).
Proof.
  induction xs as [|x xs IH]; intros Hinj Hnd; simpl; [constructor|].
  inversion Hnd as [|? ? Hn Hnd']; subst. constructor.
  - intros Hin. apply in_map_iff in Hin as (y & E & Hy).
    apply Hn. rewrite <- (Hinj y x); auto; [now right | now left].
  - apply IH; [|assumption]. intros y z Hy Hz. apply Hinj; now right.
Qed.

(** The diagonal entries [(v, v) -> linear[v]]. *)
Definition diagonal (lin : dict Label Bias) : dict PyKey Bias :=
  map (fun vb => (edge (fst vb) (fst vb), snd vb)) lin.

Lemma keys_diagonal lin : keys (diagonal lin) = map (fun v => edge v v) (keys lin).
Proof. unfold diagonal, keys. now rewrite !map_map. Qed.

Lemma NoDup_diagonal lin : NoDup (keys lin) -> NoDup (keys (diagonal lin)).
Proof.
  intros Hnd. rewrite keys_diagonal. apply NoDup_map_on; [|assumption].
  intros x y _ _ [= ->]. reflexivity.
Qed.

Lemma put_diagonal_distinct lin :
  NoDup (keys lin) -> put_diagonal lin [] = diagonal lin.
Proof.
  intros Hnd. unfold put_diagonal.
  rewrite <- (dict_of_items_distinct (diagonal lin)) by now apply NoDup_diagonal.
  unfold dict_of_items, diagonal. now rewrite fold_left_over_map.
Qed.

(** The model of the example in the specification:
    [linear = {0: 0, 1: 0}], [quadratic = {(0, 1): 1}], [offset = 0.0],
    BINARY. *)
Definition qubo_example : BinaryQuadraticModel :=
  mkBQM [(LInt 0, 0); (LInt 1, 0)] [(edge (LInt 0) (LInt 1), 1)] 0 BINARY
        [(LInt 0, [(LInt 1, 1)]); (LInt 1, [(LInt 0, 1)])].

(** C8.  On a valid BINARY model [as_qubo] returns the offset as it is
    and one mapping whose entries are exactly the diagonal entries
    [(v, v) -> linear[v]] and the entries of [quadratic], each key once;
    on the model of the example this is
    [{(0, 0): 0, (1, 1): 0, (0, 1): 1}] with offset [0]. *)
Theorem as_qubo_binary :
  (forall m : BinaryQuadraticModel,
      valid_model m = true -> vartype m = BINARY ->
      exists qubo,
        as_qubo m = Ok (qubo, offset m)
        /\ NoDup (keys qubo)
        /\ forall k bias,
             In (k, bias) qubo
             <-> (exists v, k = edge v v /\ In (v, bias) (linear m))
                 \/ In (k, bias) (quadratic m))
  /\ BinaryQuadraticModel_init (linear qubo_example) (quadratic qubo_example)
       (offset qubo_example) (TokEnum BINARY) = Ok qubo_example
  /\ as_qubo qubo_example
     = Ok ([(edge (LInt 0) (LInt 0), 0); (edge (LInt 1) (LInt 1), 0);
            (edge (LInt 0) (LInt 1), 1)], 0).
Proof.
  split; [|split; reflexivity].
  intros m Hval Hvt. apply valid_model_inputs, valid_inputs_spec in Hval
    as (Hl & Hq & Hk).
  destruct m as [lin quad off vt a]; simpl in *. subst vt.
  assert (Hnd : NoDup (keys (diagonal lin ++ quad))).
  { rewrite keys_app. apply NoDup_app; [now apply NoDup_diagonal | assumption |].
    intros k Hd Hin. rewrite keys_diagonal in Hd.
    apply in_map_iff in Hd as (v & <- & _).
    destruct (Hk _ Hin) as (u & w & [= -> ->] & Huw & _). now apply Huw. }
  exists (diagonal lin ++ quad). unfold as_qubo; simpl.
  rewrite put_diagonal_distinct by assumption.
  rewrite dict_of_items_app by assumption.
  split; [reflexivity|]. split; [assumption|].
  intros k bias. rewrite in_app_iff. unfold diagonal. rewrite in_map_iff.
  split; (intros [Hd|Hin]; [left | now right]).
  - destruct Hd as ([v h] & [= <- <-] & Hin). eauto.
  - destruct Hd as (v & -> & Hin). exists (v, bias). auto.
Qed.

(* ================================================================= *)
(** * Reversing the interactions *)

(** [(v, u)] for a key that unpacks to [(u, v)]. *)
Definition reverse_key (k : PyKey) : PyKey :=
  match unpack2 k with
  | Ok (u, v) => edge v u
  | Err _ => k
  end.

(** [{(v, u): bias for (u, v), bias in quadratic.items()}] *)
Definition reversed_quadratic (quad : dict PyKey Bias) : dict PyKey Bias :=
  dict_of_items (map (fun kb => (reverse_key (fst kb), snd kb)) quad).

Lemma dset_swap {K V : Type} `{Hashable K} (k k' : K) (v v' : V) (d : dict K V) :
  k <> k' -> dmem k d = true -> dmem k' d = true ->
  dset k v (dset k' v' d) = dset k' v' (dset k v d).
Proof.
  intros Hne. induction d as [|[k0 v0] d IH]; [discriminate|].
  unfold dmem; simpl.
  destruct (key_eqb_spec k k0) as [->|Hk]; destruct (key_eqb_spec k' k0) as [->|Hk'];
    simpl; try congruence.
  - intros _ _. rewrite key_eqb_refl, (key_eqb_neq k' k0) by congruence.
    reflexivity.
  - intros _ _. rewrite key_eqb_refl, (key_eqb_neq k k0) by congruence.
    reflexivity.
  - intros Hm Hm'. rewrite (key_eqb_neq k k0), (key_eqb_neq k' k0) by congruence.
    f_equal. apply IH; assumption.
Qed.

Lemma add_interaction_keys a item a' :
  add_interaction a item = Ok a' -> keys a' = keys a.
Proof.
  destruct item as [k j]. unfold add_interaction.
  destruct (unpack2 k) as [[u v]|e]; simpl; [|discriminate].
  destruct (label_eqb u v); [discriminate|].
  unfold getitem. destruct (dget u a) as [au|] eqn:Eu; simpl; [|discriminate].
  destruct (dmem v au); [discriminate|].
  destruct (dget v (dset u (dset v j au) a)) as [av|] eqn:Ev; simpl; [|discriminate].
  destruct (dmem u av); [discriminate|]. intros [= <-].
  rewrite keys_dset_present by (eapply dget_dmem; eauto).
  apply keys_dset_present. eapply dget_dmem; eauto.
Qed.

Lemma add_interaction_reversed a u w j :
  In u (keys a) -> In w (keys a) ->
  add_interaction a (edge w u, j) = add_interaction a (edge u w, j).
Proof.
  intros Hu Hw. unfold add_interaction; simpl.
  destruct (label_eqb_spec u w) as [->|Huw].
  { destruct (label_eqb_spec w w); [reflexivity | congruence]. }
  destruct (label_eqb_spec w u) as [->|_]; [congruence|].
  destruct (dmem_dget _ _ (proj2 (dmem_keys u a) Hu)) as [au Eu].
  destruct (dmem_dget _ _ (proj2 (dmem_keys w a) Hw)) as [aw Ew].
  unfold getitem. rewrite Eu, Ew; simpl.
  rewrite !dget_dset_other by congruence. rewrite Eu, Ew; simpl.
  destruct (dmem u aw), (dmem w au); try reflexivity.
  f_equal. apply dset_swap; [assumption | |]; eapply dget_dmem; eauto.
Qed.

Lemma build_adjacency_reversed (qs : dict PyKey Bias) : forall a,
  (forall k, In k (keys qs) ->
     exists u v, k = edge u v /\ In u (keys a) /\ In v (keys a)) ->
  for_each add_interaction (map (fun kb => (reverse_key (fst kb), snd kb)) qs) a
  = for_each add_interaction qs a.
Proof.
  induction qs as [|[k j] qs IH]; intros a Hk; [reflexivity|].
  destruct (Hk k (or_introl eq_refl)) as (u & w & -> & Hu & Hw).
  cbn [map for_each fst snd]. change (reverse_key (edge u w)) with (edge w u).
  rewrite (add_interaction_reversed a u w j Hu Hw).
  destruct (add_interaction a (edge u w, j)) as [a1|e] eqn:E; simpl; [|reflexivity].
  apply IH. intros k Hin. rewrite (add_interaction_keys _ _ _ E).
  apply Hk. now right.
Qed.

Lemma keys_empty_adj lin : NoDup (keys lin) -> keys (empty_adj lin) = keys lin.
Proof. intros Hnd. rewrite empty_adj_distinct by assumption. apply keys_map_value. Qed.

Lemma Qeq_bool_refl (q : Q) : Qeq_bool q q = true.
Proof. apply Qeq_bool_iff. reflexivity. Qed.

Lemma neighbors_eqb_refl (a : dict Label NeighborDict) :
  NoDup (keys a) ->
  (forall u nd, dget u a = Some nd -> NoDup (keys nd)) ->
  dict_eqb (dict_eqb Qeq_bool) a a = true.
Proof.
  intros Hnd Hin. apply dict_eqb_refl; [assumption|].
  intros u nd Hu. apply dict_eqb_refl.
  - apply (Hin u). now apply dget_In.
  - intros. apply Qeq_bool_refl.
Qed.

Lemma linear_eqb_refl (lin : dict Label Bias) :
  NoDup (keys lin) -> dict_eqb Qeq_bool lin lin = true.
Proof.
  intros Hnd. apply dict_eqb_refl; [assumption|]. intros. apply Qeq_bool_refl.
Qed.

Lemma vartype_eqb_refl vt : vartype_eqb vt vt = true.
Proof. now destruct vt. Qed.

(** C9.  Valid data and the same data with every interaction reversed
    construct models with the same adjacency, and the two models are
    equal under [==]. *)
Theorem reversal_invariance (lin : dict Label Bias) (quad : dict PyKey Bias)
  (off : Bias) (token : VartypeToken) (vt : Vartype) :
  valid_inputs lin quad = true ->
  normalize_vartype token = Ok vt ->
  exists m m',
    BinaryQuadraticModel_init lin quad off token = Ok m
    /\ BinaryQuadraticModel_init lin (reversed_quadratic quad) off token = Ok m'
    /\ quadratic m' = map (fun kb => (reverse_key (fst kb), snd kb)) quad
    /\ adj m' = adj m
    /\ __eq__ m m' = true /\ __eq__ m' m = true.
Proof.
  intros Hval Htok.
  destruct (init_ok lin quad off token vt Htok Hval) as (a & Einit & Hk & Hnd & _).
  pose proof (valid_inputs_endpoints _ _ Hval) as Hends.
  apply valid_inputs_spec in Hval as (Hl & Hq & Hshape).
  set (rq := map (fun kb => (reverse_key (fst kb), snd kb)) quad).
  assert (Hrk : keys rq = map reverse_key (keys quad))
    by (unfold rq, keys; now rewrite !map_map).
  assert (Hrq : reversed_quadratic quad = rq).
  { apply dict_of_items_distinct. rewrite Hrk.
    apply NoDup_map_on; [|assumption]. intros x y Hx Hy.
    destruct (Hshape x Hx) as (u & v & -> & _), (Hshape y Hy) as (u' & v' & -> & _).
    intros [= -> ->]. reflexivity. }
  exists (mkBQM lin quad off vt a), (mkBQM lin rq off vt a).
  split; [exact Einit|]. split; [|split; [reflexivity|split; [reflexivity|]]].
  - rewrite Hrq. revert Einit.
    unfold BinaryQuadraticModel_init, check_quadratic_keys. rewrite Htok; simpl.
    rewrite (all_in_linear_ok _ _ Hends); simpl.
    rewrite all_in_linear_ok; simpl.
    + unfold rq. rewrite build_adjacency_reversed.
      * destruct (for_each add_interaction quad (empty_adj lin)); simpl; congruence.
      * intros k Hin. rewrite keys_empty_adj by assumption. auto.
    + intros k Hin. rewrite Hrk in Hin. apply in_map_iff in Hin as (k0 & <- & Hin).
      destruct (Hends k0 Hin) as (u & v & -> & Hu & Hv). exists v, u. auto.
  - assert (E : __eq__ (mkBQM lin quad off vt a) (mkBQM lin rq off vt a) = true).
    { unfold __eq__; simpl. rewrite vartype_eqb_refl, linear_eqb_refl by assumption.
      rewrite neighbors_eqb_refl, Qeq_bool_refl; [reflexivity | congruence | assumption]. }
    split; exact E.
Qed.

(* ================================================================= *)
(** * Equality of adjacencies *)

Lemma dict_eqb_intro {K V : Type} `{Hashable K} (veqb : V -> V -> bool)
  (a b : dict K V) :
  List.length a = List.length b ->
  (forall k v, In (k, v) a -> exists v', dget k b = Some v' /\ veqb v v' = true) ->
  dict_eqb veqb a b = true.
Proof.
  intros Hlen Hall. unfold dict_eqb. rewrite Hlen, Nat.eqb_refl. simpl.
  apply forallb_forall. intros [k v] Hin. simpl.
  destruct (Hall k v Hin) as (v' & -> & E). exact E.
Qed.

Lemma same_keys_length {K A B : Type} (a : dict K A) (b : dict K B) :
  NoDup (keys a) -> NoDup (keys b) ->
  (forall k, In k (keys a) <-> In k (keys b)) ->
  List.length a = List.length b.
Proof.
  intros Ha Hb Hab.
  rewrite <- (length_map fst a), <- (length_map fst b).
  apply Nat.le_antisymm; apply NoDup_incl_length; try assumption;
    intros k Hk; now apply Hab.
Qed.

Lemma has_bias_spec o b :
  has_bias o b = true <-> exists b', o = Some b' /\ b' == b.
Proof.
  unfold has_bias. destruct o as [b'|].
  - rewrite Qeq_bool_iff. split; [eauto | intros (x & [= ->] & E); exact E].
  - split; [discriminate | intros (x & [=] & _)].
Qed.

Lemma dget_keys {K V : Type} `{Hashable K} (k : K) (d : dict K V) :
  In k (keys d) <-> exists v, dget k d = Some v.
Proof.
  rewrite <- dmem_keys. unfold dmem. destruct (dget k d) as [v|].
  - split; eauto.
  - split; [discriminate | intros (v & [=])].
Qed.

(** What the test [adjacency_of] establishes. *)
Lemma adjacency_of_spec lin quad a :
  adjacency_of lin quad a = true ->
  NoDup (keys a)
  /\ (forall v, In v (keys lin) <-> In v (keys a))
  /\ (forall u nd, dget u a = Some nd -> NoDup (keys nd))
  /\ (forall u v b, In (edge u v, b) quad ->
        (exists b1, adj_get a u v = Some b1 /\ b1 == b)
        /\ (exists b2, adj_get a v u = Some b2 /\ b2 == b))
  /\ (forall u v b, adj_get a u v = Some b ->
        exists b', (In (edge u v, b') quad \/ In (edge v u, b') quad) /\ b' == b).
Proof.
  unfold adjacency_of. rewrite !andb_true_iff, distinct_NoDup, !forallb_forall.
  intros [[[[[H1 H2] H3] H4] H5] H6]. split; [assumption|].
  split; [|split; [|split]].
  - intros v. split; intros Hv.
    + apply dmem_keys. now apply H2.
    + apply dmem_keys. now apply H3.
  - intros u nd E. apply dget_Some_In in E. apply distinct_NoDup.
    exact (H4 _ E).
  - intros u v b Hin. specialize (H5 _ Hin). simpl in H5.
    apply andb_true_iff in H5 as [Ha Hb]. now rewrite !has_bias_spec in Ha, Hb.
  - intros u v b E. unfold adj_get in E.
    destruct (dget u a) as [nd|] eqn:Eu; [|discriminate].
    apply dget_Some_In in Eu, E. specialize (H6 _ Eu).
    rewrite forallb_forall in H6. specialize (H6 _ E). simpl in H6.
    apply orb_true_iff in H6 as [Hb|Hb]; apply has_bias_spec in Hb
      as (b' & Hb & Q'); apply dget_Some_In in Hb; eauto.
Qed.

Lemma adjacency_eqb lin quad a a' :
  NoDup (keys lin) ->
  adj_inv lin quad a' -> adjacency_of lin quad a = true ->
  dict_eqb (dict_eqb Qeq_bool) a' a = true.
Proof.
  intros Hl (Hk' & Hnd' & Hadj') Ha.
  apply adjacency_of_spec in Ha as (Hnd & Hkeys & Hin & Hfwd & Hback).
  assert (Hndk' : NoDup (keys a')) by now rewrite Hk'.
  assert (Hsame : forall u v, (exists b, adj_get a' u v = Some b)
                              <-> (exists b, adj_get a u v = Some b)).
  { intros u v. split; intros (b & E).
    - apply Hadj' in E as [E|E]; apply Hfwd in E as [(b1 & E1 & _) (b2 & E2 & _)]; eauto.
    - apply Hback in E as (b' & E & _). exists b'. now apply Hadj'. }
  apply dict_eqb_intro.
  - apply same_keys_length; try assumption. intros u. now rewrite Hk'.
  - intros u nd' Hu. apply (dget_In _ _ _ Hndk') in Hu.
    assert (Hua : In u (keys a)).
    { apply Hkeys. rewrite <- Hk'. apply dget_keys. eauto. }
    apply dget_keys in Hua as (nd & Eu). exists nd. split; [exact Eu|].
    apply dict_eqb_intro.
    + apply same_keys_length; [eauto | eauto |].
      intros v. rewrite !dget_keys. specialize (Hsame u v).
      unfold adj_get in Hsame. now rewrite Hu, Eu in Hsame.
    + intros v b' Hv. apply (dget_In _ _ _ (Hnd' _ _ Hu)) in Hv.
      assert (E : adj_get a' u v = Some b') by (unfold adj_get; now rewrite Hu).
      apply Hadj' in E.
      assert (exists b1, adj_get a u v = Some b1 /\ b1 == b') as (b1 & E1 & Q1).
      { destruct E as [E|E]; apply Hfwd in E as [X Y]; assumption. }
      unfold adj_get in E1. rewrite Eu in E1. exists b1. split; [exact E1|].
      apply Qeq_bool_iff. now symmetry.
Qed.

(* ================================================================= *)
(** * Relabeling with self-maps *)

(** Every entry of the mapping sends a variable of the model to itself. *)
Definition self_maps (lin : dict Label Bias) (mapping : Mapping) : bool :=
  forallb (fun on => label_eqb (fst on) (snd on) && dmem (fst on) lin) mapping.

Lemma self_maps_spec lin mapping :
  self_maps lin mapping = true ->
  forall old new, In (old, new) mapping -> new = old.
Proof.
  unfold self_maps. rewrite forallb_forall. intros Hs old new Hin.
  specialize (Hs _ Hin). simpl in Hs. apply andb_true_iff in Hs as [E _].
  destruct (label_eqb_spec old new); congruence.
Qed.

Lemma self_maps_values lin mapping :
  self_maps lin mapping = true -> values mapping = keys mapping.
Proof.
  intros Hs. pose proof (self_maps_spec _ _ Hs) as Hsame.
  unfold values, keys. apply map_ext_in. intros [old new] Hin. simpl.
  now apply Hsame.
Qed.

Lemma self_maps_relabeled lin mapping v :
  self_maps lin mapping = true -> relabeled mapping v = v.
Proof.
  intros Hs. unfold relabeled. destruct (dget v mapping) as [new|] eqn:E.
  - apply dget_Some_In in E. now apply (self_maps_spec _ _ Hs).
  - reflexivity.
Qed.

Lemma self_maps_no_collision lin mapping :
  self_maps lin mapping = true ->
  label_collision lin (keys mapping) (values mapping) = false.
Proof.
  intros Hs. rewrite (self_maps_values _ _ Hs). unfold label_collision.
  apply not_true_is_false. rewrite existsb_exists. intros (v & Hv & E).
  apply andb_true_iff in E as [_ E]. apply negb_true_iff in E.
  apply contains_false in E. contradiction.
Qed.

Lemma self_maps_split lin mapping olds news : forall st,
  self_maps lin mapping = true ->
  fold_left (split_mapping olds news) mapping st = st.
Proof.
  induction mapping as [|[old new] mapping IH]; intros st Hs; [reflexivity|].
  simpl in Hs. apply andb_true_iff in Hs as [Hon Hs].
  apply andb_true_iff in Hon as [Hon _]. simpl in Hon.
  cbn [fold_left]. unfold split_mapping at 2. destruct st as [[c o2i] i2n].
  rewrite Hon. now apply IH.
Qed.

Lemma relabeled_quadratic_same mapping (items : dict PyKey Bias) : forall acc,
  (forall v, relabeled mapping v = v) ->
  NoDup (keys (acc ++ items)) ->
  (forall k, In k (keys items) -> exists u v, k = edge u v) ->
  for_each (fun acc (item : PyKey * Bias) =>
              let (k, bias) := item in
              '(u, v) <- unpack2 k ;;
              Ok (dset (edge (relabeled mapping u) (relabeled mapping v)) bias acc))
           items acc
  = Ok (acc ++ items).
Proof.
  induction items as [|[k j] items IH]; intros acc Hid Hnd Hk.
  - now rewrite app_nil_r.
  - destruct (Hk k (or_introl eq_refl)) as (u & v & ->).
    cbn [for_each unpack2 edge bind]. rewrite !Hid. fold (edge u v).
    rewrite dset_absent.
    + rewrite IH.
      * now rewrite <- app_assoc.
      * assumption.
      * now rewrite <- app_assoc.
      * intros k Hin. apply Hk. now right.
    + apply dmem_false. rewrite keys_app in Hnd. simpl in Hnd.
      apply NoDup_remove_2 in Hnd. intros Hin. apply Hnd.
      apply in_or_app. now left.
Qed.

Lemma self_maps_shared lin (mapping : Mapping) :
  self_maps lin mapping = true ->
  existsb (fun v => contains v (values mapping)) (keys mapping) = false ->
  mapping = [].
Proof.
  intros Hs. rewrite (self_maps_values _ _ Hs).
  destruct mapping as [|[old new] mapping]; [reflexivity|].
  simpl. destruct (label_eqb_spec old old); [discriminate | congruence].
Qed.

Lemma rename_variable_nil ks : forall st,
  for_each (rename_variable []) ks st = Ok st.
Proof.
  induction ks as [|k ks IH]; intros [lin a]; [reflexivity|].
  cbn [for_each]. unfold rename_variable at 2. simpl. apply IH.
Qed.

Lemma rename_interaction_nil ks : forall quad : dict PyKey Bias,
  (forall k, In k ks -> exists u v, k = edge u v) ->
  for_each (rename_interaction []) ks quad = Ok quad.
Proof.
  induction ks as [|k ks IH]; intros quad Hk; [reflexivity|].
  destruct (Hk k (or_introl eq_refl)) as (u & v & ->).
  cbn [for_each]. unfold rename_interaction at 2. simpl.
  apply IH. intros k Hin. apply Hk. now right.
Qed.

Lemma relabel_with_nothing depth lin quad off vt a :
  (forall k, In k (keys quad) -> exists u v, k = edge u v) ->
  relabel_variables_at depth (mkBQM lin quad off vt a) [] false
  = Ok (mkBQM lin quad off vt a).
Proof.
  intros Hk. destruct depth; simpl; unfold relabel_in_place; simpl;
    rewrite rename_variable_nil; simpl;
    rewrite (rename_interaction_nil _ _ Hk); reflexivity.
Qed.

Lemma relabel_self_maps_at (depth : nat) (m : BinaryQuadraticModel)
  (mapping : Mapping) (copy : bool) :
  valid_model m = true ->
  self_maps (linear m) mapping = true ->
  exists m', relabel_variables_at (S depth) m mapping copy = Ok m'
             /\ __eq__ m' m = true.
Proof.
  intros Hval Hs. pose proof Hval as Hv. unfold valid_model in Hv.
  apply andb_true_iff in Hv as [Hin Hadj].
  pose proof (valid_inputs_endpoints _ _ Hin) as Hends.
  pose proof (valid_inputs_spec _ _ Hin) as (Hl & Hq & _).
  destruct m as [lin quad off vt a]; cbn [linear quadratic adj] in *.
  assert (Hedges : forall k, In k (keys quad) -> exists u v, k = edge u v).
  { intros k Hk. destruct (Hends k Hk) as (u & v & E & _). eauto. }
  destruct copy.
  - destruct (init_ok lin quad off (TokEnum vt) vt eq_refl Hin) as (a' & Einit & Hinv).
    exists (mkBQM lin quad off vt a'). split.
    + cbn [relabel_variables_at linear quadratic offset vartype].
      rewrite (self_maps_no_collision _ _ Hs).
      unfold relabeled_linear, relabeled_quadratic.
      rewrite (relabeled_quadratic_same mapping quad []);
        [|intros v; eapply self_maps_relabeled; eauto| assumption | assumption].
      cbn [bind app].
      replace (map (fun vb => (relabeled mapping (fst vb), snd vb)) lin) with lin.
      * rewrite dict_of_items_distinct by assumption. exact Einit.
      * rewrite <- (map_id lin) at 1. apply map_ext. intros [v h]. simpl.
        now rewrite (self_maps_relabeled lin mapping v Hs).
    + unfold __eq__; simpl. rewrite vartype_eqb_refl, linear_eqb_refl by assumption.
      rewrite (adjacency_eqb lin quad a a' Hl Hinv Hadj), Qeq_bool_refl. reflexivity.
  - exists (mkBQM lin quad off vt a). split.
    + cbn [relabel_variables_at linear quadratic offset vartype].
      rewrite (self_maps_no_collision _ _ Hs).
      destruct (existsb _ (keys mapping)) eqn:Eshared.
      * rewrite (self_maps_split lin mapping _ _ _ Hs).
        rewrite relabel_with_nothing by assumption. cbn [bind].
        rewrite relabel_with_nothing by assumption. reflexivity.
      * rewrite (self_maps_shared _ _ Hs Eshared).
        unfold relabel_in_place; simpl. rewrite rename_variable_nil; simpl.
        now rewrite (rename_interaction_nil _ _ Hedges).
    + apply adjacency_of_spec in Hadj as (Hnd & _ & Hinner & _).
      unfold __eq__; simpl. rewrite vartype_eqb_refl, linear_eqb_refl by assumption.
      rewrite neighbors_eqb_refl, Qeq_bool_refl by assumption. reflexivity.
Qed.

(** C10.  A mapping all of whose entries send a variable of a valid
    model to itself is accepted by [relabel_variables], with [copy=True]
    and with [copy=False], and the model that results is equal to the
    model it was applied to. *)
Theorem relabel_self_maps (m : BinaryQuadraticModel) (mapping : Mapping)
  (copy : bool) :
  valid_model m = true ->
  self_maps (linear m) mapping = true ->
  exists m', relabel_variables m mapping copy = Ok m' /\ __eq__ m' m = true.
Proof.
  unfold relabel_variables. change recursion_limit with (S (pred recursion_limit)).
  apply relabel_self_maps_at.
Qed.

(* ================================================================= *)
(** * What the constructor rejects *)

(** A key that [for u, v in quadratic] can iterate over: a tuple or a
    string.  Unpacking any other key raises [TypeError]: an integer
    here, and [None] or a float just as well in Python. *)
Definition iterable (k : PyKey) : bool :=
  match k with
  | KTup _ => true
  | KLabel (LStr _) => true
  | KLabel (LInt _) => false
  end.

(** Every key of [quadratic] is a tuple or a string. *)
Definition all_iterable (quad : dict PyKey Bias) : bool :=
  forallb iterable (keys quad).

(** [v] is a neighbor of [u] in the adjacency. *)
Definition linked (a : dict Label NeighborDict) (u v : Label) : Prop :=
  exists nd, dget u a = Some nd /\ dmem v nd = true.

Lemma normalize_vartype_cases token :
  (exists vt, normalize_vartype token = Ok vt)
  \/ normalize_vartype token = Err TypeError.
Proof.
  unfold normalize_vartype, Vartype_by_name, Vartype_by_value.
  destruct token as [v|name|s|z]; eauto.
  - destruct (String.eqb name "SPIN"); eauto.
    destruct (String.eqb name "BINARY"); eauto.
  - destruct (same_members s [-1; 1]%Z); eauto.
    destruct (same_members s [0; 1]%Z); eauto.
Qed.

Lemma unpack2_cases k :
  iterable k = true ->
  (exists u v, unpack2 k = Ok (u, v)) \/ unpack2 k = Err ValueError.
Proof.
  destruct k as [[|u [|v [|w l]]]|[z|s]]; simpl; eauto; try discriminate.
  intros _. destruct (chars s) as [|u [|v [|w l]]]; eauto.
Qed.

Lemma all_in_linear_cases lin ks :
  forallb iterable ks = true ->
  all_in_linear lin ks = Err ValueError
  \/ all_in_linear lin ks = Ok false
  \/ (all_in_linear lin ks = Ok true
      /\ forall k, In k ks ->
           exists u v, unpack2 k = Ok (u, v)
                       /\ In u (keys lin) /\ In v (keys lin)).
Proof.
  induction ks as [|k ks IH]; simpl.
  - intros _. right; right. split; [reflexivity | intros k []].
  - rewrite andb_true_iff. intros [Hk Hks].
    destruct (unpack2_cases k Hk) as [(u & v & E)|E]; rewrite E; simpl; [|now left].
    destruct (dmem u lin) eqn:Eu; [|now (right; left)].
    destruct (dmem v lin) eqn:Ev; [|now (right; left)]. simpl.
    destruct (IH Hks) as [H|[H|[H Hall]]]; [now left | now (right; left) |].
    right; right. split; [assumption|].
    intros k' [<-|Hin]; [|now apply Hall].
    exists u, v. rewrite <- !dmem_keys. auto.
Qed.

Lemma In_keys_fold_dset {K V : Type} `{Hashable K} (items : dict K V) : forall acc k,
  In k (keys (fold_left (fun a kv => dset (fst kv) (snd kv) a) items acc))
  <-> In k (keys acc) \/ In k (keys items).
Proof.
  induction items as [|[k0 v0] items IH]; intros acc k; simpl; [tauto|].
  rewrite IH, In_keys_dset. simpl. intuition congruence.
Qed.

Lemma In_keys_empty_adj lin u : In u (keys lin) -> In u (keys (empty_adj lin)).
Proof.
  intros Hu. unfold empty_adj, dict_of_items. apply In_keys_fold_dset. right.
  now rewrite keys_map_value.
Qed.

Lemma add_interaction_cases a k j u v :
  unpack2 k = Ok (u, v) -> In u (keys a) -> In v (keys a) ->
  add_interaction a (k, j) = Err ValueError
  \/ exists a', add_interaction a (k, j) = Ok a'.
Proof.
  intros E Hu Hv. unfold add_interaction. rewrite E; simpl.
  destruct (label_eqb_spec u v) as [->|Huv]; [now left|].
  apply dget_keys in Hu as (au & Eu). apply dget_keys in Hv as (av & Ev).
  unfold getitem. rewrite Eu; simpl. destruct (dmem v au); [now left|].
  rewrite dget_dset_other, Ev by assumption. simpl.
  destruct (dmem u av); [now left | eauto].
Qed.

Lemma build_adjacency_cases (quad : dict PyKey Bias) : forall a,
  (forall k, In k (keys quad) ->
     exists u v, unpack2 k = Ok (u, v) /\ In u (keys a) /\ In v (keys a)) ->
  for_each add_interaction quad a = Err ValueError
  \/ exists a', for_each add_interaction quad a = Ok a'.
Proof.
  induction quad as [|[k j] quad IH]; intros a Hk; [simpl; eauto|].
  destruct (Hk k (or_introl eq_refl)) as (u & v & E & Hu & Hv).
  cbn [for_each].
  destruct (add_interaction_cases a k j u v E Hu Hv) as [Ea|(a1 & Ea)];
    rewrite Ea; cbn [bind]; [now left|].
  apply IH. intros k' Hin. rewrite (add_interaction_keys _ _ _ Ea).
  apply Hk. now right.
Qed.

(** With a vartype that normalizes and keys that are tuples or strings,
    the constructor returns a model or raises [ValueError]. *)
Lemma init_cases lin quad off token vt :
  normalize_vartype token = Ok vt ->
  all_iterable quad = true ->
  BinaryQuadraticModel_init lin quad off token = Err ValueError
  \/ exists a, BinaryQuadraticModel_init lin quad off token
               = Ok (mkBQM lin quad off vt a)
               /\ for_each add_interaction quad (empty_adj lin) = Ok a.
Proof.
  intros Htok Hint. unfold BinaryQuadraticModel_init, check_quadratic_keys.
  rewrite Htok; simpl.
  destruct (all_in_linear_cases lin (keys quad) Hint) as [E|[E|[E Hall]]];
    rewrite E; simpl; [now left | now left |].
  destruct (build_adjacency_cases quad (empty_adj lin)) as [Ea|(a & Ea)].
  - intros k Hin. destruct (Hall k Hin) as (u & v & Eu & Hu & Hv).
    exists u, v. auto using In_keys_empty_adj.
  - rewrite Ea. now left.
  - rewrite Ea. simpl. eauto.
Qed.

Lemma add_interaction_links a k j a' u v :
  add_interaction a (k, j) = Ok a' -> unpack2 k = Ok (u, v) ->
  u <> v /\ ~ linked a u v /\ ~ linked a v u /\ linked a' u v /\ linked a' v u.
Proof.
  unfold add_interaction. intros Ha E. rewrite E in Ha; simpl in Ha.
  destruct (label_eqb_spec u v) as [->|Huv]; [discriminate|].
  unfold getitem in Ha. destruct (dget u a) as [au|] eqn:Eu; simpl in Ha; [|discriminate].
  destruct (dmem v au) eqn:Evau; [discriminate|].
  rewrite dget_dset_other in Ha by assumption.
  destruct (dget v a) as [av|] eqn:Ev; simpl in Ha; [|discriminate].
  destruct (dmem u av) eqn:Euav; [discriminate|]. injection Ha as <-.
  split; [assumption|]. unfold linked. repeat split.
  - intros (nd & E1 & E2). congruence.
  - intros (nd & E1 & E2). congruence.
  - exists (dset v j au). rewrite dget_dset_other, dget_dset_same by congruence.
    split; [reflexivity | apply dmem_dset_same].
  - exists (dset u j av). rewrite dget_dset_same.
    split; [reflexivity | apply dmem_dset_same].
Qed.

Lemma dmem_dset_mono {K V : Type} `{Hashable K} (k k' : K) (v : V) (d : dict K V) :
  dmem k' d = true -> dmem k' (dset k v d) = true.
Proof.
  intros Hm. destruct (key_eqb_spec k k') as [->|Hne].
  - apply dmem_dset_same.
  - now rewrite dmem_dset_other.
Qed.

Lemma add_interaction_mono a item a' x y :
  add_interaction a item = Ok a' -> linked a x y -> linked a' x y.
Proof.
  destruct item as [k j]. unfold add_interaction.
  destruct (unpack2 k) as [[u v]|e]; simpl; [|discriminate].
  destruct (label_eqb_spec u v) as [->|Huv]; [discriminate|].
  unfold getitem. destruct (dget u a) as [au|] eqn:Eu; simpl; [|discriminate].
  destruct (dmem v au) eqn:Evau; [discriminate|].
  rewrite dget_dset_other by assumption.
  destruct (dget v a) as [av|] eqn:Ev; simpl; [|discriminate].
  destruct (dmem u av) eqn:Euav; [discriminate|]. intros [= <-].
  intros (nd & E1 & E2). unfold linked. rewrite !dget_dset. simpl.
  destruct (label_eqb_spec x v) as [->|Hxv].
  - exists (dset u j av). split; [reflexivity|].
    apply dmem_dset_mono. congruence.
  - destruct (label_eqb_spec x u) as [->|Hxu].
    + exists (dset v j au). split; [reflexivity|].
      apply dmem_dset_mono. congruence.
    + eauto.
Qed.

Lemma build_adjacency_mono (items : dict PyKey Bias) : forall a a' x y,
  for_each add_interaction items a = Ok a' -> linked a x y -> linked a' x y.
Proof.
  induction items as [|item items IH]; intros a a' x y; simpl.
  - now intros [= <-].
  - destruct (add_interaction a item) as [a1|e] eqn:E; simpl; [|discriminate].
    intros Hrest Hl. eapply IH; [exact Hrest|].
    eapply add_interaction_mono; eauto.
Qed.

(** Every interaction that is entered finds its two ends unlinked. *)
Lemma build_adjacency_fresh (items : dict PyKey Bias) : forall a a' k u v,
  for_each add_interaction items a = Ok a' ->
  In k (keys items) -> unpack2 k = Ok (u, v) ->
  u <> v /\ ~ linked a u v /\ ~ linked a v u.
Proof.
  induction items as [|[k0 j0] items IH]; intros a a' k u v;
    cbn [for_each keys map fst In]; [tauto|].
  destruct (add_interaction a (k0, j0)) as [a1|e] eqn:E; cbn [bind]; [|discriminate].
  intros Hrest [<-|Hin] Hk.
  - destruct (add_interaction_links _ _ _ _ _ _ E Hk) as (? & ? & ? & _). auto.
  - destruct (IH _ _ _ _ _ Hrest Hin Hk) as (Huv & H1 & H2).
    split; [assumption|].
    split; intros Hl; [apply H1 | apply H2]; eapply add_interaction_mono; eauto.
Qed.

Lemma build_adjacency_no_reverse (items : dict PyKey Bias) : forall a a' k k' u v,
  for_each add_interaction items a = Ok a' ->
  In k (keys items) -> In k' (keys items) -> k <> k' ->
  unpack2 k = Ok (u, v) -> unpack2 k' = Ok (v, u) -> False.
Proof.
  induction items as [|[k0 j0] items IH]; intros a a' k k' u v;
    cbn [for_each keys map fst In]; [tauto|].
  destruct (add_interaction a (k0, j0)) as [a1|e] eqn:E; cbn [bind]; [|discriminate].
  intros Hrest [<-|Hin] [<-|Hin'] Hne Hk Hk'; try congruence.
  - destruct (add_interaction_links _ _ _ _ _ _ E Hk) as (_ & _ & _ & _ & Hl).
    destruct (build_adjacency_fresh _ _ _ _ _ _ Hrest Hin' Hk') as (_ & Hn & _).
    contradiction.
  - destruct (add_interaction_links _ _ _ _ _ _ E Hk') as (_ & _ & _ & _ & Hl).
    destruct (build_adjacency_fresh _ _ _ _ _ _ Hrest Hin Hk) as (_ & Hn & _).
    contradiction.
  - exact (IH _ _ _ _ _ _ Hrest Hin Hin' Hne Hk Hk').
Qed.

Lemma init_checked_keys lin quad off token m :
  BinaryQuadraticModel_init lin quad off token = Ok m ->
  forall k, In k (keys quad) -> exists u v, unpack2 k = Ok (u, v).
Proof.
  unfold BinaryQuadraticModel_init, check_quadratic_keys.
  destruct (normalize_vartype token); simpl; [|discriminate].
  intros Hinit. assert (E : all_in_linear lin (keys quad) = Ok true).
  { destruct (all_in_linear lin (keys quad)) as [[|]|e]; simpl in Hinit;
      [reflexivity | discriminate | discriminate]. }
  clear Hinit. induction (keys quad) as [|k0 ks IH]; simpl in *; [tauto|].
  destruct (unpack2 k0) as [[u v]|e] eqn:E0; simpl in E; [|discriminate].
  destruct (dmem u lin && dmem v lin); [|discriminate].
  intros k [<-|Hin]; eauto.
Qed.

(** The keys the constructor rejects with [ValueError], given a vartype
    that normalizes and keys that are tuples or strings. *)
Lemma init_rejects lin quad off token vt :
  normalize_vartype token = Ok vt ->
  all_iterable quad = true ->
  (exists k, In k (keys quad)
     /\ (unpack2 k = Err ValueError
         \/ (exists v, unpack2 k = Ok (v, v))
         \/ (exists k' u v, In k' (keys quad) /\ k <> k'
                            /\ unpack2 k = Ok (u, v) /\ unpack2 k' = Ok (v, u)))) ->
  BinaryQuadraticModel_init lin quad off token = Err ValueError.
Proof.
  intros Htok Hint (k & Hin & Hbad).
  destruct (init_cases lin quad off token vt Htok Hint) as [E|(a & E & Ea)];
    [exact E | exfalso].
  destruct Hbad as [Hk|[(v & Hk)|(k' & u & v & Hin' & Hne & Hk & Hk')]].
  - destruct (init_checked_keys _ _ _ _ _ E k Hin) as (u & v & Eu). congruence.
  - destruct (build_adjacency_fresh _ _ _ _ _ _ Ea Hin Hk) as (Hvv & _). congruence.
  - exact (build_adjacency_no_reverse _ _ _ _ _ _ _ Ea Hin Hin' Hne Hk Hk').
Qed.

Lemma length_chars s : List.length (chars s) = String.length s.
Proof. induction s as [|c s IH]; simpl; congruence. Qed.

Lemma unpack2_tuple items :
  List.length items <> 2%nat -> unpack2 (KTup items) = Err ValueError.
Proof. destruct items as [|u [|v [|w l]]]; simpl; congruence. Qed.

Lemma unpack2_string s :
  String.length s <> 2%nat -> unpack2 (KLabel (LStr s)) = Err ValueError.
Proof.
  rewrite <- length_chars. simpl.
  destruct (chars s) as [|u [|v [|w l]]]; simpl; congruence.
Qed.

(** A vartype token that does not normalize makes the constructor raise
    [TypeError], whatever the other arguments are.  With a token that
    normalizes and a [quadratic] all of whose keys are tuples or
    strings, the constructor raises [ValueError] when a key is a tuple
    that has not two items, when a key is a string that has not two
    characters, when a key is a self-loop [(v, v)], and when [(u, v)] and
    [(v, u)] are both keys. *)
Theorem construction_errors (lin : dict Label Bias) (quad : dict PyKey Bias)
  (off : Bias) (token : VartypeToken) :
  (normalize_vartype token = Err TypeError ->
   BinaryQuadraticModel_init lin quad off token = Err TypeError)
  /\ (forall vt,
        normalize_vartype token = Ok vt -> all_iterable quad = true ->
        (forall items, In (KTup items) (keys quad) -> List.length items <> 2%nat ->
           BinaryQuadraticModel_init lin quad off token = Err ValueError)
        /\ (forall s, In (KLabel (LStr s)) (keys quad) -> String.length s <> 2%nat ->
              BinaryQuadraticModel_init lin quad off token = Err ValueError)
        /\ (forall v, In (edge v v) (keys quad) ->
              BinaryQuadraticModel_init lin quad off token = Err ValueError)
        /\ (forall u v, In (edge u v) (keys quad) -> In (edge v u) (keys quad) ->
              BinaryQuadraticModel_init lin quad off token = Err ValueError)).
Proof.
  split.
  - intros E. unfold BinaryQuadraticModel_init. now rewrite E.
  - intros vt Htok Hint. repeat split.
    + intros items Hin Hlen. apply (init_rejects lin quad off token vt Htok Hint).
      exists (KTup items). split; [assumption|]. left. now apply unpack2_tuple.
    + intros s Hin Hlen. apply (init_rejects lin quad off token vt Htok Hint).
      exists (KLabel (LStr s)). split; [assumption|]. left. now apply unpack2_string.
    + intros v Hin. apply (init_rejects lin quad off token vt Htok Hint).
      exists (edge v v). split; [assumption|]. right; left. now exists v.
    + intros u v Hin Hin'. apply (init_rejects lin quad off token vt Htok Hint).
      exists (edge u v). split; [assumption|]. right.
      destruct (label_eqb_spec u v) as [->|Huv].
      * left. now exists v.
      * right. exists (edge v u), u, v. repeat split; try assumption.
        intros [= -> _]. congruence.
Qed.

(* ================================================================= *)
(** * Inputs on which the code and its specification part *)

Definition two_variables : dict Label Bias := [(LStr "a", 0); (LStr "b", 0)].

(** C7.  The constructor does not reject every key of [quadratic] that
    is no 2-tuple: the string ["ab"] is no tuple, it is unpacked into
    ["a"] and ["b"] and accepted, and the model that is built has no
    energy, since [energy] looks up [quadratic[("a", "b")]] and raises
    [KeyError]. *)
Theorem two_character_key_accepted :
  (forall u v, KLabel (LStr "ab") <> edge u v)
  /\ BinaryQuadraticModel_init two_variables [(KLabel (LStr "ab"), 1)] 0 (TokEnum SPIN)
     = Ok (mkBQM two_variables [(KLabel (LStr "ab"), 1)] 0 SPIN
             [(LStr "a", [(LStr "b", 1)]); (LStr "b", [(LStr "a", 1)])])
  /\ energy (mkBQM two_variables [(KLabel (LStr "ab"), 1)] 0 SPIN
               [(LStr "a", [(LStr "b", 1)]); (LStr "b", [(LStr "a", 1)])])
            [(LStr "a", 1); (LStr "b", 1)]
     = Err KeyError.
Proof. split; [discriminate | split; vm_compute; reflexivity]. Qed.

(** An integer key is no 2-tuple either, and it cannot be unpacked: the
    [TypeError] is not caught by [except ValueError] and is what the
    constructor raises. *)
Remark integer_key_raises_type_error :
  BinaryQuadraticModel_init [(LInt 0, 0)] [(KLabel (LInt 0), 1)] 0 (TokEnum SPIN)
  = Err TypeError.
Proof. vm_compute. reflexivity. Qed.

(** [BinaryQuadraticModel({0: 1, 1: 0, 2: 0}, {(0, 1): 2**60, (0, 2): -2**60}, 0, SPIN)] *)
Definition large_spin_model : BinaryQuadraticModel :=
  mkBQM [(LInt 0, 1); (LInt 1, 0); (LInt 2, 0)]
        [(edge (LInt 0) (LInt 1), inject_Z (2 ^ 60));
         (edge (LInt 0) (LInt 2), - inject_Z (2 ^ 60))]
        0 SPIN
        [(LInt 0, [(LInt 1, inject_Z (2 ^ 60)); (LInt 2, - inject_Z (2 ^ 60))]);
         (LInt 1, [(LInt 0, inject_Z (2 ^ 60))]);
         (LInt 2, [(LInt 0, - inject_Z (2 ^ 60))])].

Definition all_ones : dict Label Q := [(LInt 0, 1); (LInt 1, 1); (LInt 2, 1)].


(** That model converted to BINARY and back to SPIN has the energy -1 on
    the spins that are all 1, where the model itself has the energy 1. *)
Lemma round_trip_changes_energy :
  valid_model large_spin_model = true
  /\ binary_valued all_ones (keys (linear large_spin_model)) = true
  /\ exists m1 m2 e e2,
       change_vartype large_spin_model (TokEnum BINARY) = Ok m1
       /\ change_vartype m1 (TokEnum SPIN) = Ok m2
       /\ energy large_spin_model (to_spin all_ones) = Ok e
       /\ energy m2 (to_spin all_ones) = Ok e2
       /\ e == 1 /\ e2 == - (1) /\ ~ e2 == e.
Proof.
  split; [vm_compute; reflexivity|]. split; [vm_compute; reflexivity|].
  eexists. eexists. eexists. eexists.
  split; [vm_compute; reflexivity|]. split; [vm_compute; reflexivity|].
  split; [vm_compute; reflexivity|]. split; [vm_compute; reflexivity|].
  split; [vm_compute; reflexivity|]. split; [vm_compute; reflexivity|].
  vm_compute. discriminate.
Qed.

(** Variables 0, 1 and 6, one interaction between 0 and 1. *)
Definition clash_model : BinaryQuadraticModel :=
  mkBQM [(LInt 0, 0); (LInt 1, 1); (LInt 6, 0)]
        [(edge (LInt 0) (LInt 1), 1)] 0 SPIN
        [(LInt 0, [(LInt 1, 1)]); (LInt 1, [(LInt 0, 1)]); (LInt 6, [])].

(** The mapping [{0: 1, 1: 0}]. *)
Definition swap_0_1 : Mapping := [(LInt 0, LInt 1); (LInt 1, LInt 0)].

(** [{new: old for old, new in mapping.items()}] *)
Definition inverse_mapping (mapping : Mapping) : Mapping :=
  dict_of_items (map (fun on => (snd on, fst on)) mapping).

(** C2, on a failing input.  [clash_model] is what the constructor
    builds, the swap of 0 and 1 passes the collision check and
    [copy=True] returns the relabeled model; [copy=False] draws the
    intermediate label [6 = 2 * len(self)], which names the unmapped
    variable 6, and the nested call raises [ValueError]. *)
Theorem relabel_in_place_label_clash :
  BinaryQuadraticModel_init (linear clash_model) (quadratic clash_model)
    (offset clash_model) (TokEnum SPIN) = Ok clash_model
  /\ valid_model clash_model = true
  /\ label_collision (linear clash_model) (keys swap_0_1) (values swap_0_1) = false
  /\ relabel_variables clash_model swap_0_1 true
     = Ok (mkBQM [(LInt 1, 0); (LInt 0, 1); (LInt 6, 0)]
                 [(edge (LInt 1) (LInt 0), 1)] 0 SPIN
                 [(LInt 1, [(LInt 0, 1)]); (LInt 0, [(LInt 1, 1)]); (LInt 6, [])])
  /\ fold_left (split_mapping (keys swap_0_1) (values swap_0_1)) swap_0_1
               (6%Z, [], [])
     = (8%Z, [(LInt 0, LInt 6); (LInt 1, LInt 7)],
             [(LInt 6, LInt 1); (LInt 7, LInt 0)])
  /\ relabel_variables clash_model swap_0_1 false = Err ValueError.
Proof. repeat apply conj; vm_compute; reflexivity. Qed.

(** C3, on a failing input.  The swap of 0 and 1 is injective and its
    own inverse.  With [copy=True], applying it twice to [clash_model]
    gives a model equal to [clash_model]; with [copy=False] the first
    application already raises [ValueError]. *)
Theorem relabel_inverse_in_place_fails :
  distinct (values swap_0_1) = true
  /\ inverse_mapping swap_0_1 = [(LInt 1, LInt 0); (LInt 0, LInt 1)]
  /\ (exists m1 m2,
        relabel_variables clash_model swap_0_1 true = Ok m1
        /\ relabel_variables m1 (inverse_mapping swap_0_1) true = Ok m2
        /\ __eq__ m2 clash_model = true)
  /\ relabel_variables clash_model swap_0_1 false = Err ValueError.
Proof.
  repeat apply conj; try (vm_compute; reflexivity).
  eexists. eexists. repeat apply conj; vm_compute; reflexivity.
Qed.

(** Variables 0 to 3, interactions [(0, 2)] and [(1, 3)]. *)
Definition merge_model : BinaryQuadraticModel :=
  mkBQM [(LInt 0, 0); (LInt 1, 0); (LInt 2, 0); (LInt 3, 0)]
        [(edge (LInt 0) (LInt 2), 1); (edge (LInt 1) (LInt 3), 1)] 0 SPIN
        [(LInt 0, [(LInt 2, 1)]); (LInt 1, [(LInt 3, 1)]);
         (LInt 2, [(LInt 0, 1)]); (LInt 3, [(LInt 1, 1)])].

(** The mapping [{0: 'a', 1: 'a'}]. *)
Definition merge_0_1 : Mapping := [(LInt 0, LStr "a"); (LInt 1, LStr "a")].

(** C4, on a failing input.  [merge_model] is what the constructor
    builds.  Relabeling 0 and 1 to ['a'] in place succeeds and leaves
    [quadratic] with [('a', 2)] and [('a', 3)] while [adj['a']] holds
    the neighbor 3 only: 2 has the neighbor ['a'], ['a'] has not the
    neighbor 2.  With [copy=True] the same call returns a valid model. *)
Theorem relabel_in_place_merge_breaks_adjacency :
  BinaryQuadraticModel_init (linear merge_model) (quadratic merge_model)
    (offset merge_model) (TokEnum SPIN) = Ok merge_model
  /\ valid_model merge_model = true
  /\ (exists m, relabel_variables merge_model merge_0_1 true = Ok m
                /\ valid_model m = true)
  /\ exists m,
       relabel_variables merge_model merge_0_1 false = Ok m
       /\ quadratic m = [(edge (LStr "a") (LInt 2), 1); (edge (LStr "a") (LInt 3), 1)]
       /\ adj m = [(LInt 2, [(LStr "a", 1)]); (LInt 3, [(LStr "a", 1)]);
                   (LStr "a", [(LInt 3, 1)])]
       /\ adj_get (adj m) (LInt 2) (LStr "a") = Some 1
       /\ adj_get (adj m) (LStr "a") (LInt 2) = None
       /\ adjacency_of (linear m) (quadratic m) (adj m) = false.
Proof.
  repeat apply conj; try (vm_compute; reflexivity).
  - eexists. split; vm_compute; reflexivity.
  - eexists. repeat apply conj; vm_compute; reflexivity.
Qed.

(* ================================================================= *)
(** * The theorems at work on the models of the test suite *)

(** [BinaryQuadraticModel({0: 1, 1: -1, 2: .5}, {(0, 1): .5, (1, 2): 1.5}, 1.4, SPIN)] *)
Definition spin_example : BinaryQuadraticModel :=
  mkBQM [(LInt 0, 1); (LInt 1, - (1)); (LInt 2, 1#2)]
        [(edge (LInt 0) (LInt 1), 1#2); (edge (LInt 1) (LInt 2), 3#2)]
        (7#5) SPIN
        [(LInt 0, [(LInt 1, 1#2)]);
         (LInt 1, [(LInt 0, 1#2); (LInt 2, 3#2)]);
         (LInt 2, [(LInt 1, 3#2)])].


(** The same biases with the offset 0.25: every number is a multiple of
    a quarter. *)
Definition quarter_spin_example : BinaryQuadraticModel :=
  mkBQM (linear spin_example) (quadratic spin_example) (1#4) SPIN (adj spin_example).

Definition quarter_binary_example : BinaryQuadraticModel :=
  mkBQM (linear spin_example) (quadratic spin_example) (1#4) BINARY (adj spin_example).

Definition sample_101 : dict Label Q := [(LInt 0, 1); (LInt 1, 0); (LInt 2, 1)].


Lemma change_vartype_round_trip_witness :
  (valid_model quarter_spin_example = true
   /\ small_dyadic 2 47 (numbers quarter_spin_example) = true
   /\ binary_valued sample_101 (keys (linear quarter_spin_example)) = true
   /\ normalize_vartype (TokStr "BINARY") = Ok BINARY
   /\ normalize_vartype (TokSet [-1; 1]%Z) = Ok SPIN)
  /\ (exists m1 m2 e e1 e2,
        (change_vartype quarter_spin_example (TokStr "BINARY") = Ok m1
         /\ change_vartype m1 (TokSet [-1; 1]%Z) = Ok m2
         /\ energy quarter_spin_example (to_spin sample_101) = Ok e
         /\ energy m1 sample_101 = Ok e1
         /\ energy m2 (to_spin sample_101) = Ok e2)
        /\ e1 == e /\ e2 == e)
  /\ (exists m1 m2 e e1 e2,
        (change_vartype quarter_binary_example (TokSet [-1; 1]%Z) = Ok m1
         /\ change_vartype m1 (TokStr "BINARY") = Ok m2
         /\ energy quarter_binary_example sample_101 = Ok e
         /\ energy m1 (to_spin sample_101) = Ok e1
         /\ energy m2 sample_101 = Ok e2)
        /\ e1 == e /\ e2 == e).
Proof.
  split; [repeat apply conj; vm_compute; reflexivity|]. split.
  - apply (change_vartype_round_trip quarter_spin_example sample_101
             (TokStr "BINARY") (TokSet [-1; 1]%Z) 2); vm_compute; reflexivity.
  - apply (change_vartype_round_trip quarter_binary_example sample_101
             (TokStr "BINARY") (TokSet [-1; 1]%Z) 2); vm_compute; reflexivity.
Defined.



Definition eleven_variables : dict Label Bias :=
  map (fun z => (LInt z, 1#3)) [0; 1; 2; 3; 4; 5; 6; 7; 8; 9; 10]%Z.

Lemma construction_errors_witness :
  (normalize_vartype (TokInt 147) = Err TypeError
   /\ normalize_vartype (TokStr "my made up type") = Err TypeError
   /\ normalize_vartype (TokEnum BINARY) = Ok BINARY)
  /\ BinaryQuadraticModel_init eleven_variables [] 0 (TokInt 147) = Err TypeError
  /\ BinaryQuadraticModel_init eleven_variables [] 0 (TokStr "my made up type")
     = Err TypeError
  /\ BinaryQuadraticModel_init eleven_variables
       [(KTup [LInt 0; LInt 1; LInt 2], 1#2)] 0 (TokEnum BINARY) = Err ValueError
  /\ BinaryQuadraticModel_init eleven_variables
       [(KLabel (LStr "edge"), 1#2)] 0 (TokEnum BINARY) = Err ValueError
  /\ BinaryQuadraticModel_init eleven_variables
       [(edge (LInt 0) (LInt 0), 1#2)] 0 (TokEnum BINARY) = Err ValueError
  /\ BinaryQuadraticModel_init eleven_variables
       [(edge (LInt 0) (LInt 1), 1#2); (edge (LInt 1) (LInt 0), - (1#2))] 0
       (TokEnum BINARY) = Err ValueError.
Proof.
  split; [repeat apply conj; vm_compute; reflexivity|].
  repeat apply conj.
  - apply (proj1 (construction_errors eleven_variables [] 0 (TokInt 147))).
    reflexivity.
  - apply (proj1 (construction_errors eleven_variables [] 0 (TokStr "my made up type"))).
    reflexivity.
  - apply (proj1 (proj2 (construction_errors eleven_variables
                           [(KTup [LInt 0; LInt 1; LInt 2], 1#2)] 0 (TokEnum BINARY))
                    BINARY eq_refl eq_refl) [LInt 0; LInt 1; LInt 2]).
    + simpl. auto.
    + simpl. lia.
  - apply (proj1 (proj2 (proj2 (construction_errors eleven_variables
                                  [(KLabel (LStr "edge"), 1#2)] 0 (TokEnum BINARY))
                           BINARY eq_refl eq_refl)) "edge"%string).
    + simpl. auto.
    + simpl. lia.
  - apply (proj1 (proj2 (proj2 (proj2 (construction_errors eleven_variables
                                         [(edge (LInt 0) (LInt 0), 1#2)] 0
                                         (TokEnum BINARY)) BINARY eq_refl eq_refl)))
             (LInt 0)).
    simpl. auto.
  - apply (proj2 (proj2 (proj2 (proj2 (construction_errors eleven_variables
                                         [(edge (LInt 0) (LInt 1), 1#2);
                                          (edge (LInt 1) (LInt 0), - (1#2))] 0
                                         (TokEnum BINARY)) BINARY eq_refl eq_refl)))
             (LInt 0) (LInt 1)).
    + simpl. auto.
    + simpl. auto.
Defined.

Lemma as_qubo_binary_witness :
  (valid_model qubo_example = true /\ vartype qubo_example = BINARY)
  /\ exists qubo,
       as_qubo qubo_example = Ok (qubo, offset qubo_example)
       /\ NoDup (keys qubo)
       /\ forall k bias,
            In (k, bias) qubo
            <-> (exists v, k = edge v v /\ In (v, bias) (linear qubo_example))
                \/ In (k, bias) (quadratic qubo_example).
Proof.
  split; [split; vm_compute; reflexivity|].
  apply (proj1 as_qubo_binary qubo_example); vm_compute; reflexivity.
Defined.

Lemma reversal_invariance_witness :
  (valid_inputs (linear spin_example) (quadratic spin_example) = true
   /\ normalize_vartype (TokStr "SPIN") = Ok SPIN)
  /\ exists m m',
       BinaryQuadraticModel_init (linear spin_example) (quadratic spin_example)
         (offset spin_example) (TokStr "SPIN") = Ok m
       /\ BinaryQuadraticModel_init (linear spin_example)
            (reversed_quadratic (quadratic spin_example))
            (offset spin_example) (TokStr "SPIN") = Ok m'
       /\ quadratic m' = map (fun kb => (reverse_key (fst kb), snd kb))
                             (quadratic spin_example)
       /\ adj m' = adj m
       /\ __eq__ m m' = true /\ __eq__ m' m = true.
Proof.
  split; [split; vm_compute; reflexivity|].
  apply (reversal_invariance (linear spin_example) (quadratic spin_example)
           (offset spin_example) (TokStr "SPIN") SPIN); vm_compute; reflexivity.
Defined.

(** [{v: v for v in linear}] *)
Definition identity_mapping (lin : dict Label Bias) : Mapping :=
  map (fun vb => (fst vb, fst vb)) lin.

Lemma relabel_self_maps_witness :
  (valid_model spin_example = true
   /\ self_maps (linear spin_example) (identity_mapping (linear spin_example)) = true
   /\ self_maps (linear spin_example) [(LInt 1, LInt 1)] = true)
  /\ (exists m', relabel_variables spin_example
                   (identity_mapping (linear spin_example)) true = Ok m'
                 /\ __eq__ m' spin_example = true)
  /\ (exists m', relabel_variables spin_example
                   (identity_mapping (linear spin_example)) false = Ok m'
                 /\ __eq__ m' spin_example = true)
  /\ (exists m', relabel_variables spin_example [(LInt 1, LInt 1)] false = Ok m'
                 /\ __eq__ m' spin_example = true).
Proof.
  split; [repeat apply conj; vm_compute; reflexivity|].
  repeat apply conj; apply relabel_self_maps; vm_compute; reflexivity.
Defined.

(* ================================================================= *)
(** * The constructor establishes the invariants *)

Lemma adj_inv_adjacency_of lin quad a :
  valid_inputs lin quad = true -> adj_inv lin quad a ->
  adjacency_of lin quad a = true.
Proof.
  intros Hval (Hk & Hnd & Hadj).
  apply valid_inputs_spec in Hval as (Hl & Hq & Hshape).
  assert (Hka : NoDup (keys a)) by now rewrite Hk.
  unfold adjacency_of. rewrite !andb_true_iff, distinct_NoDup, !forallb_forall.
  repeat split.
  - assumption.
  - intros v Hv. apply dmem_keys. now rewrite Hk.
  - intros u Hu. apply dmem_keys. now rewrite <- Hk.
  - intros [u nd] Hin. simpl. apply distinct_NoDup.
    apply (Hnd u). now apply dget_In.
  - intros [k b] Hin. simpl.
    destruct (Hshape k (In_keys _ _ _ Hin)) as (u & v & -> & _).
    unfold edge. apply andb_true_iff. split; apply has_bias_spec; exists b;
      (split; [apply Hadj; auto | reflexivity]).
  - intros [u nd] Hu. apply forallb_forall. intros [v b] Hv. simpl.
    apply (dget_In _ _ _ Hka) in Hu.
    apply (dget_In _ _ _ (Hnd _ _ Hu)) in Hv.
    assert (E : adj_get a u v = Some b) by (unfold adj_get; now rewrite Hu).
    apply orb_true_iff.
    apply Hadj in E as [E|E]; [left | right]; apply has_bias_spec; exists b;
      (split; [now apply dget_In | reflexivity]).
Qed.

(** Data that the constructor accepts is valid, provided the two
    arguments are dicts (their keys are pairwise distinct) and the keys
    of [quadratic] are tuples; and the model it returns is valid: its
    adjacency is the symmetric expansion of [quadratic] and has an entry
    for every variable of [linear]. *)
Lemma constructor_establishes_invariants lin quad off token m :
  distinct (keys lin) = true -> distinct (keys quad) = true ->
  forallb (fun k => match k with KTup _ => true | KLabel _ => false end)
          (keys quad) = true ->
  BinaryQuadraticModel_init lin quad off token = Ok m ->
  linear m = lin /\ quadratic m = quad /\ offset m = off
  /\ valid_model m = true.
Proof.
  intros Hl Hq Htup Hinit.
  destruct (normalize_vartype_cases token) as [(vt & Htok)|Htok].
  2:{ unfold BinaryQuadraticModel_init in Hinit. rewrite Htok in Hinit. discriminate. }
  assert (Hint : all_iterable quad = true).
  { unfold all_iterable. rewrite forallb_forall in *. intros k Hk.
    specialize (Htup k Hk). now destruct k. }
  destruct (init_cases lin quad off token vt Htok Hint) as [E|(a & E & Ea)];
    [congruence|].
  assert (Hval : valid_inputs lin quad = true).
  { unfold valid_inputs. rewrite Hl, Hq. simpl. apply forallb_forall.
    intros k Hk. rewrite forallb_forall in Htup. specialize (Htup k Hk).
    destruct (init_checked_keys _ _ _ _ _ E k Hk) as (u & v & Eu).
    destruct k as [[|u' [|v' [|w l]]]|x]; try discriminate.
    injection Eu as -> ->.
    destruct (build_adjacency_fresh _ _ _ _ _ _ Ea Hk eq_refl) as (Huv & _).
    unfold valid_key. rewrite !andb_true_iff, !negb_true_iff. repeat split.
    - destruct (label_eqb_spec u v); congruence.
    - revert E. unfold BinaryQuadraticModel_init, check_quadratic_keys.
      rewrite Htok; simpl.
      destruct (all_in_linear_cases lin (keys quad) Hint) as [X|[X|[X Hall]]];
        rewrite X; simpl; try discriminate. intros _.
      destruct (Hall _ Hk) as (u0 & v0 & [= <- <-] & Hu & _). now apply dmem_keys.
    - revert E. unfold BinaryQuadraticModel_init, check_quadratic_keys.
      rewrite Htok; simpl.
      destruct (all_in_linear_cases lin (keys quad) Hint) as [X|[X|[X Hall]]];
        rewrite X; simpl; try discriminate. intros _.
      destruct (Hall _ Hk) as (u0 & v0 & [= <- <-] & _ & Hv). now apply dmem_keys.
    - apply dmem_false. intros Hrev.
      apply (build_adjacency_no_reverse _ _ _ (KTup [u; v]) (edge v u) u v Ea Hk Hrev);
        [|reflexivity|reflexivity].
      intros [= -> _]. congruence. }
  destruct (init_ok lin quad off token vt Htok Hval) as (a' & E' & Hinv).
  rewrite Hinit in E'. injection E' as ->. simpl.
  repeat split. unfold valid_model; simpl. rewrite Hval. simpl.
  now apply adj_inv_adjacency_of.
Qed.

(* ================================================================= *)
(** * The intermediate labels are new *)

(** The integer labels of [used] that are at least [c]. *)
Definition labels_from (c : Z) (used : list Label) : list Label :=
  filter (fun l => match l with LInt z => (c <=? z)%Z | LStr _ => false end) used.

Lemma labels_from_next c used :
  (List.length (labels_from (c + 1) used) <= List.length (labels_from c used))%nat
  /\ (In (LInt c) used ->
      (List.length (labels_from (c + 1) used) < List.length (labels_from c used))%nat).
Proof.
  unfold labels_from.
  induction used as [|l used [IH1 IH2]]; cbn [filter In List.length];
    [split; [lia | tauto]|].
  destruct l as [z|s].
  - destruct (Z.leb_spec (c + 1) z), (Z.leb_spec c z); cbn [List.length];
      (split; [lia|]); intros [E|Hin];
      try (injection E as E); try (apply IH2 in Hin); lia.
  - split; [lia|]. intros [E|Hin]; [discriminate | now apply IH2].
Qed.

(** The label [next_unused] returns is not in use, whenever the fuel
    covers the integer labels in use from the counter on. *)
Lemma next_unused_fresh (fuel : nat) : forall c used,
  (List.length (labels_from c used) <= fuel)%nat ->
  contains (LInt (fst (next_unused fuel c used))) used = false.
Proof.
  induction fuel as [|fuel IH]; intros c used Hlen; simpl.
  - apply contains_false. intros Hin.
    apply (proj2 (labels_from_next c used)) in Hin. lia.
  - destruct (contains (LInt c) used) eqn:E; [|exact E].
    apply IH. apply contains_In in E.
    apply (proj2 (labels_from_next c used)) in E. lia.
Qed.

Lemma next_unused_fresh_label c used :
  ~ In (LInt (fst (next_unused (List.length used) c used))) used.
Proof.
  apply contains_false, next_unused_fresh. unfold labels_from.
  apply filter_length_le.
Qed.

(* ================================================================= *)
(** * One nested call is all [relabel_variables] makes *)

(** The two mappings of the two-phase relabeling: the first leads from
    old labels to labels that are no old labels, the second from labels
    that are no new labels to new labels. *)
Definition split_inv (olds news : list Label) (st : Z * Mapping * Mapping) : Prop :=
  let '(_, o2i, i2n) := st in
  (forall k, In k (keys o2i) -> In k olds)
  /\ (forall v, In v (values o2i) -> ~ In v olds)
  /\ (forall k, In k (keys i2n) -> ~ In k news)
  /\ (forall v, In v (values i2n) -> In v news).

Lemma split_mapping_inv olds news st old new :
  In old olds -> In new news -> split_inv olds news st ->
  split_inv olds news (split_mapping olds news st (old, new)).
Proof.
  destruct st as [[c o2i] i2n]. intros Hold Hnew (H1 & H2 & H3 & H4).
  unfold split_mapping. destruct (label_eqb old new); [now repeat split|].
  destruct (contains old news || contains new olds) eqn:E.
  - pose proof (next_unused_fresh_label c (news ++ olds)) as Hfresh.
    destruct (next_unused (List.length (news ++ olds)) c (news ++ olds)) as [lbl c'].
    simpl in Hfresh. rewrite in_app_iff in Hfresh. repeat split.
    + intros k Hk. apply In_keys_dset in Hk as [->|Hk]; auto.
    + intros v Hv. apply In_values_dset in Hv as [->|Hv]; [tauto | auto].
    + intros k Hk. apply In_keys_dset in Hk as [->|Hk]; [tauto | auto].
    + intros v Hv. apply In_values_dset in Hv as [->|Hv]; auto.
  - apply orb_false_iff in E as [_ E]. apply contains_false in E. repeat split; auto.
    + intros k Hk. apply In_keys_dset in Hk as [->|Hk]; auto.
    + intros v Hv. apply In_values_dset in Hv as [->|Hv]; auto.
Qed.

Lemma split_mapping_loop_inv olds news (items : Mapping) : forall st,
  (forall old new, In (old, new) items -> In old olds /\ In new news) ->
  split_inv olds news st ->
  split_inv olds news (fold_left (split_mapping olds news) items st).
Proof.
  induction items as [|[old new] items IH]; intros st Hin Hst; [exact Hst|].
  cbn [fold_left]. apply IH.
  - intros o n Hon. apply Hin. now right.
  - destruct (Hin old new (or_introl eq_refl)). now apply split_mapping_inv.
Qed.

Lemma not_shared (mapping : Mapping) :
  (forall k, In k (keys mapping) -> ~ In k (values mapping)) ->
  existsb (fun v => contains v (values mapping)) (keys mapping) = false.
Proof.
  intros Hd. apply not_true_is_false. rewrite existsb_exists.
  intros (k & Hk & E). apply contains_In in E. exact (Hd k Hk E).
Qed.

Lemma relabel_not_shared depth depth' self (mapping : Mapping) copy :
  existsb (fun v => contains v (values mapping)) (keys mapping) = false ->
  relabel_variables_at depth self mapping copy
  = relabel_variables_at depth' self mapping copy.
Proof.
  intros E. destruct depth, depth'; cbn [relabel_variables_at]; rewrite E;
    reflexivity.
Qed.

(** The result of [relabel_variables] does not depend on the depth that
    is left, as soon as one nested call is allowed: the nested calls get
    mappings without shared labels and call no further. *)
Lemma relabel_depth depth depth' self (mapping : Mapping) copy :
  relabel_variables_at (S depth) self mapping copy
  = relabel_variables_at (S depth') self mapping copy.
Proof.
  cbn [relabel_variables_at].
  destruct (label_collision _ _ _); [reflexivity|].
  destruct copy; [reflexivity|].
  destruct (existsb _ (keys mapping)); [|reflexivity].
  pose proof (split_mapping_loop_inv (keys mapping) (values mapping) mapping
                ((2 * Z.of_nat (List.length (linear self)))%Z, [], [])) as Hinv.
  destruct (fold_left _ mapping _) as [[c o2i] i2n].
  destruct Hinv as (H1 & H2 & H3 & H4).
  { intros old new Hin. split.
    - apply (in_map fst) in Hin. exact Hin.
    - apply (in_map snd) in Hin. exact Hin. }
  { simpl. tauto. }
  rewrite (relabel_not_shared depth depth' self o2i false)
    by (apply not_shared; intros k Hk Hv; exact (H2 k Hv (H1 k Hk))).
  destruct (relabel_variables_at depth' self o2i false) as [self1|e];
    cbn [bind]; [|reflexivity].
  rewrite (relabel_not_shared depth depth' self1 i2n false)
    by (apply not_shared; intros k Hk Hv; exact (H3 k Hk (H4 k Hv))).
  reflexivity.
Qed.

(* ================================================================= *)
(** * Length and inequality *)

(** [BinaryQuadraticModel.__len__] *)
Definition __len__ (self : BinaryQuadraticModel) : nat :=
  List.length (linear self).

(** [BinaryQuadraticModel.__ne__] *)
Definition __ne__ (self model : BinaryQuadraticModel) : bool :=
  negb (__eq__ self model).

(* ================================================================= *)
(** * Binary to spin, term by term *)



(* ================================================================= *)
(** * More on what the constructor rejects and accepts *)

Lemma all_in_linear_true lin ks :
  all_in_linear lin ks = Ok true ->
  forall k, In k ks ->
    exists u v, unpack2 k = Ok (u, v) /\ dmem u lin = true /\ dmem v lin = true.
Proof.
  induction ks as [|k0 ks IH]; simpl; [tauto|].
  destruct (unpack2 k0) as [[u v]|e] eqn:E0; simpl; [|discriminate].
  destruct (dmem u lin) eqn:Eu; [|discriminate].
  destruct (dmem v lin) eqn:Ev; [|discriminate]. simpl.
  intros Hall k [<-|Hin]; eauto.
Qed.

Lemma init_endpoints lin quad off token m :
  BinaryQuadraticModel_init lin quad off token = Ok m ->
  forall k, In k (keys quad) ->
    exists u v, unpack2 k = Ok (u, v) /\ dmem u lin = true /\ dmem v lin = true.
Proof.
  unfold BinaryQuadraticModel_init, check_quadratic_keys.
  destruct (normalize_vartype token); simpl; [|discriminate].
  intros Hinit. apply all_in_linear_true.
  destruct (all_in_linear lin (keys quad)) as [[|]|e]; simpl in Hinit;
    [reflexivity | discriminate | discriminate].
Qed.

(** With a vartype that normalizes and a [quadratic] all of whose keys
    are tuples or strings, an interaction one of whose ends is no
    variable of [linear] makes the constructor raise [ValueError]. *)
Theorem constructor_unknown_variable (lin : dict Label Bias)
  (quad : dict PyKey Bias) (off : Bias) (token : VartypeToken) (vt : Vartype)
  (u v : Label) :
  normalize_vartype token = Ok vt ->
  all_iterable quad = true ->
  contains (edge u v) (keys quad) = true ->
  dmem u lin && dmem v lin = false ->
  BinaryQuadraticModel_init lin quad off token = Err ValueError.
Proof.
  intros Htok Hint Hin Hmiss. apply contains_In in Hin.
  destruct (init_cases lin quad off token vt Htok Hint) as [E|(a & E & _)];
    [exact E | exfalso].
  destruct (init_endpoints _ _ _ _ _ E _ Hin) as (u' & v' & [= <- <-] & Hu & Hv).
  rewrite Hu, Hv in Hmiss. discriminate.
Qed.

Lemma constructor_unknown_variable_witness :
  (normalize_vartype (TokEnum BINARY) = Ok BINARY
   /\ all_iterable [(edge (LStr "a") (LInt 1), 1#2)] = true
   /\ contains (edge (LStr "a") (LInt 1)) (keys [(edge (LStr "a") (LInt 1), 1#2)]) = true
   /\ dmem (LStr "a") eleven_variables && dmem (LInt 1) eleven_variables = false)
  /\ BinaryQuadraticModel_init eleven_variables [(edge (LStr "a") (LInt 1), 1#2)]
       0 (TokEnum BINARY) = Err ValueError.
Proof.
  split; [repeat apply conj; vm_compute; reflexivity|].
  apply (constructor_unknown_variable eleven_variables
           [(edge (LStr "a") (LInt 1), 1#2)] 0 (TokEnum BINARY) BINARY
           (LStr "a") (LInt 1)); vm_compute; reflexivity.
Defined.

(** A model the constructor returns for dicts whose [quadratic] keys
    are tuples keeps the arguments as they are and satisfies the
    invariants of the data model: the keys of [quadratic] are pairs of
    distinct variables of [linear], no pair occurs in both orders, and
    the adjacency is the symmetric expansion of [quadratic] with an
    entry for every variable. *)
Theorem constructor_result_valid (lin : dict Label Bias) (quad : dict PyKey Bias)
  (off : Bias) (token : VartypeToken) (m : BinaryQuadraticModel) :
  distinct (keys lin) = true -> distinct (keys quad) = true ->
  forallb (fun k => match k with KTup _ => true | KLabel _ => false end)
          (keys quad) = true ->
  BinaryQuadraticModel_init lin quad off token = Ok m ->
  linear m = lin /\ quadratic m = quad /\ offset m = off
  /\ normalize_vartype token = Ok (vartype m)
  /\ valid_model m = true.
Proof.
  intros Hl Hq Htup Hinit.
  destruct (constructor_establishes_invariants lin quad off token m Hl Hq Htup Hinit)
    as (H1 & H2 & H3 & H4).
  repeat split; try assumption.
  revert Hinit. unfold BinaryQuadraticModel_init.
  destruct (normalize_vartype token) as [vt|e]; simpl; [|discriminate].
  destruct (check_quadratic_keys lin quad); simpl; [|discriminate].
  destruct (for_each add_interaction quad (empty_adj lin)); simpl; [|discriminate].
  now intros [= <-].
Qed.

Lemma constructor_result_valid_witness :
  (distinct (keys (linear spin_example)) = true
   /\ distinct (keys (quadratic spin_example)) = true
   /\ forallb (fun k => match k with KTup _ => true | KLabel _ => false end)
              (keys (quadratic spin_example)) = true
   /\ BinaryQuadraticModel_init (linear spin_example) (quadratic spin_example)
        (offset spin_example) (TokStr "SPIN") = Ok spin_example)
  /\ linear spin_example = linear spin_example
  /\ quadratic spin_example = quadratic spin_example
  /\ offset spin_example = offset spin_example
  /\ normalize_vartype (TokStr "SPIN") = Ok (vartype spin_example)
  /\ valid_model spin_example = true.
Proof.
  split; [repeat apply conj; vm_compute; reflexivity|].
  apply (constructor_result_valid (linear spin_example) (quadratic spin_example)
           (offset spin_example) (TokStr "SPIN") spin_example);
    vm_compute; reflexivity.
Defined.

(* ================================================================= *)
(** * The exported formats carry the energy of the model *)











(* ================================================================= *)
(** * Equality is an equivalence *)

Lemma dict_eqb_spec {K V : Type} `{Hashable K} (veqb : V -> V -> bool)
  (a b : dict K V) :
  dict_eqb veqb a b = true <->
  List.length a = List.length b
  /\ forall k v, In (k, v) a -> exists v', dget k b = Some v' /\ veqb v v' = true.
Proof.
  split.
  - unfold dict_eqb. rewrite andb_true_iff, Nat.eqb_eq, forallb_forall.
    intros [Hlen Hall]. split; [assumption|]. intros k v Hin.
    specialize (Hall _ Hin). simpl in Hall.
    destruct (dget k b) as [v'|]; [eauto | discriminate].
  - intros [Hlen Hall]. now apply dict_eqb_intro.
Qed.

Lemma dict_eqb_trans {K V : Type} `{Hashable K} (veqb : V -> V -> bool)
  (a b c : dict K V) :
  (forall x y z, veqb x y = true -> veqb y z = true -> veqb x z = true) ->
  dict_eqb veqb a b = true -> dict_eqb veqb b c = true ->
  dict_eqb veqb a c = true.
Proof.
  intros Htrans Hab Hbc. apply dict_eqb_spec in Hab as [L1 A1].
  apply dict_eqb_spec in Hbc as [L2 A2]. apply dict_eqb_intro; [congruence|].
  intros k x Hin. destruct (A1 k x Hin) as (y & Ey & Exy).
  destruct (A2 k y (dget_Some_In _ _ _ Ey)) as (z & Ez & Eyz). eauto.
Qed.

Lemma dict_eqb_sym {K V : Type} `{Hashable K} (veqb : V -> V -> bool)
  (a b : dict K V) :
  NoDup (keys a) -> NoDup (keys b) ->
  (forall k x y, In (k, x) a -> In (k, y) b -> veqb x y = true -> veqb y x = true) ->
  dict_eqb veqb a b = true -> dict_eqb veqb b a = true.
Proof.
  intros Ha Hb Hsym Hab. apply dict_eqb_spec in Hab as [Hlen Hall].
  apply dict_eqb_intro; [congruence|].
  assert (Hincl : incl (keys b) (keys a)).
  { apply NoDup_length_incl; [assumption | | ].
    - unfold keys. rewrite !length_map. lia.
    - intros k Hk. apply in_map_iff in Hk as ([k' x] & <- & Hin).
      destruct (Hall _ _ Hin) as (y & Ey & _). simpl.
      eapply In_keys, dget_Some_In; eauto. }
  intros k y Hy. pose proof (Hincl k (In_keys _ _ _ Hy)) as Hk.
  apply dget_keys in Hk as (x & Ex). exists x. split; [assumption|].
  pose proof (dget_Some_In _ _ _ Ex) as Hx.
  destruct (Hall _ _ Hx) as (y' & Ey' & Exy).
  rewrite (dget_In _ _ _ Hb Hy) in Ey'. injection Ey' as <-. eauto.
Qed.

Lemma Qeq_bool_sym x y : Qeq_bool x y = true -> Qeq_bool y x = true.
Proof. rewrite !Qeq_bool_iff. now symmetry. Qed.

Lemma Qeq_bool_trans x y z :
  Qeq_bool x y = true -> Qeq_bool y z = true -> Qeq_bool x z = true.
Proof. rewrite !Qeq_bool_iff. intros -> ->. reflexivity. Qed.

Lemma valid_model_shape m :
  valid_model m = true ->
  NoDup (keys (linear m)) /\ NoDup (keys (adj m))
  /\ forall u nd, dget u (adj m) = Some nd -> NoDup (keys nd).
Proof.
  intros Hval. unfold valid_model in Hval. apply andb_true_iff in Hval as [Hin Hadj].
  apply valid_inputs_spec in Hin as (Hl & _).
  apply adjacency_of_spec in Hadj as (Hnd & _ & Hinner & _). auto.
Qed.

Lemma eq_sym_valid m1 m2 :
  valid_model m1 = true -> valid_model m2 = true ->
  __eq__ m1 m2 = true -> __eq__ m2 m1 = true.
Proof.
  intros H1 H2. apply valid_model_shape in H1 as (Hl1 & Ha1 & Hin1).
  apply valid_model_shape in H2 as (Hl2 & Ha2 & Hin2).
  unfold __eq__. destruct (vartype m1), (vartype m2); simpl; try discriminate;
    rewrite !andb_true_iff; intros [[El Ea] Eo]; repeat split;
    try (apply Qeq_bool_sym; assumption);
    try (apply dict_eqb_sym; try assumption; intros; now apply Qeq_bool_sym);
    (apply dict_eqb_sym; try assumption; intros u x y Hx Hy;
     apply dict_eqb_sym;
     [ apply (Hin1 u); now apply dget_In
     | apply (Hin2 u); now apply dget_In
     | intros; now apply Qeq_bool_sym ]).
Qed.

(** [==] on models is reflexive and symmetric on valid models, and
    transitive on all models. *)
Theorem eq_equivalence :
  (forall m, valid_model m = true -> __eq__ m m = true)
  /\ (forall m1 m2, valid_model m1 = true -> valid_model m2 = true ->
        __eq__ m1 m2 = true -> __eq__ m2 m1 = true)
  /\ (forall m1 m2 m3, __eq__ m1 m2 = true -> __eq__ m2 m3 = true ->
        __eq__ m1 m3 = true).
Proof.
  split; [|split].
  - intros m Hval. apply valid_model_shape in Hval as (Hl & Ha & Hin).
    unfold __eq__. rewrite vartype_eqb_refl, linear_eqb_refl by assumption.
    rewrite neighbors_eqb_refl, Qeq_bool_refl by assumption. reflexivity.
  - exact eq_sym_valid.
  - intros m1 m2 m3. unfold __eq__.
    destruct (vartype m1), (vartype m2), (vartype m3); simpl; try discriminate;
      rewrite !andb_true_iff; intros [[El Ea] Eo] [[El' Ea'] Eo']; repeat split;
      try (eapply Qeq_bool_trans; eassumption);
      try (eapply dict_eqb_trans; [apply Qeq_bool_trans | eassumption | eassumption]);
      (eapply dict_eqb_trans; [|eassumption|eassumption];
       intros x y z; apply dict_eqb_trans; apply Qeq_bool_trans).
Qed.

(** [spin_example] with its interactions written the other way round. *)
Definition spin_example_reversed : BinaryQuadraticModel :=
  mkBQM (linear spin_example)
        [(edge (LInt 1) (LInt 0), 1#2); (edge (LInt 2) (LInt 1), 3#2)]
        (offset spin_example) SPIN (adj spin_example).

Lemma eq_equivalence_witness :
  (valid_model spin_example = true /\ valid_model spin_example_reversed = true
   /\ __eq__ spin_example spin_example_reversed = true)
  /\ __eq__ spin_example spin_example = true
  /\ __eq__ spin_example_reversed spin_example = true
  /\ __eq__ spin_example spin_example = true.
Proof.
  split; [repeat apply conj; vm_compute; reflexivity|]. repeat apply conj.
  - apply (proj1 eq_equivalence spin_example). vm_compute. reflexivity.
  - apply (proj1 (proj2 eq_equivalence) spin_example spin_example_reversed);
      vm_compute; reflexivity.
  - apply (proj2 (proj2 eq_equivalence) spin_example spin_example_reversed
             spin_example); vm_compute; reflexivity.
Defined.

(* ================================================================= *)
(** * Copies and changes of vartype *)

Lemma init_valid lin quad off token vt :
  normalize_vartype token = Ok vt ->
  valid_inputs lin quad = true ->
  exists a, BinaryQuadraticModel_init lin quad off token = Ok (mkBQM lin quad off vt a)
            /\ adj_inv lin quad a
            /\ valid_model (mkBQM lin quad off vt a) = true.
Proof.
  intros Htok Hval. destruct (init_ok lin quad off token vt Htok Hval) as (a & E & Hinv).
  exists a. repeat split; try assumption; try apply Hinv.
  unfold valid_model; simpl. rewrite Hval. simpl. now apply adj_inv_adjacency_of.
Qed.

(** [copy] of a valid model returns a valid model with the same linear
    and quadratic biases, offset and vartype, equal to the model it was
    taken from. *)
Theorem copy_equal (m : BinaryQuadraticModel) :
  valid_model m = true ->
  exists m', copy m = Ok m'
             /\ linear m' = linear m /\ quadratic m' = quadratic m
             /\ offset m' = offset m /\ vartype m' = vartype m
             /\ valid_model m' = true
             /\ __eq__ m' m = true /\ __eq__ m m' = true.
Proof.
  intros Hval. pose proof Hval as Hv. unfold valid_model in Hv.
  apply andb_true_iff in Hv as [Hin Hadj].
  pose proof (valid_inputs_spec _ _ Hin) as (Hl & _).
  destruct m as [lin quad off vt a]; cbn [linear quadratic offset vartype adj] in *.
  destruct (init_valid lin quad off (TokEnum vt) vt eq_refl Hin) as (a' & E & Hinv & Hval').
  exists (mkBQM lin quad off vt a'). unfold copy; simpl.
  assert (Heq : __eq__ (mkBQM lin quad off vt a') (mkBQM lin quad off vt a) = true).
  { unfold __eq__; simpl. rewrite vartype_eqb_refl, linear_eqb_refl by assumption.
    rewrite (adjacency_eqb lin quad a a' Hl Hinv Hadj), Qeq_bool_refl. reflexivity. }
  repeat split; try assumption.
  apply eq_sym_valid; assumption.
Qed.

Lemma copy_equal_witness :
  valid_model spin_example = true
  /\ exists m', copy spin_example = Ok m'
                /\ linear m' = linear spin_example
                /\ quadratic m' = quadratic spin_example
                /\ offset m' = offset spin_example
                /\ vartype m' = vartype spin_example
                /\ valid_model m' = true
                /\ __eq__ m' spin_example = true /\ __eq__ spin_example m' = true.
Proof.
  split; [vm_compute; reflexivity|].
  apply (copy_equal spin_example). vm_compute. reflexivity.
Defined.



(* ================================================================= *)
(** * The round trip gives the coefficients back *)

Lemma incidence_mapped c (f : Q -> Q) v (quad : dict PyKey Bias) :
  (forall k b, In (k, b) quad -> f b == c * b) ->
  total (map (incidence v) (map (fun kb => (fst kb, f (snd kb))) quad))
  == c * total (map (incidence v) quad).
Proof.
  intros Hf. rewrite map_map, <- total_scale. apply total_ext. intros [k j] Hin.
  unfold incidence; simpl. destruct k as [[|a [|b [|w l]]]|l]; try ring.
  pose proof (Hf _ j Hin) as E.
  destruct (label_eqb v a), (label_eqb v b); rewrite ?E; ring.
Qed.

Lemma values_mapped {K : Type} c (f : Q -> Q) (d : dict K Q) :
  (forall k b, In (k, b) d -> f b == c * b) ->
  total (values (map (fun kb => (fst kb, f (snd kb))) d)) == c * total (values d).
Proof.
  intros Hf. unfold values. rewrite map_map, <- total_scale. apply total_ext.
  intros [k j] Hin. simpl. exact (Hf k j Hin).
Qed.

Lemma weighted_ones (lin : dict Label Bias) :
  weighted (fun _ => 1) lin == total (values lin).
Proof.
  unfold weighted, values. apply total_ext. intros [v h] _.
  unfold linear_term; simpl. ring.
Qed.

Lemma endpoint_sum_ones lin (quad : dict PyKey Bias) :
  valid_inputs lin quad = true ->
  total (map (endpoint_sum (fun _ => 1)) quad) == 2 * total (values quad).
Proof.
  intros Hval. unfold values. rewrite <- total_scale. apply total_ext.
  intros [k j] Hin.
  destruct (valid_inputs_endpoints _ _ Hval k (In_keys _ _ _ Hin)) as (u & v & -> & _).
  unfold endpoint_sum; simpl. ring.
Qed.

(** Two conversions whose factors cancel give every linear bias and the
    offset back. *)
Lemma converted_back cl1 ci1 cq1 col1 coq1 cl2 ci2 cq2 col2 coq2
  lin quad off l1 q1 off1 l2 q2 off2 :
  valid_inputs lin quad = true ->
  converted cl1 ci1 cq1 col1 coq1 lin quad off l1 q1 off1 ->
  converted cl2 ci2 cq2 col2 coq2 l1 q1 off1 l2 q2 off2 ->
  cl2 * cl1 == 1 -> cl2 * ci1 + ci2 * cq1 == 0 ->
  col1 + col2 * cl1 == 0 -> coq1 + 2 * col2 * ci1 + coq2 * cq1 == 0 ->
  (forall v h, In (v, h) lin -> exists h2, dget v l2 = Some h2 /\ h2 == h)
  /\ off2 == off.
Proof.
  intros Hval (Hk1 & Hv1 & (f1 & Hq1 & Hf1) & Ho1 & Hx1)
    (Hk2 & Hv2 & _ & Ho2 & Hx2) El Ei Eol Eoq.
  split.
  - intros v h Hin. destruct (Hv1 v h Hin) as (h1 & E1 & Q1).
    destruct (Hv2 v h1 (dget_Some_In _ _ _ E1)) as (h2 & E2 & Q2).
    exists h2. split; [exact E2|].
    rewrite Q2, Q1, Hq1, (incidence_mapped cq1 f1 v quad Hf1).
    set (I := total (map (incidence v) quad)).
    transitivity ((cl2 * cl1) * h + (cl2 * ci1 + ci2 * cq1) * I); [ring|].
    rewrite El, Ei. ring.
  - rewrite Ho2, Ho1, Hq1, (values_mapped cq1 f1 quad Hf1).
    rewrite <- (weighted_ones l1), Hx1, weighted_ones, (endpoint_sum_ones lin) by assumption.
    set (H := total (values lin)). set (J := total (values quad)).
    transitivity (off + (col1 + col2 * cl1) * H
                  + (coq1 + 2 * col2 * ci1 + coq2 * cq1) * J); [ring|].
    rewrite Eol, Eoq. ring.
Qed.

(** And every quadratic bias. *)
Lemma converted_twice cl1 ci1 cq1 col1 coq1 cl2 ci2 cq2 col2 coq2
  lin quad off l1 q1 off1 l2 q2 off2 :
  converted cl1 ci1 cq1 col1 coq1 lin quad off l1 q1 off1 ->
  converted cl2 ci2 cq2 col2 coq2 l1 q1 off1 l2 q2 off2 ->
  cq2 * cq1 == 1 ->
  exists f1 f2 : Q -> Q,
    q2 = map (fun kb => (fst kb, f2 (snd kb)))
             (map (fun kb => (fst kb, f1 (snd kb))) quad)
    /\ forall k b, In (k, b) quad -> f2 (f1 b) == b.
Proof.
  intros (_ & _ & (f1 & Hq1 & Hf1) & _) (_ & _ & (f2 & Hq2 & Hf2) & _) Hc.
  exists f1, f2. split; [now rewrite Hq2, Hq1|].
  intros k b Hin. rewrite (Hf2 k (f1 b)), (Hf1 k b Hin), Qmult_assoc, Hc; [ring|].
  rewrite Hq1. apply (in_map (fun kb => (fst kb, f1 (snd kb)))) in Hin. exact Hin.
Qed.

Lemma In_mapped_twice (f1 f2 : Q -> Q) (quad : dict PyKey Bias) k b' :
  In (k, b') (map (fun kb => (fst kb, f2 (snd kb)))
                  (map (fun kb => (fst kb, f1 (snd kb))) quad))
  <-> exists b, In (k, b) quad /\ b' = f2 (f1 b).
Proof.
  rewrite map_map, in_map_iff. simpl. split.
  - intros ([k0 b] & [= <- <-] & Hin). eauto.
  - intros (b & Hin & ->). exists (k, b). auto.
Qed.

(** An adjacency built over the data of a valid model, with quadratic
    biases that are equal to those of the model as numbers, is equal to
    the adjacency of the model. *)
Lemma adjacency_eqb_back lin quad a lin' (f1 f2 : Q -> Q) a' :
  NoDup (keys lin) -> keys lin' = keys lin ->
  (forall k b, In (k, b) quad -> f2 (f1 b) == b) ->
  adj_inv lin' (map (fun kb => (fst kb, f2 (snd kb)))
                    (map (fun kb => (fst kb, f1 (snd kb))) quad)) a' ->
  adjacency_of lin quad a = true ->
  dict_eqb (dict_eqb Qeq_bool) a' a = true.
Proof.
  intros Hl Hkl Hval (Hk' & Hnd' & Hadj') Ha.
  apply adjacency_of_spec in Ha as (Hnd & Hkeys & Hin & Hfwd & Hback).
  rewrite Hkl in Hk'.
  assert (Hndk' : NoDup (keys a')) by now rewrite Hk'.
  assert (Hto : forall u v b', adj_get a' u v = Some b' ->
                  exists b1, adj_get a u v = Some b1 /\ b1 == b').
  { intros u v b' E. apply Hadj' in E.
    destruct E as [E|E]; apply In_mapped_twice in E as (b & E & ->);
      pose proof (Hval _ _ E) as Hb;
      apply Hfwd in E as [(b1 & E1 & Q1) (b2 & E2 & Q2)];
      eexists; (split; [eassumption|]); rewrite Hb; assumption. }
  assert (Hfrom : forall u v b, adj_get a u v = Some b ->
                    exists b', adj_get a' u v = Some b').
  { intros u v b E. apply Hback in E as (b0 & E & _).
    exists (f2 (f1 b0)). apply Hadj'. rewrite !In_mapped_twice.
    destruct E; [left | right]; eauto. }
  apply dict_eqb_intro.
  - apply same_keys_length; try assumption. intros u. now rewrite Hk'.
  - intros u nd' Hu. apply (dget_In _ _ _ Hndk') in Hu.
    assert (Hua : In u (keys a)).
    { apply Hkeys. rewrite <- Hk'. apply dget_keys. eauto. }
    apply dget_keys in Hua as (nd & Eu). exists nd. split; [exact Eu|].
    apply dict_eqb_intro.
    + apply same_keys_length; [eauto | eauto |].
      intros v. rewrite !dget_keys. split; intros (b & E).
      * destruct (Hto u v b) as (b1 & E1 & _);
          [unfold adj_get; now rewrite Hu|].
        unfold adj_get in E1. rewrite Eu in E1. eauto.
      * destruct (Hfrom u v b) as (b' & E');
          [unfold adj_get; now rewrite Eu|].
        unfold adj_get in E'. rewrite Hu in E'. eauto.
    + intros v b' Hv. apply (dget_In _ _ _ (Hnd' _ _ Hu)) in Hv.
      destruct (Hto u v b') as (b1 & E1 & Q1); [unfold adj_get; now rewrite Hu|].
      unfold adj_get in E1. rewrite Eu in E1. exists b1. split; [exact E1|].
      apply Qeq_bool_iff. now symmetry.
Qed.

Lemma linear_eqb_back (lin l2 : dict Label Bias) :
  NoDup (keys lin) -> keys l2 = keys lin ->
  (forall v h, In (v, h) lin -> exists h2, dget v l2 = Some h2 /\ h2 == h) ->
  dict_eqb Qeq_bool l2 lin = true.
Proof.
  intros Hl Hk Hback. apply dict_eqb_intro.
  - rewrite <- (length_map fst l2), <- (length_map fst lin).
    fold (keys l2). fold (keys lin). now rewrite Hk.
  - intros v x Hin. assert (Hv : In v (keys lin)).
    { rewrite <- Hk. eapply In_keys; eauto. }
    apply dget_keys in Hv as (h & Eh). exists h. split; [exact Eh|].
    destruct (Hback v h (dget_Some_In _ _ _ Eh)) as (h2 & E2 & Q2).
    rewrite (dget_In v x l2) in E2; [|now rewrite Hk | assumption].
    injection E2 as <-. now apply Qeq_bool_iff.
Qed.

(** Where no float operation rounds, the round trip does more than
    keep the energy: a valid model whose biases and offset are multiples
    of [2^-j] with absolute values that sum to less than [2^47] such
    units, converted to the other vartype and back, is equal to the
    model it started from, bias by bias. *)
Theorem change_vartype_round_trip_equal (m : BinaryQuadraticModel)
  (binary spin : VartypeToken) (j : Z) :
  valid_model m = true ->
  small_dyadic j 47 (numbers m) = true ->
  normalize_vartype binary = Ok BINARY ->
  normalize_vartype spin = Ok SPIN ->
  exists m1 m2,
    change_vartype m (match vartype m with SPIN => binary | BINARY => spin end) = Ok m1
    /\ change_vartype m1 (match vartype m with SPIN => spin | BINARY => binary end) = Ok m2
    /\ vartype m1 <> vartype m
    /\ __eq__ m2 m = true.
Proof.
  intros Hval Hsmall HB HS. pose proof Hval as Hv. unfold valid_model in Hv.
  apply andb_true_iff in Hv as [Hin Hadj].
  pose proof (valid_inputs_spec _ _ Hin) as (Hl & _).
  apply small_dyadic_in_range in Hsmall as (Hj & Hr).
  assert (H47 : (2 ^ 53 = 64 * 2 ^ 47)%Z) by reflexivity.
  assert (P47 : (0 < 2 ^ 47)%Z) by reflexivity.
  destruct m as [lin quad off vt a]; cbn [linear quadratic offset vartype adj] in *.
  destruct vt.
  - destruct (change_to_binary lin quad off a binary j _ Hin HB ltac:(lia) Hr ltac:(lia))
      as (l1 & q1 & off1 & a1 & E1 & Hin1 & _ & C1 & Hr1 & _).
    destruct (change_to_spin l1 q1 off1 a1 spin j _ Hin1 HS ltac:(lia) ltac:(lia) Hr1
                ltac:(lia))
      as (l2 & q2 & off2 & a2 & E2 & Hin2 & Hinv2 & C2 & _ & _).
    pose proof C1 as (Hk1 & _). pose proof C2 as (Hk2 & _).
    destruct (converted_back _ _ _ _ _ _ _ _ _ _ _ _ _ _ _ _ _ _ _ Hin C1 C2)
      as (Hlin & Hoff); try reflexivity.
    destruct (converted_twice _ _ _ _ _ _ _ _ _ _ _ _ _ _ _ _ _ _ _ C1 C2)
      as (f1 & f2 & Eq2 & Hf); [reflexivity|].
    exists (mkBQM l1 q1 off1 BINARY a1), (mkBQM l2 q2 off2 SPIN a2).
    split; [exact E1|]. split; [exact E2|]. split; [discriminate|].
    unfold __eq__; simpl.
    rewrite (linear_eqb_back lin l2 Hl) by (congruence || assumption).
    rewrite Eq2 in Hinv2.
    rewrite (adjacency_eqb_back lin quad a l2 f1 f2 a2 Hl) by
      (congruence || assumption).
    simpl. now apply Qeq_bool_iff.
  - destruct (change_to_spin lin quad off a spin j _ Hin HS ltac:(lia) ltac:(lia) Hr
                ltac:(lia))
      as (l1 & q1 & off1 & a1 & E1 & Hin1 & _ & C1 & Hr1 & _).
    destruct (change_to_binary l1 q1 off1 a1 binary (j + 2) _ Hin1 HB ltac:(lia) Hr1
                ltac:(lia))
      as (l2 & q2 & off2 & a2 & E2 & Hin2 & Hinv2 & C2 & _ & _).
    pose proof C1 as (Hk1 & _). pose proof C2 as (Hk2 & _).
    destruct (converted_back _ _ _ _ _ _ _ _ _ _ _ _ _ _ _ _ _ _ _ Hin C1 C2)
      as (Hlin & Hoff); try reflexivity.
    destruct (converted_twice _ _ _ _ _ _ _ _ _ _ _ _ _ _ _ _ _ _ _ C1 C2)
      as (f1 & f2 & Eq2 & Hf); [reflexivity|].
    exists (mkBQM l1 q1 off1 SPIN a1), (mkBQM l2 q2 off2 BINARY a2).
    split; [exact E1|]. split; [exact E2|]. split; [discriminate|].
    unfold __eq__; simpl.
    rewrite (linear_eqb_back lin l2 Hl) by (congruence || assumption).
    rewrite Eq2 in Hinv2.
    rewrite (adjacency_eqb_back lin quad a l2 f1 f2 a2 Hl) by
      (congruence || assumption).
    simpl. now apply Qeq_bool_iff.
Qed.

Lemma change_vartype_round_trip_equal_witness :
  (valid_model quarter_spin_example = true
   /\ valid_model quarter_binary_example = true
   /\ small_dyadic 2 47 (numbers quarter_spin_example) = true
   /\ small_dyadic 2 47 (numbers quarter_binary_example) = true
   /\ normalize_vartype (TokStr "BINARY") = Ok BINARY
   /\ normalize_vartype (TokStr "SPIN") = Ok SPIN)
  /\ (exists m1 m2,
        change_vartype quarter_spin_example (TokStr "BINARY") = Ok m1
        /\ change_vartype m1 (TokStr "SPIN") = Ok m2
        /\ vartype m1 <> vartype quarter_spin_example
        /\ __eq__ m2 quarter_spin_example = true)
  /\ (exists m1 m2,
        change_vartype quarter_binary_example (TokStr "SPIN") = Ok m1
        /\ change_vartype m1 (TokStr "BINARY") = Ok m2
        /\ vartype m1 <> vartype quarter_binary_example
        /\ __eq__ m2 quarter_binary_example = true).
Proof.
  split; [repeat apply conj; vm_compute; reflexivity|]. split.
  - apply (change_vartype_round_trip_equal quarter_spin_example (TokStr "BINARY")
             (TokStr "SPIN") 2); vm_compute; reflexivity.
  - apply (change_vartype_round_trip_equal quarter_binary_example (TokStr "BINARY")
             (TokStr "SPIN") 2); vm_compute; reflexivity.
Defined.

(* ================================================================= *)
(** * Relabeling into a copy *)

(** The key [(u, v)] with both ends relabeled. *)
Definition relabel_key (mapping : Mapping) (k : PyKey) : PyKey :=
  match unpack2 k with
  | Ok (u, v) => edge (relabeled mapping u) (relabeled mapping v)
  | Err _ => k
  end.

Definition inj_on (r : Label -> Label) (vs : list Label) : Prop :=
  forall x y, In x vs -> In y vs -> r x = r y -> x = y.

Lemma values_inj {K V : Type} (d : dict K V) k1 k2 x :
  NoDup (values d) -> In (k1, x) d -> In (k2, x) d -> k1 = k2.
Proof.
  induction d as [|[k v] d IH]; simpl; [tauto|].
  intros Hnd. inversion Hnd as [|? ? Hn Hnd']; subst.
  intros [E1|H1] [E2|H2].
  - congruence.
  - exfalso. apply Hn. injection E1 as _ ->.
    apply (in_map snd) in H2. exact H2.
  - exfalso. apply Hn. injection E2 as _ ->.
    apply (in_map snd) in H1. exact H1.
  - now apply IH.
Qed.

Lemma label_collision_false lin (mapping : Mapping) :
  label_collision lin (keys mapping) (values mapping) = false ->
  forall v, In v (values mapping) -> In v (keys lin) -> In v (keys mapping).
Proof.
  unfold label_collision. intros Hc v Hv Hl.
  destruct (contains v (keys mapping)) eqn:E; [now apply contains_In|].
  exfalso. apply not_true_iff_false in Hc. apply Hc.
  apply existsb_exists. exists v. split; [assumption|].
  rewrite (proj2 (dmem_keys v lin) Hl), E. reflexivity.
Qed.

Lemma relabeled_mapped (mapping : Mapping) v :
  In v (keys mapping) -> In (v, relabeled mapping v) mapping.
Proof.
  intros Hv. apply dget_keys in Hv as (n & E). unfold relabeled. rewrite E.
  now apply dget_Some_In.
Qed.

Lemma relabeled_unmapped (mapping : Mapping) v :
  ~ In v (keys mapping) -> relabeled mapping v = v.
Proof.
  intros Hv. unfold relabeled. apply dget_None in Hv. now rewrite Hv.
Qed.

Lemma In_keys_dec {V : Type} (d : dict Label V) v :
  In v (keys d) \/ ~ In v (keys d).
Proof.
  destruct (dmem v d) eqn:E; [left; now apply dmem_keys | right; now apply dmem_false].
Qed.

(** An injective mapping that passes the collision check relabels the
    variables of the model injectively. *)
Lemma relabeled_inj lin (mapping : Mapping) :
  NoDup (values mapping) ->
  label_collision lin (keys mapping) (values mapping) = false ->
  inj_on (relabeled mapping) (keys lin).
Proof.
  intros Hnd Hc x y Hx Hy E.
  pose proof (label_collision_false _ _ Hc) as Hcol.
  destruct (In_keys_dec mapping x) as [Mx|Mx], (In_keys_dec mapping y) as [My|My].
  - apply relabeled_mapped in Mx, My. rewrite E in Mx.
    exact (values_inj _ _ _ _ Hnd Mx My).
  - exfalso. apply My. rewrite (relabeled_unmapped _ _ My) in E. subst y.
    apply Hcol; [|assumption]. apply relabeled_mapped in Mx.
    apply (in_map snd) in Mx. exact Mx.
  - exfalso. apply Mx. rewrite (relabeled_unmapped _ _ Mx) in E. subst x.
    apply Hcol; [|assumption]. apply relabeled_mapped in My.
    apply (in_map snd) in My. exact My.
  - now rewrite (relabeled_unmapped _ _ Mx), (relabeled_unmapped _ _ My) in E.
Qed.

Lemma valid_inputs_intro lin quad :
  NoDup (keys lin) -> NoDup (keys quad) ->
  (forall k, In k (keys quad) ->
     exists u v, k = edge u v /\ u <> v /\ In u (keys lin) /\ In v (keys lin)
                 /\ ~ In (edge v u) (keys quad)) ->
  valid_inputs lin quad = true.
Proof.
  intros Hl Hq Hk. unfold valid_inputs.
  rewrite !andb_true_iff, !distinct_NoDup, forallb_forall. repeat split; try assumption.
  intros k Hin. destruct (Hk k Hin) as (u & v & -> & Huv & Hu & Hv & Hrev).
  unfold valid_key, edge. rewrite !andb_true_iff, !negb_true_iff. repeat split.
  - destruct (label_eqb_spec u v); congruence.
  - now apply dmem_keys.
  - now apply dmem_keys.
  - now apply dmem_false.
Qed.

Lemma relabeled_quadratic_ok mapping (items : dict PyKey Bias) : forall acc,
  (forall k, In k (keys items) -> exists u v, k = edge u v) ->
  NoDup (keys (acc ++ map (fun kb => (relabel_key mapping (fst kb), snd kb)) items)) ->
  for_each (fun acc (item : PyKey * Bias) =>
              let (k, bias) := item in
              '(u, v) <- unpack2 k ;;
              Ok (dset (edge (relabeled mapping u) (relabeled mapping v)) bias acc))
           items acc
  = Ok (acc ++ map (fun kb => (relabel_key mapping (fst kb), snd kb)) items).
Proof.
  induction items as [|[k j] items IH]; intros acc Hk Hnd.
  - simpl. now rewrite app_nil_r.
  - destruct (Hk k (or_introl eq_refl)) as (u & v & ->).
    cbn [for_each unpack2 edge bind map fst snd] in *.
    change (relabel_key mapping (KTup [u; v]))
      with (edge (relabeled mapping u) (relabeled mapping v)) in *.
    rewrite dset_absent.
    + rewrite IH.
      * now rewrite <- app_assoc.
      * intros k Hin. apply Hk. now right.
      * now rewrite <- app_assoc.
    + apply dmem_false. rewrite keys_app in Hnd. simpl in Hnd.
      apply NoDup_remove_2 in Hnd. intros Hin. apply Hnd.
      apply in_or_app. now left.
Qed.

(** The data of the relabeled copy. *)
Definition relabel_items (mapping : Mapping) (lin : dict Label Bias)
  : dict Label Bias :=
  map (fun vb => (relabeled mapping (fst vb), snd vb)) lin.

Definition relabel_interactions (mapping : Mapping) (quad : dict PyKey Bias)
  : dict PyKey Bias :=
  map (fun kb => (relabel_key mapping (fst kb), snd kb)) quad.

Lemma keys_relabel_items mapping lin :
  keys (relabel_items mapping lin) = map (relabeled mapping) (keys lin).
Proof. unfold relabel_items, keys. now rewrite !map_map. Qed.

Lemma keys_relabel_interactions mapping quad :
  keys (relabel_interactions mapping quad) = map (relabel_key mapping) (keys quad).
Proof. unfold relabel_interactions, keys. now rewrite !map_map. Qed.

Lemma relabel_valid_inputs mapping lin quad :
  valid_inputs lin quad = true ->
  inj_on (relabeled mapping) (keys lin) ->
  valid_inputs (relabel_items mapping lin) (relabel_interactions mapping quad) = true.
Proof.
  intros Hval Hinj. apply valid_inputs_spec in Hval as (Hl & Hq & Hk).
  assert (Hkey : forall k k', In k (keys quad) -> In k' (keys quad) ->
                   relabel_key mapping k = relabel_key mapping k' -> k = k').
  { intros k k' Hin Hin'.
    destruct (Hk k Hin) as (u & v & -> & _ & Hu & Hv & _).
    destruct (Hk k' Hin') as (u' & v' & -> & _ & Hu' & Hv' & _).
    unfold relabel_key; simpl. intros [= Eu Ev].
    now rewrite (Hinj _ _ Hu Hu' Eu), (Hinj _ _ Hv Hv' Ev). }
  apply valid_inputs_intro.
  - rewrite keys_relabel_items. now apply NoDup_map_on.
  - rewrite keys_relabel_interactions. now apply NoDup_map_on.
  - intros k' Hin'. rewrite keys_relabel_interactions in Hin'.
    apply in_map_iff in Hin' as (k & <- & Hin).
    destruct (Hk k Hin) as (u & v & -> & Huv & Hu & Hv & Hrev).
    exists (relabeled mapping u), (relabeled mapping v).
    split; [reflexivity|]. rewrite keys_relabel_items, keys_relabel_interactions.
    repeat split.
    + intros E. apply Huv. now apply Hinj.
    + now apply in_map.
    + now apply in_map.
    + intros Hin2. apply in_map_iff in Hin2 as (k2 & E2 & Hin2).
      destruct (Hk k2 Hin2) as (u2 & v2 & -> & _ & Hu2 & Hv2 & _).
      unfold relabel_key in E2; simpl in E2. injection E2 as Eu Ev.
      apply Hinj in Eu, Ev; try assumption. subst. contradiction.
Qed.

Lemma relabel_copy_ok depth mapping lin quad off vt a :
  valid_inputs lin quad = true ->
  label_collision lin (keys mapping) (values mapping) = false ->
  inj_on (relabeled mapping) (keys lin) ->
  exists a',
    relabel_variables_at depth (mkBQM lin quad off vt a) mapping true
    = Ok (mkBQM (relabel_items mapping lin) (relabel_interactions mapping quad)
                off vt a')
    /\ adj_inv (relabel_items mapping lin) (relabel_interactions mapping quad) a'
    /\ valid_model (mkBQM (relabel_items mapping lin)
                          (relabel_interactions mapping quad) off vt a') = true.
Proof.
  intros Hval Hc Hinj.
  pose proof (relabel_valid_inputs mapping lin quad Hval Hinj) as Hval'.
  pose proof (valid_inputs_spec _ _ Hval') as (Hl' & Hq' & _).
  destruct (init_valid _ _ off (TokEnum vt) vt eq_refl Hval') as (a' & E & Hinv & Hvm).
  exists a'. split; [|split; assumption].
  assert (Hstep : relabel_variables_at depth (mkBQM lin quad off vt a) mapping true
                  = (quad' <- relabeled_quadratic mapping quad ;;
                     BinaryQuadraticModel_init (relabeled_linear mapping lin) quad'
                       off (TokEnum vt))).
  { destruct depth; cbn [relabel_variables_at linear quadratic offset vartype];
      rewrite Hc; reflexivity. }
  rewrite Hstep. unfold relabeled_quadratic, relabeled_linear.
  rewrite (relabeled_quadratic_ok mapping quad []).
  - cbn [bind app]. fold (relabel_items mapping lin).
    rewrite dict_of_items_distinct by assumption. exact E.
  - intros k Hk. destruct (valid_inputs_endpoints _ _ Hval k Hk) as (u & v & Ek & _).
    eauto.
  - exact Hq'.
Qed.

Lemma relabel_energy mapping (lin : dict Label Bias) quad off x :
  (forall k, In k (keys quad) -> exists u v, k = edge u v) ->
  energy_formula (relabel_items mapping lin) (relabel_interactions mapping quad) off x
  == energy_formula lin quad off (fun v => x (relabeled mapping v)).
Proof.
  intros Hk. unfold energy_formula, relabel_items, relabel_interactions.
  rewrite !map_map.
  rewrite (total_ext (fun kb => quadratic_term x (relabel_key mapping (fst kb), snd kb))
                     (quadratic_term (fun v => x (relabeled mapping v)))).
  - reflexivity.
  - intros [k j] Hin. destruct (Hk k (In_keys _ _ _ Hin)) as (u & v & ->).
    reflexivity.
Qed.

(** [relabel_variables] on a valid model and a mapping with pairwise
    different new labels.  When a new label names a variable that the
    mapping does not rename, the call raises [ValueError], with
    [copy=True] and with [copy=False].  Otherwise [copy=True] returns a
    valid model with every label of [linear] and of the keys of
    [quadratic] replaced, the biases, the offset, the vartype and the
    number of variables unchanged, and with the energy of the model at
    the assignment pulled back along the mapping. *)
Theorem relabel_copy_result (m : BinaryQuadraticModel) (mapping : Mapping) :
  valid_model m = true ->
  distinct (values mapping) = true ->
  (label_collision (linear m) (keys mapping) (values mapping) = true ->
   forall copy, relabel_variables m mapping copy = Err ValueError)
  /\ (label_collision (linear m) (keys mapping) (values mapping) = false ->
      exists m',
        relabel_variables m mapping true = Ok m'
        /\ linear m' = relabel_items mapping (linear m)
        /\ quadratic m' = relabel_interactions mapping (quadratic m)
        /\ offset m' = offset m /\ vartype m' = vartype m
        /\ __len__ m' = __len__ m
        /\ valid_model m' = true
        /\ forall x, energy_formula (linear m') (quadratic m') (offset m') x
                     == energy_formula (linear m) (quadratic m) (offset m)
                                       (fun v => x (relabeled mapping v))).
Proof.
  intros Hval Hd. split.
  - intros Hc copy. unfold relabel_variables. generalize recursion_limit.
    intros depth. destruct depth; cbn [relabel_variables_at]; now rewrite Hc.
  - intros Hc. apply valid_model_inputs in Hval. apply distinct_NoDup in Hd.
    destruct m as [lin quad off vt a]; cbn [linear quadratic offset vartype] in *.
    destruct (relabel_copy_ok recursion_limit mapping lin quad off vt a Hval Hc
                (relabeled_inj lin mapping Hd Hc)) as (a' & E & _ & Hvm).
    eexists. split; [exact E|]. cbn [linear quadratic offset vartype].
    repeat split; try assumption.
    + unfold __len__, relabel_items; simpl. apply length_map.
    + intros x. apply relabel_energy. intros k Hk.
      destruct (valid_inputs_endpoints _ _ Hval k Hk) as (u & v & Ek & _). eauto.
Qed.

(** The mapping [{0: 'a', 1: 'b'}] of the test suite. *)
Definition to_letters : Mapping := [(LInt 0, LStr "a"); (LInt 1, LStr "b")].

(** A mapping that sends 0 to the name of the variable 2. *)
Definition onto_2 : Mapping := [(LInt 0, LInt 2)].

Lemma relabel_copy_result_witness :
  (valid_model spin_example = true
   /\ distinct (values to_letters) = true /\ distinct (values onto_2) = true
   /\ label_collision (linear spin_example) (keys onto_2) (values onto_2) = true
   /\ label_collision (linear spin_example) (keys to_letters) (values to_letters)
      = false)
  /\ (forall copy, relabel_variables spin_example onto_2 copy = Err ValueError)
  /\ exists m',
       relabel_variables spin_example to_letters true = Ok m'
       /\ linear m' = relabel_items to_letters (linear spin_example)
       /\ quadratic m' = relabel_interactions to_letters (quadratic spin_example)
       /\ offset m' = offset spin_example /\ vartype m' = vartype spin_example
       /\ __len__ m' = __len__ spin_example
       /\ valid_model m' = true
       /\ forall x, energy_formula (linear m') (quadratic m') (offset m') x
                    == energy_formula (linear spin_example) (quadratic spin_example)
                                      (offset spin_example)
                                      (fun v => x (relabeled to_letters v)).
Proof.
  split; [repeat apply conj; vm_compute; reflexivity|]. split.
  - apply (proj1 (relabel_copy_result spin_example onto_2 eq_refl eq_refl)).
    vm_compute. reflexivity.
  - apply (proj2 (relabel_copy_result spin_example to_letters eq_refl eq_refl)).
    vm_compute. reflexivity.
Defined.

(* ================================================================= *)
(** * Relabeling and relabeling back, into copies *)

Lemma label_collision_intro lin (mapping : Mapping) :
  (forall v, In v (values mapping) -> In v (keys lin) -> In v (keys mapping)) ->
  label_collision lin (keys mapping) (values mapping) = false.
Proof.
  intros Hc. unfold label_collision. apply not_true_is_false.
  rewrite existsb_exists. intros (v & Hv & E).
  apply andb_true_iff in E as [E1 E2]. apply negb_true_iff, contains_false in E2.
  apply E2, Hc; [assumption | now apply dmem_keys].
Qed.

Lemma inverse_mapping_distinct (mapping : Mapping) :
  NoDup (values mapping) ->
  inverse_mapping mapping = map (fun on => (snd on, fst on)) mapping.
Proof.
  intros Hnd. apply dict_of_items_distinct.
  unfold keys. rewrite map_map. exact Hnd.
Qed.

Section Inverse.
Variables (lin : dict Label Bias) (mapping : Mapping).
Hypothesis values_distinct : NoDup (values mapping).
Hypothesis no_collision :
  label_collision lin (keys mapping) (values mapping) = false.

Let inv : Mapping := map (fun on => (snd on, fst on)) mapping.

Lemma keys_inverse : keys inv = values mapping.
Proof. unfold inv, keys, values. now rewrite map_map. Qed.

Lemma values_inverse : values inv = keys mapping.
Proof. unfold inv, keys, values. now rewrite map_map. Qed.

Lemma relabeled_back v :
  In v (keys lin) -> relabeled inv (relabeled mapping v) = v.
Proof.
  intros Hv. destruct (In_keys_dec mapping v) as [Mv|Mv].
  - pose proof (relabeled_mapped _ _ Mv) as Hin.
    unfold relabeled at 1.
    rewrite (dget_In (relabeled mapping v) v inv); [reflexivity | |].
    + now rewrite keys_inverse.
    + unfold inv. apply in_map_iff. exists (v, relabeled mapping v). auto.
  - rewrite (relabeled_unmapped _ _ Mv). apply relabeled_unmapped.
    rewrite keys_inverse. intros Hval. apply Mv.
    exact (label_collision_false _ _ no_collision v Hval Hv).
Qed.

Lemma inverse_no_collision :
  label_collision (relabel_items mapping lin) (keys inv) (values inv) = false.
Proof.
  apply label_collision_intro. rewrite keys_inverse, values_inverse.
  intros o Ho Hin. rewrite keys_relabel_items in Hin.
  apply in_map_iff in Hin as (w & <- & Hw).
  destruct (In_keys_dec mapping w) as [Mw|Mw].
  - apply relabeled_mapped in Mw. apply (in_map snd) in Mw. exact Mw.
  - rewrite (relabeled_unmapped _ _ Mw) in Ho. contradiction.
Qed.

Lemma inverse_inj : inj_on (relabeled inv) (keys (relabel_items mapping lin)).
Proof.
  intros x y Hx Hy E. rewrite keys_relabel_items in Hx, Hy.
  apply in_map_iff in Hx as (a & <- & Ha). apply in_map_iff in Hy as (b & <- & Hb).
  rewrite !relabeled_back in E by assumption. now subst.
Qed.

Lemma relabel_items_back :
  relabel_items inv (relabel_items mapping lin) = lin.
Proof.
  unfold relabel_items. rewrite map_map. rewrite <- (map_id lin) at 2.
  apply map_ext_in. intros [v h] Hin. simpl.
  now rewrite relabeled_back by (eapply In_keys; eauto).
Qed.

Lemma relabel_interactions_back (quad : dict PyKey Bias) :
  valid_inputs lin quad = true ->
  relabel_interactions inv (relabel_interactions mapping quad) = quad.
Proof.
  intros Hval. unfold relabel_interactions. rewrite map_map.
  rewrite <- (map_id quad) at 2. apply map_ext_in. intros [k j] Hin. simpl.
  destruct (valid_inputs_endpoints _ _ Hval k (In_keys _ _ _ Hin))
    as (u & v & -> & Hu & Hv).
  unfold relabel_key; simpl. now rewrite !relabeled_back by assumption.
Qed.
End Inverse.

(** With [copy=True], relabeling a valid model by a mapping with
    pairwise different new labels that passes the collision check, and
    relabeling the result by the inverse mapping, succeeds twice and
    gives a model equal to the one it started from. *)
Theorem relabel_copy_inverse (m : BinaryQuadraticModel) (mapping : Mapping) :
  valid_model m = true ->
  distinct (values mapping) = true ->
  label_collision (linear m) (keys mapping) (values mapping) = false ->
  exists m1 m2,
    relabel_variables m mapping true = Ok m1
    /\ relabel_variables m1 (inverse_mapping mapping) true = Ok m2
    /\ __eq__ m2 m = true.
Proof.
  intros Hval Hd Hc. pose proof Hval as Hv. unfold valid_model in Hv.
  apply andb_true_iff in Hv as [Hin Hadj]. apply distinct_NoDup in Hd.
  pose proof (valid_inputs_spec _ _ Hin) as (Hl & _).
  destruct m as [lin quad off vt a]; cbn [linear quadratic offset vartype adj] in *.
  pose proof (relabeled_inj lin mapping Hd Hc) as Hinj.
  destruct (relabel_copy_ok recursion_limit mapping lin quad off vt a Hin Hc Hinj)
    as (a1 & E1 & _ & _).
  pose proof (relabel_valid_inputs mapping lin quad Hin Hinj) as Hin1.
  rewrite (inverse_mapping_distinct _ Hd).
  destruct (relabel_copy_ok recursion_limit
              (map (fun on => (snd on, fst on)) mapping)
              (relabel_items mapping lin) (relabel_interactions mapping quad)
              off vt a1 Hin1
              (inverse_no_collision lin mapping)
              (inverse_inj lin mapping Hd Hc))
    as (a2 & E2 & Hinv2 & _).
  rewrite (relabel_items_back lin mapping Hd Hc) in E2, Hinv2.
  rewrite (relabel_interactions_back lin mapping Hd Hc quad Hin) in E2, Hinv2.
  eexists. eexists. split; [exact E1|]. split; [exact E2|].
  unfold __eq__; simpl. rewrite vartype_eqb_refl, linear_eqb_refl by assumption.
  rewrite (adjacency_eqb lin quad a a2 Hl Hinv2 Hadj), Qeq_bool_refl. reflexivity.
Qed.

(** The cyclic mapping [{0: 1, 1: 2, 2: 0}]. *)
Definition cycle_0_1_2 : Mapping :=
  [(LInt 0, LInt 1); (LInt 1, LInt 2); (LInt 2, LInt 0)].

Lemma relabel_copy_inverse_witness :
  (valid_model spin_example = true
   /\ distinct (values cycle_0_1_2) = true
   /\ label_collision (linear spin_example) (keys cycle_0_1_2) (values cycle_0_1_2)
      = false)
  /\ exists m1 m2,
       relabel_variables spin_example cycle_0_1_2 true = Ok m1
       /\ relabel_variables m1 (inverse_mapping cycle_0_1_2) true = Ok m2
       /\ __eq__ m2 spin_example = true.
Proof.
  split; [repeat apply conj; vm_compute; reflexivity|].
  apply (relabel_copy_inverse spin_example cycle_0_1_2); vm_compute; reflexivity.
Defined.

(* ================================================================= *)
(** * The two mappings of the two-phase relabeling *)

Lemma next_unused_bounds (fuel : nat) : forall c used,
  (c <= fst (next_unused fuel c used))%Z
  /\ snd (next_unused fuel c used) = (fst (next_unused fuel c used) + 1)%Z.
Proof.
  induction fuel as [|fuel IH]; intros c used; simpl.
  - split; [lia | reflexivity].
  - destruct (contains (LInt c) used).
    + destruct (IH (c + 1)%Z used) as [H1 H2]. split; [lia | assumption].
    + simpl. split; [lia | reflexivity].
Qed.

(** The state of the loop that splits the mapping, once the entries
    [done] are through. *)
Definition split_state (olds news : list Label) (done : Mapping)
  (st : Z * Mapping * Mapping) : Prop :=
  let '(c, o2i, i2n) := st in
  (forall k, In k (keys o2i) -> In k (keys done))
  /\ (forall v, In v (values o2i) -> In v news \/ In v (keys i2n))
  /\ (forall k, In k (keys i2n) ->
        ~ In k olds /\ ~ In k news /\ exists z, k = LInt z /\ (z < c)%Z)
  /\ (forall old new, In (old, new) done ->
        relabeled i2n (relabeled o2i old) = new).

Lemma relabeled_dset_same (mapping : Mapping) k v :
  relabeled (dset k v mapping) k = v.
Proof. unfold relabeled. now rewrite dget_dset_same. Qed.

Lemma relabeled_dset_other (mapping : Mapping) k v x :
  k <> x -> relabeled (dset k v mapping) x = relabeled mapping x.
Proof. intros Hne. unfold relabeled. now rewrite dget_dset_other. Qed.

Lemma relabeled_value (mapping : Mapping) x :
  relabeled mapping x = x \/ In (relabeled mapping x) (values mapping).
Proof.
  unfold relabeled. destruct (dget x mapping) as [v|] eqn:E; [right | now left].
  apply dget_Some_In in E. apply (in_map snd) in E. exact E.
Qed.

Lemma split_state_step olds news done st old new :
  In old olds -> In new news -> ~ In old (keys done) ->
  (forall k, In k (keys done) -> In k olds) ->
  split_state olds news done st ->
  split_state olds news (done ++ [(old, new)])
              (split_mapping olds news st (old, new)).
Proof.
  destruct st as [[c o2i] i2n]. intros Hold Hnew Hfresh Hdone (H1 & H2 & H3 & H4).
  assert (Ho : ~ In old (keys o2i)) by (intros Hin; apply Hfresh; auto).
  assert (Hoi : ~ In old (keys i2n)) by (intros Hin; apply H3 in Hin; tauto).
  assert (Hni : ~ In new (keys i2n)) by (intros Hin; apply H3 in Hin; tauto).
  assert (Hkeys : forall k (x : Label) (d : Mapping),
             (forall k', In k' (keys d) -> In k' (keys done)) ->
             forall k', In k' (keys (dset k x d)) ->
                        k = old -> In k' (keys (done ++ [(old, new)]))).
  { intros k x d Hd k' Hk' ->. rewrite keys_app. apply in_or_app.
    apply In_keys_dset in Hk' as [->|Hk']; [right; now left | left; auto]. }
  unfold split_mapping. destruct (label_eqb_spec old new) as [<-|Hne].
  { split; [|split; [|split]].
    - intros k Hk. rewrite keys_app. apply in_or_app. left. auto.
    - assumption.
    - assumption.
    - intros o n Hin. apply in_app_or in Hin as [Hin|[[= <- <-]|[]]]; [auto|].
      rewrite (relabeled_unmapped o2i old Ho). now apply relabeled_unmapped. }
  destruct (contains old news || contains new olds).
  - pose proof (next_unused_fresh_label c (news ++ olds)) as Hlbl.
    pose proof (next_unused_bounds (List.length (news ++ olds)) c (news ++ olds))
      as [Hge Hnext].
    destruct (next_unused (List.length (news ++ olds)) c (news ++ olds)) as [lbl c'].
    simpl in Hlbl, Hge, Hnext. rewrite in_app_iff in Hlbl. subst c'.
    assert (Hli : ~ In (LInt lbl) (keys i2n)).
    { intros Hin. apply H3 in Hin as (_ & _ & z & [= ->] & Hz). lia. }
    split; [|split; [|split]].
    + intros k Hk. now apply (Hkeys old (LInt lbl) o2i H1).
    + intros v Hv. apply In_values_dset in Hv as [->|Hv].
      * right. apply In_keys_dset. now left.
      * destruct (H2 v Hv) as [?|?]; [now left|]. right. apply In_keys_dset. now right.
    + intros k Hk. apply In_keys_dset in Hk as [->|Hk].
      * split; [tauto|]. split; [tauto|]. exists lbl. split; [reflexivity | lia].
      * destruct (H3 k Hk) as (Ha & Hb & z & -> & Hz).
        split; [assumption|]. split; [assumption|].
        exists z. split; [reflexivity | lia].
    + intros o n Hin. apply in_app_or in Hin as [Hin|[[= <- <-]|[]]].
      * assert (Hoo : old <> o).
        { intros <-. apply Hfresh. eapply In_keys; eauto. }
        rewrite (relabeled_dset_other o2i old (LInt lbl) o Hoo).
        rewrite relabeled_dset_other; [now apply H4|].
        destruct (relabeled_value o2i o) as [E|Hv].
        -- rewrite E. intros <-. apply Hlbl. right.
           apply Hdone. eapply In_keys; eauto.
        -- intros E. rewrite <- E in Hv.
           destruct (H2 _ Hv) as [Hn|Hk]; tauto.
      * now rewrite !relabeled_dset_same.
  - split; [|split; [|split]].
    + intros k Hk. now apply (Hkeys old new o2i H1).
    + intros v Hv. apply In_values_dset in Hv as [->|Hv]; [now left | auto].
    + assumption.
    + intros o n Hin. apply in_app_or in Hin as [Hin|[[= <- <-]|[]]].
      * assert (Hoo : old <> o).
        { intros <-. apply Hfresh. eapply In_keys; eauto. }
        rewrite (relabeled_dset_other o2i old new o Hoo). now apply H4.
      * rewrite relabeled_dset_same. now apply relabeled_unmapped.
Qed.

Lemma split_state_loop olds news (items : Mapping) : forall done st,
  NoDup (keys (done ++ items)) ->
  (forall old new, In (old, new) (done ++ items) -> In old olds /\ In new news) ->
  split_state olds news done st ->
  split_state olds news (done ++ items)
              (fold_left (split_mapping olds news) items st).
Proof.
  induction items as [|[old new] items IH]; intros done st Hnd Hin Hst.
  - now rewrite app_nil_r.
  - cbn [fold_left].
    replace (done ++ (old, new) :: items) with ((done ++ [(old, new)]) ++ items) in *
      by (rewrite <- app_assoc; reflexivity).
    apply IH; [assumption | assumption |].
    destruct (Hin old new) as [Hold Hnew].
    { apply in_or_app. left. apply in_or_app. right. now left. }
    apply split_state_step; try assumption.
    + rewrite !keys_app in Hnd. simpl in Hnd. rewrite <- app_assoc in Hnd.
      simpl in Hnd. apply NoDup_remove_2 in Hnd. intros Hk. apply Hnd.
      apply in_or_app. now left.
    + intros k Hk. unfold keys in Hk. apply in_map_iff in Hk as ([o n] & <- & Hon).
      apply (Hin o n). apply in_or_app. left. apply in_or_app. now left.
Qed.

(** The loop over [iteritems(mapping)] that prepares the two-phase
    relabeling, started with any counter: neither of the two mappings
    it builds has a label that is both old and new, the intermediate
    labels are neither old nor new labels of the mapping, and relabeling
    by the first and then by the second mapping sends every old label to
    its new label. *)
Theorem two_phase_split (mapping : Mapping) (counter : Z) :
  distinct (keys mapping) = true ->
  let '(_, old_to_intermediate, intermediate_to_new) :=
    fold_left (split_mapping (keys mapping) (values mapping)) mapping
              (counter, [], []) in
  existsb (fun v => contains v (values old_to_intermediate))
          (keys old_to_intermediate) = false
  /\ existsb (fun v => contains v (values intermediate_to_new))
             (keys intermediate_to_new) = false
  /\ (forall lbl, In lbl (keys intermediate_to_new) ->
        ~ In lbl (keys mapping) /\ ~ In lbl (values mapping))
  /\ (forall old new, In (old, new) mapping ->
        relabeled intermediate_to_new (relabeled old_to_intermediate old) = new).
Proof.
  intros Hd. apply distinct_NoDup in Hd.
  assert (Hin : forall old new, In (old, new) mapping ->
                  In old (keys mapping) /\ In new (values mapping)).
  { intros old new H. split.
    - apply (in_map fst) in H. exact H.
    - apply (in_map snd) in H. exact H. }
  pose proof (split_mapping_loop_inv (keys mapping) (values mapping) mapping
                (counter, [], []) Hin) as Hinv.
  pose proof (split_state_loop (keys mapping) (values mapping) mapping []
                (counter, [], []) Hd Hin) as Hst.
  destruct (fold_left _ mapping _) as [[c o2i] i2n].
  destruct Hinv as (A1 & A2 & A3 & A4); [simpl; tauto|].
  destruct Hst as (B1 & B2 & B3 & B4).
  { simpl. repeat split; intros; try contradiction. }
  repeat split.
  - apply not_shared. intros k Hk Hv. exact (A2 k Hv (A1 k Hk)).
  - apply not_shared. intros k Hk Hv. exact (A3 k Hk (A4 k Hv)).
  - apply B3 in H. tauto.
  - apply B3 in H. tauto.
  - intros old new H. now apply B4.
Qed.

Lemma two_phase_split_witness :
  distinct (keys cycle_0_1_2) = true
  /\ let '(_, old_to_intermediate, intermediate_to_new) :=
       fold_left (split_mapping (keys cycle_0_1_2) (values cycle_0_1_2)) cycle_0_1_2
                 (1%Z, [], []) in
     existsb (fun v => contains v (values old_to_intermediate))
             (keys old_to_intermediate) = false
     /\ existsb (fun v => contains v (values intermediate_to_new))
                (keys intermediate_to_new) = false
     /\ (forall lbl, In lbl (keys intermediate_to_new) ->
           ~ In lbl (keys cycle_0_1_2) /\ ~ In lbl (values cycle_0_1_2))
     /\ (forall old new, In (old, new) cycle_0_1_2 ->
           relabeled intermediate_to_new (relabeled old_to_intermediate old) = new).
Proof.
  split; [vm_compute; reflexivity|].
  apply (two_phase_split cycle_0_1_2 1%Z). vm_compute. reflexivity.
Defined.
